(** * Vocal3D: the multimodal waveguide simulator of miniVTL3D

    A shallow embedding of the parts of
    [sources/Backend/Acoustic3dSimulation.cpp] and
    [sources/Backend/CrossSection2d.cpp] that the specification's claims are
    about, with one module per function group.

    Numbers.  A C++ [double] is read as an exact rational ([Q]): no rounding,
    and only finite values.  Some modules leave that reading because the
    code they embed depends on more: [Curvature] and [Contour] compute with
    IEEE binary64 ([PrimFloat]), since the radius of a straight segment is
    infinite and the spacing of the profiles is rounded; [TransferFunction]
    works over the reals extended with the infinities and NaN, since it
    needs [log10] and [pow] and the stored values may be NaN or zero; and
    [Centerline] works over the reals, since it needs the sine and the
    cosine.

    External numerical routines (Eigen's solvers and inverses, CGAL's
    simplification, libm) are section variables: every theorem holds for
    whatever they compute. *)

From Stdlib Require Import QArith Qminmax Qabs Qround ZArith String Ascii List Sorted Bool Lia Lqa.
From Stdlib Require Reals Lra Floats.
Import ListNotations.

Local Open Scope Q_scope.

(** ** Comparisons of doubles, as booleans *)

(** [a > b] *)
Definition Qgtb (a b : Q) : bool := negb (Qle_bool a b).
(** [a < b] *)
Definition Qltb (a b : Q) : bool := negb (Qle_bool b a).

Lemma Qgtb_lt (a b : Q) : Qgtb a b = true <-> b < a.
Proof.
  unfold Qgtb. rewrite negb_true_iff.
  destruct (Qle_bool a b) eqn:E.
  - apply Qle_bool_iff in E. split; [discriminate | intro H; exfalso; lra].
  - split; [intros _ | reflexivity].
    destruct (Qlt_le_dec b a) as [H|H]; [exact H | ].
    apply Qle_bool_iff in H. congruence.
Qed.

Lemma Qgtb_le (a b : Q) : Qgtb a b = false <-> a <= b.
Proof.
  unfold Qgtb. rewrite negb_false_iff. apply Qle_bool_iff.
Qed.

Lemma Qltb_lt (a b : Q) : Qltb a b = true <-> a < b.
Proof. apply (Qgtb_lt b a). Qed.

Lemma Qltb_le (a b : Q) : Qltb a b = false <-> b <= a.
Proof. apply (Qgtb_le b a). Qed.

(** [M_PI] of <math.h>: the double nearest to pi, 0x1.921fb54442d18p+1. *)
Definition M_PI : Q := 884279719003555 # 281474976710656.

(** ** Complex doubles *)

Module Cplx.

Record complex : Type := mkC { re : Q; im : Q }.

Definition C0 : complex := mkC 0 0.
(** the literal [1i] *)
Definition Ci : complex := mkC 0 1.
Definition Copp (z : complex) : complex := mkC (- re z) (- im z).
Definition Cadd (z w : complex) : complex := mkC (re z + re w) (im z + im w).
Definition Cmul (z w : complex) : complex :=
  mkC (re z * re w - im z * im w) (re z * im w + im z * re w).
Definition Csub (z w : complex) : complex := mkC (re z - re w) (im z - im w).
(** [complex<double> * double] scales both parts *)
Definition Cscale (z : complex) (x : Q) : complex := mkC (re z * x) (im z * x).
Definition Cinv (z : complex) : complex :=
  mkC (re z / (re z * re z + im z * im z)) (- im z / (re z * re z + im z * im z)).

(** equality of the two parts as rationals *)
Definition ceq (z w : complex) : Prop := re z == re w /\ im z == im w.

Lemma ceq_refl (z : complex) : ceq z z.
Proof. split; reflexivity. Qed.

Lemma ceq_sym (z w : complex) : ceq z w -> ceq w z.
Proof. intros [H1 H2]. split; symmetry; assumption. Qed.

Lemma ceq_trans (u v w : complex) : ceq u v -> ceq v w -> ceq u w.
Proof.
  intros [H1 H2] [H3 H4]. split; [rewrite H1 | rewrite H2]; assumption.
Qed.

Lemma Cmul_C0_r (z : complex) : ceq (Cmul z C0) C0.
Proof. split; simpl; ring. Qed.

Lemma Cadd_C0_r (z : complex) : ceq (Cadd z C0) z.
Proof. split; simpl; ring. Qed.

Lemma Cadd_C0_l (z : complex) : ceq (Cadd C0 z) z.
Proof. split; simpl; ring. Qed.

Lemma Cadd_ceq (a b c d : complex) : ceq a b -> ceq c d -> ceq (Cadd a c) (Cadd b d).
Proof.
  intros [H1 H2] [H3 H4]. split; simpl; [rewrite H1, H3 | rewrite H2, H4]; reflexivity.
Qed.

End Cplx.

(** ** Junction updates of the two propagation passes

    [Acoustic3dSimulation::propagateImpedAdmit] and
    [Acoustic3dSimulation::propagateVelocityPress]: the loop over the
    sections, with what one turn does between two adjacent sections (the
    junction update) and inside a section (the propagation, a numerical
    routine of [CrossSection2d] that is taken as given). *)

Module Junction.
Import Cplx.

Inductive propagationMethod : Type := MAGNUS | STRAIGHT_TUBES.

Inductive physicalQuantity : Type := IMPEDANCE | ADMITTANCE | PRESSURE | VELOCITY.

(** Which arm of the [if] the update took: the one the source comments
    "case of a contraction" / "the section contracts", or the other. *)
Inductive junctionBranch : Type := Contraction | Expansion.

Section JunctionUpdate.

(** Eigen matrices ([Matrix], [Eigen::MatrixXcd]; a vector of modal
    amplitudes is a one-column matrix) and the operations used on them. *)
Variable Mat : Type.
Variable Identity : nat -> Mat.
Variable Zero : nat -> nat -> Mat.
Variables mul add sub : Mat -> Mat -> Mat.
Variables transpose inverse : Mat -> Mat.
Variable scale : Q -> Mat -> Mat.
Variable unscale : Mat -> Q -> Mat.
Variable cscale : complex -> Mat -> Mat.
(** [sqrt] of <cmath> *)
Variable sqrt_d : Q -> Q.

(** A cross-section: its geometry, its junction matrices, and the
    matrices of the current frequency, sampled along the section, with the
    direction in which each was propagated. *)
Record CrossSection2d : Type := mkSection {
  area : Q;
  scaleIn : Q;
  scaleOut : Q;
  numberOfModes : nat;
  getMatrixF : list Mat;
  m_impedance : list Mat;
  m_admittance : list Mat;
  m_acPressure : list Mat;
  m_axialVelocity : list Mat;
  Zdir : Z; Ydir : Z; Qdir : Z; Pdir : Z
}.

(** [v[0]] and [v.back()] *)
Definition front (v : list Mat) : Mat := nth 0%nat v (Zero 0 0).
Definition back (v : list Mat) : Mat := last v (Zero 0 0).

Definition Zin (sec : CrossSection2d) : Mat :=
  if (Zdir sec =? 1)%Z then front (m_impedance sec) else back (m_impedance sec).
Definition Zout (sec : CrossSection2d) : Mat :=
  if (Zdir sec =? 1)%Z then back (m_impedance sec) else front (m_impedance sec).
Definition Yin (sec : CrossSection2d) : Mat :=
  if (Ydir sec =? 1)%Z then front (m_admittance sec) else back (m_admittance sec).
Definition Yout (sec : CrossSection2d) : Mat :=
  if (Ydir sec =? 1)%Z then back (m_admittance sec) else front (m_admittance sec).
Definition Pin (sec : CrossSection2d) : Mat :=
  if (Pdir sec =? 1)%Z then front (m_acPressure sec) else back (m_acPressure sec).
Definition Pout (sec : CrossSection2d) : Mat :=
  match m_acPressure sec with
  | [] => Zero 0 0
  | _ => if (Pdir sec =? 1)%Z then back (m_acPressure sec) else front (m_acPressure sec)
  end.
Definition Qin (sec : CrossSection2d) : Mat :=
  if (Qdir sec =? 1)%Z then front (m_axialVelocity sec) else back (m_axialVelocity sec).
Definition Qout (sec : CrossSection2d) : Mat :=
  match m_axialVelocity sec with
  | [] => mul (Yout sec) (Pout sec)
  | _ => if (Qdir sec =? 1)%Z then back (m_axialVelocity sec) else front (m_axialVelocity sec)
  end.

(** [F[0]] *)
Definition F0 (F : list Mat) : Mat := nth 0%nat F (Zero 0 0).

Record simulationParameters : Type := mkParams {
  propMethod : propagationMethod;
  junctionLosses : bool
}.

(** The matrices a junction update of [propagateImpedAdmit] leaves in
    [prevImped] and [prevAdmit], and the arm it took. *)
Record impedAdmitStep : Type := mkIAStep {
  ia_branch : junctionBranch;
  prevImped : Mat;
  prevAdmit : Mat
}.

(** The complementary matrix [G] of [propagateImpedAdmit] (chosen on the
    bare areas, whatever the propagation method). *)
Definition impedAdmitG (direction : Z) (sec_i sec_prev : CrossSection2d) : Mat :=
  let nI := numberOfModes sec_i in
  let nPs := numberOfModes sec_prev in
  if (direction =? -1)%Z then
    let F := getMatrixF sec_i in
    if Qgtb (area sec_i) (area sec_prev)
    then sub (Identity nI) (mul (F0 F) (transpose (F0 F)))
    else sub (Identity nPs) (mul (transpose (F0 F)) (F0 F))
  else
    let F := getMatrixF sec_prev in
    if Qgtb (area sec_i) (area sec_prev)
    then sub (Identity nI) (mul (transpose (F0 F)) (F0 F))
    else sub (Identity nPs) (mul (F0 F) (transpose (F0 F))).

(** One iteration of the section loop of [propagateImpedAdmit], from the
    extraction of [F] to the end of the switch on [propMethod]: section
    [i] is the one being entered, [prevSec = i - direction] the one just
    left. *)
Definition junctionImpedAdmit (simuParams : simulationParameters)
    (wallInterfaceAdmit : complex) (direction : Z)
    (sec_i sec_prev : CrossSection2d) : impedAdmitStep :=
  let nI := numberOfModes sec_i in
  let nPs := numberOfModes sec_prev in
  let F := if (direction =? -1)%Z then getMatrixF sec_i else getMatrixF sec_prev in
  let G := impedAdmitG direction sec_i sec_prev in
  let prevImped0 := Zero nI nI in
  let prevAdmit0 := Zero nI nI in
  match propMethod simuParams with
  | MAGNUS =>
    if (direction =? -1)%Z then
      if Qgtb (area sec_i * scaleOut sec_i ^ 2) (area sec_prev * scaleIn sec_prev ^ 2)
      then
        let ratio := scaleOut sec_i ^ 2 / scaleIn sec_prev ^ 2 in
        let FYFt := mul (mul (scale ratio (F0 F)) (Yin sec_prev)) (transpose (F0 F)) in
        if junctionLosses simuParams
        then mkIAStep Contraction prevImped0
               (add prevAdmit0 (sub FYFt (cscale wallInterfaceAdmit G)))
        else mkIAStep Contraction prevImped0 (add prevAdmit0 FYFt)
      else
        let ratio := scaleIn sec_prev ^ 2 / scaleOut sec_i ^ 2 in
        let imped :=
          if junctionLosses simuParams
          then add prevImped0
                 (mul (mul (mul (scale ratio (F0 F)) (Zin sec_prev))
                        (inverse (sub (Identity nPs)
                           (mul (cscale wallInterfaceAdmit G) (Zin sec_prev)))))
                    (transpose (F0 F)))
          else add prevImped0
                 (mul (mul (scale ratio (F0 F)) (Zin sec_prev)) (transpose (F0 F))) in
        mkIAStep Expansion imped (add prevAdmit0 (inverse imped))
    else
      if Qgtb (area sec_i * scaleIn sec_i ^ 2) (area sec_prev * scaleOut sec_prev ^ 2)
      then
        let ratio := scaleIn sec_i ^ 2 / scaleOut sec_prev ^ 2 in
        let FtYF := mul (mul (scale ratio (transpose (F0 F))) (Yout sec_prev)) (F0 F) in
        if junctionLosses simuParams
        then mkIAStep Contraction prevImped0
               (add prevAdmit0 (add FtYF (cscale wallInterfaceAdmit G)))
        else mkIAStep Contraction prevImped0 (add prevAdmit0 FtYF)
      else
        let ratio := scaleOut sec_prev ^ 2 / scaleIn sec_i ^ 2 in
        let imped :=
          if junctionLosses simuParams
          then add prevImped0
                 (mul (mul (mul (scale ratio (transpose (F0 F))) (Zout sec_prev))
                        (inverse (add (Identity nPs)
                           (mul (cscale wallInterfaceAdmit G) (Zout sec_prev)))))
                    (F0 F))
          else add prevImped0
                 (mul (mul (scale ratio (transpose (F0 F))) (Zout sec_prev)) (F0 F)) in
        mkIAStep Expansion imped (add prevAdmit0 (inverse imped))
  | STRAIGHT_TUBES =>
    let areaRatio := Qmax (area sec_prev) (area sec_i) / Qmin (area sec_prev) (area sec_i) in
    if (direction =? -1)%Z then
      if Qgtb (area sec_i) (area sec_prev)
      then
        let admittance :=
          add prevAdmit0 (mul (mul (scale areaRatio (F0 F)) (Yin sec_prev)) (transpose (F0 F))) in
        mkIAStep Contraction (add prevImped0 (inverse admittance)) admittance
      else
        let imped :=
          add prevImped0 (mul (mul (scale areaRatio (F0 F)) (Zin sec_prev)) (transpose (F0 F))) in
        mkIAStep Expansion imped (add prevAdmit0 (inverse imped))
    else
      if Qgtb (area sec_i) (area sec_prev)
      then
        let admittance :=
          add prevAdmit0 (mul (mul (scale areaRatio (F0 F)) (Yout sec_prev)) (transpose (F0 F))) in
        mkIAStep Contraction (add prevImped0 (inverse admittance)) admittance
      else
        let imped :=
          add prevImped0 (mul (mul (scale areaRatio (F0 F)) (Zout sec_prev)) (transpose (F0 F))) in
        mkIAStep Expansion imped (add prevAdmit0 (inverse imped))
  end.

(** The vectors a junction update of [propagateVelocityPress] leaves in
    [prevVelo] and [prevPress], and the arm it took. *)
Record velocityPressStep : Type := mkVPStep {
  vp_branch : junctionBranch;
  prevVelo : Mat;
  prevPress : Mat
}.

Definition velocityPressG (direction : Z) (sec_i sec_next : CrossSection2d) : Mat :=
  let nI := numberOfModes sec_i in
  let nNs := numberOfModes sec_next in
  if (direction =? 1)%Z then
    let F := getMatrixF sec_i in
    if Qgtb (area sec_i) (area sec_next)
    then sub (Identity nI) (mul (F0 F) (transpose (F0 F)))
    else sub (Identity nNs) (mul (transpose (F0 F)) (F0 F))
  else
    let F := getMatrixF sec_next in
    if Qgtb (area sec_i) (area sec_next)
    then sub (Identity nI) (mul (transpose (F0 F)) (F0 F))
    else sub (Identity nNs) (mul (F0 F) (transpose (F0 F))).

(** One iteration of the section loop of [propagateVelocityPress], from
    "get the scattering matrix" to the end of the switch on [propMethod]:
    section [i] is the one just propagated through,
    [nextSec = i + direction] the one being entered. *)
Definition junctionVelocityPress (simuParams : simulationParameters)
    (wallInterfaceAdmit : complex) (direction : Z)
    (sec_i sec_next : CrossSection2d) : velocityPressStep :=
  let nNs := numberOfModes sec_next in
  let F := if (direction =? 1)%Z then getMatrixF sec_i else getMatrixF sec_next in
  let G := velocityPressG direction sec_i sec_next in
  let prevVelo0 := Zero nNs 1 in
  let prevPress0 := Zero nNs 1 in
  match propMethod simuParams with
  | MAGNUS =>
    if (direction =? -1)%Z then
      if Qgtb (area sec_i * scaleIn sec_i ^ 2) (area sec_next * scaleOut sec_next ^ 2)
      then
        let press :=
          add prevPress0
            (unscale (scale (scaleIn sec_i) (mul (F0 F) (Pin sec_i))) (scaleOut sec_next)) in
        mkVPStep Contraction (add prevVelo0 (mul (Yout sec_next) press)) press
      else
        let velo :=
          if junctionLosses simuParams
          then add prevVelo0
                 (unscale (scale (scaleOut sec_next)
                    (mul (mul (inverse (add (Identity nNs)
                                 (mul (cscale wallInterfaceAdmit G) (Zin sec_next))))
                            (F0 F)) (Qin sec_i)))
                    (scaleIn sec_i))
          else add prevVelo0
                 (unscale (scale (scaleOut sec_next) (mul (F0 F) (Qin sec_i)))
                    (scaleIn sec_i)) in
        mkVPStep Expansion velo (add prevPress0 (mul (Zout sec_next) velo))
    else
      if Qgtb (area sec_i * scaleOut sec_i ^ 2) (area sec_next * scaleIn sec_next ^ 2)
      then
        let press :=
          add prevPress0
            (unscale (scale (scaleOut sec_i) (mul (transpose (F0 F)) (Pout sec_i)))
               (scaleIn sec_next)) in
        mkVPStep Contraction (add prevVelo0 (mul (Yin sec_next) press)) press
      else
        let velo :=
          if junctionLosses simuParams
          then add prevVelo0
                 (unscale (scale (scaleIn sec_next)
                    (mul (mul (inverse (sub (Identity nNs)
                                 (mul (cscale wallInterfaceAdmit G) (Zin sec_next))))
                            (transpose (F0 F))) (Qout sec_i)))
                    (scaleOut sec_i))
          else add prevVelo0
                 (unscale (scale (scaleIn sec_next) (mul (transpose (F0 F)) (Qout sec_i)))
                    (scaleOut sec_i)) in
        mkVPStep Expansion velo (add prevPress0 (mul (Zin sec_next) velo))
  | STRAIGHT_TUBES =>
    let areaRatio :=
      sqrt_d (Qmax (area sec_next) (area sec_i) / Qmin (area sec_next) (area sec_i)) in
    if (direction =? -1)%Z then
      if Qgtb (area sec_next) (area sec_i)
      then
        let velo :=
          add prevVelo0 (mul (scale areaRatio (transpose (F0 F))) (Qin sec_i)) in
        mkVPStep Expansion velo (add prevPress0 (mul (Zout sec_next) velo))
      else
        let press :=
          add prevPress0 (mul (scale areaRatio (transpose (F0 F))) (Pin sec_i)) in
        mkVPStep Contraction (add prevVelo0 (mul (Yout sec_next) press)) press
    else
      if Qgtb (area sec_next) (area sec_i)
      then
        let velo :=
          add prevVelo0 (mul (scale areaRatio (transpose (F0 F))) (Qout sec_i)) in
        mkVPStep Expansion velo (add prevPress0 (mul (Zin sec_next) velo))
      else
        let press :=
          add prevPress0 (mul (scale areaRatio (transpose (F0 F))) (Pout sec_i)) in
        mkVPStep Contraction (add prevVelo0 (mul (Yin sec_next) press)) press
  end.

(** *** Propagation inside a section *)

(** For the frequency and the parameters of the solve, the vectors that
    the integration schemes leave in the section:
    [CrossSection2dFEM::propagateMagnus] (the vector of the given
    quantity), [propagateImpedAdmitStraight] (the impedances and the
    admittances) and [propagatePressureVelocityStraight] (the velocities
    and the pressures). They change nothing else in the section. *)
Variable propagateMagnus : CrossSection2d -> Mat -> Z -> physicalQuantity -> list Mat.
Variable propagateImpedAdmitStraight :
  CrossSection2d -> Mat -> Mat -> Q -> Q -> list Mat * list Mat.
Variable propagatePressureVelocityStraight :
  CrossSection2d -> Mat -> Mat -> Q -> list Mat * list Mat.

(** [setZdir], [setYdir], [setImpedance], [setAdmittance] *)
Definition withImpedAdmit (sec : CrossSection2d) (direction : Z)
    (impedance admittance : list Mat) : CrossSection2d :=
  mkSection (area sec) (scaleIn sec) (scaleOut sec) (numberOfModes sec) (getMatrixF sec)
    impedance admittance (m_acPressure sec) (m_axialVelocity sec)
    direction direction (Qdir sec) (Pdir sec).

(** [setQdir], [setPdir], [setAxialVelocity], and the pressures *)
Definition withPressVelo (sec : CrossSection2d) (direction : Z)
    (pressure velocity : list Mat) : CrossSection2d :=
  mkSection (area sec) (scaleIn sec) (scaleOut sec) (numberOfModes sec) (getMatrixF sec)
    (m_impedance sec) (m_admittance sec) pressure velocity
    (Zdir sec) (Ydir sec) direction direction.

(** "propagate admittance in the section": the admittances of
    [propagateMagnus] and their inverses, or the straight-tube formulas. *)
Definition propagateAdmitIn (simuParams : simulationParameters) (sec : CrossSection2d)
    (direction : Z) (imped0 admit0 : Mat) (prevArea nextArea : Q) : CrossSection2d :=
  let cleared := withImpedAdmit sec direction [] [] in
  match propMethod simuParams with
  | MAGNUS =>
    let Y := propagateMagnus cleared admit0 direction ADMITTANCE in
    withImpedAdmit sec direction (map inverse Y) Y
  | STRAIGHT_TUBES =>
    let ZY := propagateImpedAdmitStraight cleared imped0 admit0 prevArea nextArea in
    withImpedAdmit sec direction (fst ZY) (snd ZY)
  end.

(** "propagate axial velocity and acoustic pressure in the section":
    [tmpQ.push_back(Y[numX - 1 - pt] * P[pt])] for each point. *)
Definition propagatePressIn (simuParams : simulationParameters) (sec : CrossSection2d)
    (direction : Z) (velo0 press0 : Mat) (nextArea : Q) : CrossSection2d :=
  let cleared := withPressVelo sec direction [] [] in
  match propMethod simuParams with
  | MAGNUS =>
    let P := propagateMagnus cleared press0 direction PRESSURE in
    let Y := m_admittance sec in
    let numX := length Y in
    let tmpQ := map (fun pt => mul (nth (numX - 1 - pt) Y (Zero 0 0)) (nth pt P (Zero 0 0)))
                    (seq 0 numX) in
    withPressVelo sec direction P tmpQ
  | STRAIGHT_TUBES =>
    let QP := propagatePressureVelocityStraight cleared velo0 press0 nextArea in
    withPressVelo sec direction (snd QP) (fst QP)
  end.

(** *** The loops over the sections *)

Definition noSection : CrossSection2d :=
  mkSection 0 0 0 0 [] [] [] [] [] 0 0 0 0.

(** [m_crossSections[i]] *)
Definition sectionAt (m_crossSections : list CrossSection2d) (i : Z) : CrossSection2d :=
  if (i <? 0)%Z then noSection else nth (Z.to_nat i) m_crossSections noSection.

Fixpoint replaceNth (secs : list CrossSection2d) (n : nat) (sec : CrossSection2d)
    : list CrossSection2d :=
  match secs, n with
  | [], _ => []
  | _ :: rest, O => sec :: rest
  | s :: rest, S n' => s :: replaceNth rest n' sec
  end.

(** The section [i] of the vector, after the calls that change it. *)
Definition setSection (m_crossSections : list CrossSection2d) (i : Z)
    (sec : CrossSection2d) : list CrossSection2d :=
  if (i <? 0)%Z then m_crossSections else replaceNth m_crossSections (Z.to_nat i) sec.

(** [m_crossSections[max(0, min(numSec, k))]->area()] *)
Definition clampedArea (m_crossSections : list CrossSection2d) (k : Z) : Q :=
  area (sectionAt m_crossSections
          (Z.max 0 (Z.min (Z.of_nat (length m_crossSections)) k))).

(** The direction the six-argument overloads compute. *)
Definition directionOf (startSection endSection : Z) : Z :=
  if (startSection >? endSection)%Z then (-1)%Z else 1%Z.

(** [for (int i(startSection + direction); i != (endSection + direction);
    i += direction)] with [prevSec = i - direction]: the sections after the
    loop, and its junction updates in order, each with the two section
    indices. *)
Fixpoint impedAdmitLoop (fuel : nat) (simuParams : simulationParameters)
    (wallInterfaceAdmit : complex) (m_crossSections : list CrossSection2d)
    (i stop direction : Z) : list CrossSection2d * list (Z * Z * impedAdmitStep) :=
  match fuel with
  | O => (m_crossSections, [])
  | S fuel' =>
    if (i =? stop)%Z then (m_crossSections, [])
    else
      let prevSec := (i - direction)%Z in
      let step :=
        junctionImpedAdmit simuParams wallInterfaceAdmit direction
          (sectionAt m_crossSections i) (sectionAt m_crossSections prevSec) in
      let propagated :=
        propagateAdmitIn simuParams (sectionAt m_crossSections i) direction
          (prevImped step) (prevAdmit step)
          (area (sectionAt m_crossSections prevSec))
          (clampedArea m_crossSections (i + direction)) in
      let r := impedAdmitLoop fuel' simuParams wallInterfaceAdmit
                 (setSection m_crossSections i propagated) (i + direction)%Z stop direction in
      (fst r, (i, prevSec, step) :: snd r)
  end.

(** [propagateImpedAdmit(startImped, startAdmit, freq, startSection,
    endSection, time)]: the start section is propagated from the given
    matrices, then the loop runs. *)
Definition propagateImpedAdmit (simuParams : simulationParameters)
    (wallInterfaceAdmit : complex) (m_crossSections : list CrossSection2d)
    (startImped startAdmit : Mat) (startSection endSection : Z)
    : list CrossSection2d * list (Z * Z * impedAdmitStep) :=
  let direction := directionOf startSection endSection in
  let started :=
    propagateAdmitIn simuParams (sectionAt m_crossSections startSection) direction
      startImped startAdmit 100 (clampedArea m_crossSections (startSection + direction)) in
  impedAdmitLoop (Z.abs_nat (endSection - startSection)) simuParams wallInterfaceAdmit
    (setSection m_crossSections startSection started)
    (startSection + direction)%Z (endSection + direction)%Z direction.

(** [for (int i(startSection); i != (endSection); i += direction)] with
    [nextSec = i + direction]: section [i] is propagated, then the junction
    update gives the velocity and pressure at the entry of the next one. *)
Fixpoint velocityPressLoop (fuel : nat) (simuParams : simulationParameters)
    (wallInterfaceAdmit : complex) (m_crossSections : list CrossSection2d)
    (i stop direction : Z) (velo press : Mat)
    : list CrossSection2d * (Mat * Mat) * list (Z * Z * velocityPressStep) :=
  match fuel with
  | O => (m_crossSections, (velo, press), [])
  | S fuel' =>
    if (i =? stop)%Z then (m_crossSections, (velo, press), [])
    else
      let nextSec := (i + direction)%Z in
      let propagated :=
        propagatePressIn simuParams (sectionAt m_crossSections i) direction velo press
          (area (sectionAt m_crossSections nextSec)) in
      let secs := setSection m_crossSections i propagated in
      let step :=
        junctionVelocityPress simuParams wallInterfaceAdmit direction
          (sectionAt secs i) (sectionAt secs nextSec) in
      let r := velocityPressLoop fuel' simuParams wallInterfaceAdmit secs
                 (i + direction)%Z stop direction (prevVelo step) (prevPress step) in
      (fst r, (i, nextSec, step) :: snd r)
  end.

(** [propagateVelocityPress(startVelocity, startPressure, freq,
    startSection, endSection, time)]: the loop, then "propagate in the last
    section". *)
Definition propagateVelocityPress (simuParams : simulationParameters)
    (wallInterfaceAdmit : complex) (m_crossSections : list CrossSection2d)
    (startVelocity startPressure : Mat) (startSection endSection : Z)
    : list CrossSection2d * list (Z * Z * velocityPressStep) :=
  let direction := directionOf startSection endSection in
  let r := velocityPressLoop (Z.abs_nat (endSection - startSection)) simuParams
             wallInterfaceAdmit m_crossSections startSection endSection direction
             startVelocity startPressure in
  let secs := fst (fst r) in
  let last := propagatePressIn simuParams (sectionAt secs endSection) direction
                (fst (snd (fst r))) (snd (snd (fst r))) 100 in
  (setSection secs endSection last, snd r).

(** *** The classifier as the specification words it

    "comparing area * scale^2 across the junction": a section upstream of
    the junction meets it with its exit, a section downstream of it with
    its entry. *)

Definition exitQuantity (sec : CrossSection2d) : Q := area sec * scaleOut sec ^ 2.
Definition entryQuantity (sec : CrossSection2d) : Q := area sec * scaleIn sec ^ 2.

(** Seen from a junction between sections [a] and [b] of indices [ia] and
    [ib], the quantity of [a]: [a] is upstream when its index is the
    smaller one. *)
Definition quantityAt (ia ib : Z) (a : CrossSection2d) : Q :=
  if (ia <? ib)%Z then exitQuantity a else entryQuantity a.

(** *** Which arm each update takes *)

Lemma impedAdmit_branch_magnus (jl : bool) (w : complex) (direction : Z)
    (sec_i sec_prev : CrossSection2d) :
  ia_branch (junctionImpedAdmit (mkParams MAGNUS jl) w direction sec_i sec_prev) =
  if (direction =? -1)%Z
  then if Qgtb (exitQuantity sec_i) (entryQuantity sec_prev) then Contraction else Expansion
  else if Qgtb (entryQuantity sec_i) (exitQuantity sec_prev) then Contraction else Expansion.
Proof.
  unfold junctionImpedAdmit, exitQuantity, entryQuantity; simpl.
  destruct (direction =? -1)%Z.
  - destruct (Qgtb _ _); [destruct jl|]; reflexivity.
  - destruct (Qgtb _ _); [destruct jl|]; reflexivity.
Qed.

Lemma velocityPress_branch_magnus (jl : bool) (w : complex) (direction : Z)
    (sec_i sec_next : CrossSection2d) :
  vp_branch (junctionVelocityPress (mkParams MAGNUS jl) w direction sec_i sec_next) =
  if (direction =? -1)%Z
  then if Qgtb (entryQuantity sec_i) (exitQuantity sec_next) then Contraction else Expansion
  else if Qgtb (exitQuantity sec_i) (entryQuantity sec_next) then Contraction else Expansion.
Proof.
  unfold junctionVelocityPress, exitQuantity, entryQuantity; simpl.
  destruct (direction =? -1)%Z.
  - destruct (Qgtb _ _); reflexivity.
  - destruct (Qgtb _ _); reflexivity.
Qed.

Lemma impedAdmit_branch_straight (jl : bool) (w : complex) (direction : Z)
    (sec_i sec_prev : CrossSection2d) :
  ia_branch (junctionImpedAdmit (mkParams STRAIGHT_TUBES jl) w direction sec_i sec_prev) =
  if Qgtb (area sec_i) (area sec_prev) then Contraction else Expansion.
Proof.
  unfold junctionImpedAdmit; simpl.
  destruct (direction =? -1)%Z; destruct (Qgtb _ _); reflexivity.
Qed.

Lemma velocityPress_branch_straight (jl : bool) (w : complex) (direction : Z)
    (sec_i sec_next : CrossSection2d) :
  vp_branch (junctionVelocityPress (mkParams STRAIGHT_TUBES jl) w direction sec_i sec_next) =
  if Qgtb (area sec_next) (area sec_i) then Expansion else Contraction.
Proof.
  unfold junctionVelocityPress; simpl.
  destruct (direction =? -1)%Z; destruct (Qgtb _ _); reflexivity.
Qed.

Lemma branch_of_Qgtb (a b : Q) :
  (if Qgtb a b then Contraction else Expansion) = Contraction <-> b < a.
Proof.
  rewrite <- Qgtb_lt. destruct (Qgtb a b); split; congruence.
Qed.

Lemma directionOf_cases (startSection endSection : Z) :
  (directionOf startSection endSection = -1 /\ endSection < startSection)%Z \/
  (directionOf startSection endSection = 1 /\ startSection <= endSection)%Z.
Proof.
  unfold directionOf. destruct (Z.gtb_spec startSection endSection); [left | right]; lia.
Qed.

(** *** The geometry does not change during a pass *)

Definition geometryOf (sec : CrossSection2d) : Q * Q * Q :=
  (area sec, scaleIn sec, scaleOut sec).

Definition sameGeometry (secs secs' : list CrossSection2d) : Prop :=
  forall i : Z, geometryOf (sectionAt secs' i) = geometryOf (sectionAt secs i).

Lemma propagateAdmitIn_geometry (sp : simulationParameters) (sec : CrossSection2d)
    (direction : Z) (imped0 admit0 : Mat) (prevArea nextArea : Q) :
  geometryOf (propagateAdmitIn sp sec direction imped0 admit0 prevArea nextArea)
  = geometryOf sec.
Proof. unfold propagateAdmitIn. destruct (propMethod sp); reflexivity. Qed.

Lemma propagatePressIn_geometry (sp : simulationParameters) (sec : CrossSection2d)
    (direction : Z) (velo0 press0 : Mat) (nextArea : Q) :
  geometryOf (propagatePressIn sp sec direction velo0 press0 nextArea) = geometryOf sec.
Proof. unfold propagatePressIn. destruct (propMethod sp); reflexivity. Qed.

Lemma nth_replaceNth (secs : list CrossSection2d) (n m : nat) (sec : CrossSection2d) :
  geometryOf sec = geometryOf (nth n secs noSection) ->
  geometryOf (nth m (replaceNth secs n sec) noSection) = geometryOf (nth m secs noSection).
Proof.
  revert n m. induction secs as [|s secs IH]; intros [|n] [|m] H; simpl in *; auto.
Qed.

Lemma setSection_geometry (secs : list CrossSection2d) (i : Z) (sec : CrossSection2d) :
  geometryOf sec = geometryOf (sectionAt secs i) ->
  sameGeometry secs (setSection secs i sec).
Proof.
  intros H j. unfold setSection, sectionAt in *.
  destruct (i <? 0)%Z; [reflexivity|].
  destruct (j <? 0)%Z; [reflexivity|]. apply nth_replaceNth, H.
Qed.

Lemma sameGeometry_trans (a b c : list CrossSection2d) :
  sameGeometry a b -> sameGeometry b c -> sameGeometry a c.
Proof. intros H1 H2 i. rewrite H2, H1. reflexivity. Qed.

Lemma sameGeometry_quantity (secs secs' : list CrossSection2d) (i j : Z) :
  sameGeometry secs secs' ->
  quantityAt i j (sectionAt secs' i) = quantityAt i j (sectionAt secs i).
Proof.
  intro H. specialize (H i). unfold geometryOf in H. injection H as Ha Hi Ho.
  unfold quantityAt, exitQuantity, entryQuantity. rewrite Ha, Hi, Ho. reflexivity.
Qed.

(** *** Every update of a pass *)

(** The property of one recorded update: the two sections are neighbours,
    and the contraction arm is taken exactly when the first of them (the
    section being entered in the impedance pass, the section being left in
    the velocity pass) has the larger area * scale^2, each side measured at
    the face that touches the junction. *)
Definition classifiedByScaledArea (m_crossSections : list CrossSection2d)
    (i other : Z) (b : junctionBranch) : Prop :=
  Z.abs (i - other) = 1%Z /\
  (b = Contraction <->
   quantityAt other i (sectionAt m_crossSections other)
   < quantityAt i other (sectionAt m_crossSections i)).

Lemma classified_impedAdmit (jl : bool) (w : complex) (secs cur : list CrossSection2d)
    (i direction : Z) :
  direction = (-1)%Z \/ direction = 1%Z ->
  sameGeometry secs cur ->
  classifiedByScaledArea secs i (i - direction)
    (ia_branch (junctionImpedAdmit (mkParams MAGNUS jl) w direction
                  (sectionAt cur i) (sectionAt cur (i - direction)))).
Proof.
  intros Hd Hg. unfold classifiedByScaledArea.
  rewrite impedAdmit_branch_magnus.
  rewrite <- (sameGeometry_quantity secs cur i (i - direction) Hg).
  rewrite <- (sameGeometry_quantity secs cur (i - direction) i Hg).
  unfold quantityAt.
  destruct Hd as [-> | ->]; cbn [Z.eqb Pos.eqb]; rewrite branch_of_Qgtb.
  - replace (i - -1 <? i)%Z with false by (symmetry; apply Z.ltb_ge; lia).
    replace (i <? i - -1)%Z with true by (symmetry; apply Z.ltb_lt; lia).
    split; [lia | reflexivity].
  - replace (i - 1 <? i)%Z with true by (symmetry; apply Z.ltb_lt; lia).
    replace (i <? i - 1)%Z with false by (symmetry; apply Z.ltb_ge; lia).
    split; [lia | reflexivity].
Qed.

Lemma classified_velocityPress (jl : bool) (w : complex) (secs cur : list CrossSection2d)
    (i direction : Z) :
  direction = (-1)%Z \/ direction = 1%Z ->
  sameGeometry secs cur ->
  classifiedByScaledArea secs i (i + direction)
    (vp_branch (junctionVelocityPress (mkParams MAGNUS jl) w direction
                  (sectionAt cur i) (sectionAt cur (i + direction)))).
Proof.
  intros Hd Hg. unfold classifiedByScaledArea.
  rewrite velocityPress_branch_magnus.
  rewrite <- (sameGeometry_quantity secs cur i (i + direction) Hg).
  rewrite <- (sameGeometry_quantity secs cur (i + direction) i Hg).
  unfold quantityAt.
  destruct Hd as [-> | ->]; cbn [Z.eqb Pos.eqb]; rewrite branch_of_Qgtb.
  - replace (i + -1 <? i)%Z with true by (symmetry; apply Z.ltb_lt; lia).
    replace (i <? i + -1)%Z with false by (symmetry; apply Z.ltb_ge; lia).
    split; [lia | reflexivity].
  - replace (i + 1 <? i)%Z with false by (symmetry; apply Z.ltb_ge; lia).
    replace (i <? i + 1)%Z with true by (symmetry; apply Z.ltb_lt; lia).
    split; [lia | reflexivity].
Qed.

Lemma impedAdmitLoop_classified (jl : bool) (w : complex)
    (secs : list CrossSection2d) (stop direction : Z) :
  direction = (-1)%Z \/ direction = 1%Z ->
  forall (fuel : nat) (cur : list CrossSection2d) (i : Z),
    sameGeometry secs cur ->
    Forall (fun r => classifiedByScaledArea secs (fst (fst r)) (snd (fst r)) (ia_branch (snd r)))
      (snd (impedAdmitLoop fuel (mkParams MAGNUS jl) w cur i stop direction)).
Proof.
  intros Hd fuel. induction fuel as [|fuel IH]; intros cur i Hg; cbn [impedAdmitLoop].
  - constructor.
  - destruct (i =? stop)%Z; [constructor|]. cbn [snd].
    constructor.
    + cbn [fst snd]. apply classified_impedAdmit; assumption.
    + apply IH. apply sameGeometry_trans with cur; [exact Hg|].
      apply setSection_geometry, propagateAdmitIn_geometry.
Qed.

Lemma velocityPressLoop_classified (jl : bool) (w : complex)
    (secs : list CrossSection2d) (stop direction : Z) :
  direction = (-1)%Z \/ direction = 1%Z ->
  forall (fuel : nat) (cur : list CrossSection2d) (i : Z) (velo press : Mat),
    sameGeometry secs cur ->
    Forall (fun r => classifiedByScaledArea secs (fst (fst r)) (snd (fst r)) (vp_branch (snd r)))
      (snd (velocityPressLoop fuel (mkParams MAGNUS jl) w cur i stop direction velo press)).
Proof.
  intros Hd fuel. induction fuel as [|fuel IH]; intros cur i velo press Hg;
    cbn [velocityPressLoop].
  - constructor.
  - destruct (i =? stop)%Z; [constructor|]. cbn [snd].
    assert (Hg' : sameGeometry secs
                    (setSection cur i
                       (propagatePressIn (mkParams MAGNUS jl) (sectionAt cur i) direction
                          velo press (area (sectionAt cur (i + direction)))))).
    { apply sameGeometry_trans with cur; [exact Hg|].
      apply setSection_geometry, propagatePressIn_geometry. }
    constructor.
    + cbn [fst snd]. apply classified_velocityPress; assumption.
    + apply IH. exact Hg'.
Qed.

(** The fuel of the two passes is exact: the loops leave through their
    test [i != stop], after one update per junction between the start and
    the end section. *)
Lemma impedAdmitLoop_length (sp : simulationParameters) (w : complex)
    (direction : Z) (n : nat) :
  direction <> 0%Z ->
  forall (secs : list CrossSection2d) (i : Z) (extra : nat),
    let stop := (i + Z.of_nat n * direction)%Z in
    impedAdmitLoop (n + extra) sp w secs i stop direction =
    impedAdmitLoop n sp w secs i stop direction /\
    length (snd (impedAdmitLoop n sp w secs i stop direction)) = n.
Proof.
  intros Hd. induction n as [|n IH]; intros secs i extra stop; subst stop.
  - assert (Hs : (i + Z.of_nat 0 * direction = i)%Z) by lia. rewrite Hs.
    split; [|reflexivity]. destruct extra; cbn [Nat.add impedAdmitLoop]; [reflexivity|].
    rewrite Z.eqb_refl. reflexivity.
  - assert (Hne : (i =? i + Z.of_nat (S n) * direction)%Z = false)
      by (apply Z.eqb_neq; nia).
    assert (Hs : (i + Z.of_nat (S n) * direction
                  = (i + direction) + Z.of_nat n * direction)%Z) by lia.
    cbn [Nat.add impedAdmitLoop]. rewrite Hne, Hs.
    match goal with
    | |- context [impedAdmitLoop (n + extra) sp w ?s _ _ _] =>
      destruct (IH s (i + direction)%Z extra) as [E L]
    end.
    rewrite E. cbn [snd length]. rewrite L. split; reflexivity.
Qed.

Lemma velocityPressLoop_length (sp : simulationParameters) (w : complex)
    (direction : Z) (n : nat) :
  direction <> 0%Z ->
  forall (secs : list CrossSection2d) (i : Z) (velo press : Mat) (extra : nat),
    let stop := (i + Z.of_nat n * direction)%Z in
    velocityPressLoop (n + extra) sp w secs i stop direction velo press =
    velocityPressLoop n sp w secs i stop direction velo press /\
    length (snd (velocityPressLoop n sp w secs i stop direction velo press)) = n.
Proof.
  intros Hd. induction n as [|n IH]; intros secs i velo press extra stop; subst stop.
  - assert (Hs : (i + Z.of_nat 0 * direction = i)%Z) by lia. rewrite Hs.
    split; [|reflexivity]. destruct extra; cbn [Nat.add velocityPressLoop]; [reflexivity|].
    rewrite Z.eqb_refl. reflexivity.
  - assert (Hne : (i =? i + Z.of_nat (S n) * direction)%Z = false)
      by (apply Z.eqb_neq; nia).
    assert (Hs : (i + Z.of_nat (S n) * direction
                  = (i + direction) + Z.of_nat n * direction)%Z) by lia.
    cbn [Nat.add velocityPressLoop]. rewrite Hne, Hs.
    match goal with
    | |- context [velocityPressLoop (n + extra) sp w ?s _ _ _ ?v ?p] =>
      destruct (IH s (i + direction)%Z v p extra) as [E L]
    end.
    rewrite E. cbn [snd length]. rewrite L. split; reflexivity.
Qed.

Lemma propagateImpedAdmit_length (sp : simulationParameters) (w : complex)
    (secs : list CrossSection2d) (startImped startAdmit : Mat)
    (startSection endSection : Z) :
  length (snd (propagateImpedAdmit sp w secs startImped startAdmit startSection endSection))
  = Z.abs_nat (endSection - startSection).
Proof.
  unfold propagateImpedAdmit.
  set (d := directionOf startSection endSection).
  set (n := Z.abs_nat (endSection - startSection)).
  assert (Hstop : (endSection + d = (startSection + d) + Z.of_nat n * d)%Z).
  { subst d n. rewrite Zabs2Nat.id_abs.
    destruct (directionOf_cases startSection endSection) as [[-> H] | [-> H]]; lia. }
  assert (Hd : d <> 0%Z).
  { subst d. destruct (directionOf_cases startSection endSection) as [[-> _] | [-> _]]; lia. }
  rewrite Hstop.
  match goal with
  | |- context [impedAdmitLoop n sp w ?s _ _ _] =>
    exact (proj2 (impedAdmitLoop_length sp w d n Hd s (startSection + d)%Z 0%nat))
  end.
Qed.

Lemma propagateVelocityPress_length (sp : simulationParameters) (w : complex)
    (secs : list CrossSection2d) (startVelocity startPressure : Mat)
    (startSection endSection : Z) :
  length (snd (propagateVelocityPress sp w secs startVelocity startPressure
                 startSection endSection))
  = Z.abs_nat (endSection - startSection).
Proof.
  unfold propagateVelocityPress. cbn [snd].
  set (d := directionOf startSection endSection).
  set (n := Z.abs_nat (endSection - startSection)).
  assert (Hstop : (endSection = startSection + Z.of_nat n * d)%Z).
  { subst d n. rewrite Zabs2Nat.id_abs.
    destruct (directionOf_cases startSection endSection) as [[-> H] | [-> H]]; lia. }
  assert (Hd : d <> 0%Z).
  { subst d. destruct (directionOf_cases startSection endSection) as [[-> _] | [-> _]]; lia. }
  rewrite Hstop at 1.
  exact (proj2 (velocityPressLoop_length sp w d n Hd secs startSection
                  startVelocity startPressure 0%nat)).
Qed.

(** C1 (as amended): under the MAGNUS propagation method, every junction
    update of the impedance/admittance pass and of the pressure/velocity
    pass chooses its arm by comparing area * scale^2 of the two sections,
    with the exit scale factor for the upstream section and the entry
    scale factor for the downstream one, in both directions: first for one
    update between an upstream section [up] and a downstream section
    [down], then for every update the two passes make between
    [startSection] and [endSection] (one per junction). *)
Theorem junction_branch_by_scaled_area (jl : bool) (w : complex)
    (up down : CrossSection2d) (secs : list CrossSection2d)
    (startImped startAdmit startVelocity startPressure : Mat)
    (startSection endSection : Z) :
  (ia_branch (junctionImpedAdmit (mkParams MAGNUS jl) w (-1) up down) = Contraction
     <-> entryQuantity down < exitQuantity up) /\
  (ia_branch (junctionImpedAdmit (mkParams MAGNUS jl) w 1 down up) = Contraction
     <-> exitQuantity up < entryQuantity down) /\
  (vp_branch (junctionVelocityPress (mkParams MAGNUS jl) w (-1) down up) = Contraction
     <-> exitQuantity up < entryQuantity down) /\
  (vp_branch (junctionVelocityPress (mkParams MAGNUS jl) w 1 up down) = Contraction
     <-> entryQuantity down < exitQuantity up) /\
  (Forall (fun r => classifiedByScaledArea secs (fst (fst r)) (snd (fst r)) (ia_branch (snd r)))
     (snd (propagateImpedAdmit (mkParams MAGNUS jl) w secs startImped startAdmit
             startSection endSection)) /\
   length (snd (propagateImpedAdmit (mkParams MAGNUS jl) w secs startImped startAdmit
                  startSection endSection))
   = Z.abs_nat (endSection - startSection)) /\
  (Forall (fun r => classifiedByScaledArea secs (fst (fst r)) (snd (fst r)) (vp_branch (snd r)))
     (snd (propagateVelocityPress (mkParams MAGNUS jl) w secs startVelocity startPressure
             startSection endSection)) /\
   length (snd (propagateVelocityPress (mkParams MAGNUS jl) w secs startVelocity
                  startPressure startSection endSection))
   = Z.abs_nat (endSection - startSection)).
Proof.
  assert (Hdir : directionOf startSection endSection = (-1)%Z
                 \/ directionOf startSection endSection = 1%Z).
  { destruct (directionOf_cases startSection endSection) as [[H _] | [H _]]; auto. }
  repeat split.
  - rewrite impedAdmit_branch_magnus. cbn [Z.eqb Pos.eqb]. apply branch_of_Qgtb.
  - rewrite impedAdmit_branch_magnus. cbn [Z.eqb Pos.eqb]. apply branch_of_Qgtb.
  - rewrite impedAdmit_branch_magnus. cbn [Z.eqb]. apply branch_of_Qgtb.
  - rewrite impedAdmit_branch_magnus. cbn [Z.eqb]. apply branch_of_Qgtb.
  - rewrite velocityPress_branch_magnus. cbn [Z.eqb Pos.eqb]. apply branch_of_Qgtb.
  - rewrite velocityPress_branch_magnus. cbn [Z.eqb Pos.eqb]. apply branch_of_Qgtb.
  - rewrite velocityPress_branch_magnus. cbn [Z.eqb]. apply branch_of_Qgtb.
  - rewrite velocityPress_branch_magnus. cbn [Z.eqb]. apply branch_of_Qgtb.
  - unfold propagateImpedAdmit. apply impedAdmitLoop_classified; [exact Hdir|].
    apply setSection_geometry, propagateAdmitIn_geometry.
  - apply propagateImpedAdmit_length.
  - unfold propagateVelocityPress. cbn [snd].
    apply velocityPressLoop_classified; [exact Hdir | intro i; reflexivity].
  - apply propagateVelocityPress_length.
Qed.

(** *** What the passes leave alone, and the order of their updates *)

Lemma length_replaceNth (secs : list CrossSection2d) (n : nat) (sec : CrossSection2d) :
  length (replaceNth secs n sec) = length secs.
Proof.
  revert n. induction secs as [|s secs IH]; intros [|n]; simpl; auto.
Qed.

Lemma length_setSection (secs : list CrossSection2d) (i : Z) (sec : CrossSection2d) :
  length (setSection secs i sec) = length secs.
Proof.
  unfold setSection. destruct (i <? 0)%Z; [reflexivity | apply length_replaceNth].
Qed.

Lemma nth_replaceNth_other (secs : list CrossSection2d) (n m : nat) (sec : CrossSection2d) :
  n <> m -> nth m (replaceNth secs n sec) noSection = nth m secs noSection.
Proof.
  revert n m. induction secs as [|s secs IH]; intros [|n] [|m] H; simpl; auto.
  congruence.
Qed.

Lemma sectionAt_setSection_other (secs : list CrossSection2d) (i j : Z)
    (sec : CrossSection2d) :
  i <> j -> sectionAt (setSection secs i sec) j = sectionAt secs j.
Proof.
  intro H. unfold setSection, sectionAt.
  destruct (i <? 0)%Z eqn:Hi; [reflexivity|].
  destruct (j <? 0)%Z eqn:Hj; [reflexivity|].
  apply nth_replaceNth_other.
  apply Z.ltb_ge in Hi. apply Z.ltb_ge in Hj. lia.
Qed.

(** A component [f] of the sections that a change of one section keeps. *)
Lemma nth_replaceNth_kept (A : Type) (f : CrossSection2d -> A)
    (secs : list CrossSection2d) (n m : nat) (sec : CrossSection2d) :
  f sec = f (nth n secs noSection) ->
  f (nth m (replaceNth secs n sec) noSection) = f (nth m secs noSection).
Proof.
  revert n m. induction secs as [|s secs IH]; intros [|n] [|m] H; simpl in *; auto.
Qed.

Lemma sectionAt_setSection_kept (A : Type) (f : CrossSection2d -> A)
    (secs : list CrossSection2d) (i j : Z) (sec : CrossSection2d) :
  f sec = f (sectionAt secs i) ->
  f (sectionAt (setSection secs i sec) j) = f (sectionAt secs j).
Proof.
  intro H. unfold setSection, sectionAt in *.
  destruct (i <? 0)%Z; [reflexivity|].
  destruct (j <? 0)%Z; [reflexivity|]. apply nth_replaceNth_kept, H.
Qed.

(** What the impedance pass does not write: the geometry, the modes, the
    junction matrices, and the pressures and velocities. *)
Definition outsideImpedAdmit (sec : CrossSection2d) :=
  (area sec, scaleIn sec, scaleOut sec, numberOfModes sec, getMatrixF sec,
   m_acPressure sec, m_axialVelocity sec, Qdir sec, Pdir sec).

(** What the velocity pass does not write: the geometry, the modes, the
    junction matrices, and the impedances and admittances. *)
Definition outsidePressVelo (sec : CrossSection2d) :=
  (area sec, scaleIn sec, scaleOut sec, numberOfModes sec, getMatrixF sec,
   m_impedance sec, m_admittance sec, Zdir sec, Ydir sec).

Lemma propagateAdmitIn_outside (sp : simulationParameters) (sec : CrossSection2d)
    (direction : Z) (imped0 admit0 : Mat) (prevArea nextArea : Q) :
  outsideImpedAdmit (propagateAdmitIn sp sec direction imped0 admit0 prevArea nextArea)
  = outsideImpedAdmit sec.
Proof. unfold propagateAdmitIn. destruct (propMethod sp); reflexivity. Qed.

Lemma propagatePressIn_outside (sp : simulationParameters) (sec : CrossSection2d)
    (direction : Z) (velo0 press0 : Mat) (nextArea : Q) :
  outsidePressVelo (propagatePressIn sp sec direction velo0 press0 nextArea)
  = outsidePressVelo sec.
Proof. unfold propagatePressIn. destruct (propMethod sp); reflexivity. Qed.

(** The sections a loop of [fuel] turns from [i] can write are
    [i], [i + direction], ... *)
Definition onPath (i direction : Z) (fuel : nat) (j : Z) : Prop :=
  exists k : nat, (k < fuel)%nat /\ j = (i + Z.of_nat k * direction)%Z.

Lemma onPath_next (i direction : Z) (fuel : nat) (j : Z) :
  ~ onPath i direction (S fuel) j ->
  i <> j /\ ~ onPath (i + direction) direction fuel j.
Proof.
  intro H. split.
  - intro E. apply H. exists 0%nat. split; lia.
  - intros [k [Hk E]]. apply H. exists (S k). split; lia.
Qed.

Lemma impedAdmitLoop_frame (sp : simulationParameters) (w : complex)
    (stop direction : Z) (fuel : nat) :
  forall (cur : list CrossSection2d) (i : Z),
    let r := impedAdmitLoop fuel sp w cur i stop direction in
    length (fst r) = length cur /\
    (forall j, outsideImpedAdmit (sectionAt (fst r) j) = outsideImpedAdmit (sectionAt cur j)) /\
    (forall j, ~ onPath i direction fuel j -> sectionAt (fst r) j = sectionAt cur j).
Proof.
  induction fuel as [|fuel IH]; intros cur i; cbn [impedAdmitLoop].
  - repeat split; reflexivity.
  - destruct (i =? stop)%Z; [repeat split; reflexivity|]. cbn [fst].
    match goal with
    | |- context [impedAdmitLoop fuel sp w ?s ?i' stop direction] =>
      destruct (IH s i') as [L [K F]]
    end.
    split; [|split].
    + rewrite L. apply length_setSection.
    + intro j. rewrite K. apply sectionAt_setSection_kept, propagateAdmitIn_outside.
    + intros j Hj. apply onPath_next in Hj. destruct Hj as [Hne Hrest].
      rewrite (F j Hrest). apply sectionAt_setSection_other, Hne.
Qed.

Lemma velocityPressLoop_frame (sp : simulationParameters) (w : complex)
    (stop direction : Z) (fuel : nat) :
  forall (cur : list CrossSection2d) (i : Z) (velo press : Mat),
    let r := velocityPressLoop fuel sp w cur i stop direction velo press in
    length (fst (fst r)) = length cur /\
    (forall j, outsidePressVelo (sectionAt (fst (fst r)) j)
               = outsidePressVelo (sectionAt cur j)) /\
    (forall j, ~ onPath i direction fuel j -> sectionAt (fst (fst r)) j = sectionAt cur j).
Proof.
  induction fuel as [|fuel IH]; intros cur i velo press; cbn [velocityPressLoop].
  - repeat split; reflexivity.
  - destruct (i =? stop)%Z; [repeat split; reflexivity|]. cbn [fst].
    match goal with
    | |- context [velocityPressLoop fuel sp w ?s ?i' stop direction ?v ?p] =>
      destruct (IH s i' v p) as [L [K F]]
    end.
    split; [|split].
    + rewrite L. apply length_setSection.
    + intro j. rewrite K. apply sectionAt_setSection_kept, propagatePressIn_outside.
    + intros j Hj. apply onPath_next in Hj. destruct Hj as [Hne Hrest].
      rewrite (F j Hrest). apply sectionAt_setSection_other, Hne.
Qed.

Lemma onPath_between (startSection endSection j : Z) (fuel : nat) :
  fuel = Z.abs_nat (endSection - startSection) ->
  onPath startSection (directionOf startSection endSection) (S fuel) j ->
  (Z.min startSection endSection <= j <= Z.max startSection endSection)%Z.
Proof.
  intros -> [k [Hk ->]].
  destruct (directionOf_cases startSection endSection) as [[-> H] | [-> H]]; lia.
Qed.

(** The impedance pass keeps the number of sections, writes no geometry,
    mode count, junction matrix, pressure or velocity, and leaves every
    section outside [startSection .. endSection] as it was. *)
Theorem impedance_pass_frame (sp : simulationParameters) (w : complex)
    (secs : list CrossSection2d) (startImped startAdmit : Mat)
    (startSection endSection : Z) :
  let after :=
    fst (propagateImpedAdmit sp w secs startImped startAdmit startSection endSection) in
  length after = length secs /\
  (forall j, outsideImpedAdmit (sectionAt after j) = outsideImpedAdmit (sectionAt secs j)) /\
  (forall j, (j < Z.min startSection endSection \/ Z.max startSection endSection < j)%Z ->
     sectionAt after j = sectionAt secs j).
Proof.
  unfold propagateImpedAdmit.
  set (d := directionOf startSection endSection).
  set (n := Z.abs_nat (endSection - startSection)).
  match goal with
  | |- context [impedAdmitLoop n sp w ?s ?i ?stop d] =>
    destruct (impedAdmitLoop_frame sp w stop d n s i) as [L [K F]]
  end.
  cbv zeta. split; [|split].
  - rewrite L. apply length_setSection.
  - intro j. rewrite K. apply sectionAt_setSection_kept, propagateAdmitIn_outside.
  - intros j Hj. rewrite F.
    + apply sectionAt_setSection_other. lia.
    + intros [k [Hk E]].
      assert (Hb : (Z.min startSection endSection <= j
                    <= Z.max startSection endSection)%Z).
      { apply (onPath_between startSection endSection j n eq_refl).
        exists (S k). fold d. split; lia. }
      lia.
Qed.

(** The velocity pass keeps the number of sections, writes no geometry,
    mode count, junction matrix, impedance or admittance (what the
    impedance pass stored is still there), and leaves every section outside
    [startSection .. endSection] as it was. *)
Theorem velocity_pass_frame (sp : simulationParameters) (w : complex)
    (secs : list CrossSection2d) (startVelocity startPressure : Mat)
    (startSection endSection : Z) :
  let after :=
    fst (propagateVelocityPress sp w secs startVelocity startPressure
           startSection endSection) in
  length after = length secs /\
  (forall j, outsidePressVelo (sectionAt after j) = outsidePressVelo (sectionAt secs j)) /\
  (forall j, (j < Z.min startSection endSection \/ Z.max startSection endSection < j)%Z ->
     sectionAt after j = sectionAt secs j).
Proof.
  unfold propagateVelocityPress.
  set (d := directionOf startSection endSection).
  set (n := Z.abs_nat (endSection - startSection)).
  destruct (velocityPressLoop_frame sp w endSection d n secs startSection
              startVelocity startPressure) as [L [K F]].
  cbv zeta. cbn [fst]. split; [|split].
  - rewrite length_setSection. exact L.
  - intro j. rewrite <- K. apply sectionAt_setSection_kept, propagatePressIn_outside.
  - intros j Hj. rewrite sectionAt_setSection_other by lia.
    apply F. intros [k [Hk E]].
    assert (Hb : (Z.min startSection endSection <= j
                  <= Z.max startSection endSection)%Z).
    { apply (onPath_between startSection endSection j n eq_refl).
      exists k. fold d. split; [lia | exact E]. }
    lia.
Qed.

Lemma impedAdmitLoop_indices (sp : simulationParameters) (w : complex)
    (direction : Z) (n : nat) :
  direction <> 0%Z ->
  forall (secs : list CrossSection2d) (i : Z),
    map fst (snd (impedAdmitLoop n sp w secs i (i + Z.of_nat n * direction) direction))
    = map (fun k => (i + Z.of_nat k * direction, i + Z.of_nat k * direction - direction)%Z)
        (seq 0 n).
Proof.
  intro Hd. induction n as [|n IH]; intros secs i.
  - reflexivity.
  - assert (Hne : (i =? i + Z.of_nat (S n) * direction)%Z = false)
      by (apply Z.eqb_neq; nia).
    assert (Hs : (i + Z.of_nat (S n) * direction
                  = (i + direction) + Z.of_nat n * direction)%Z) by lia.
    cbn [impedAdmitLoop]. rewrite Hne, Hs. cbn [snd map seq fst].
    rewrite IH, <- seq_shift, map_map. f_equal.
    + f_equal; lia.
    + apply map_ext. intro k. f_equal; lia.
Qed.

Lemma velocityPressLoop_indices (sp : simulationParameters) (w : complex)
    (direction : Z) (n : nat) :
  direction <> 0%Z ->
  forall (secs : list CrossSection2d) (i : Z) (velo press : Mat),
    map fst (snd (velocityPressLoop n sp w secs i (i + Z.of_nat n * direction) direction
                    velo press))
    = map (fun k => (i + Z.of_nat k * direction, i + Z.of_nat k * direction + direction)%Z)
        (seq 0 n).
Proof.
  intro Hd. induction n as [|n IH]; intros secs i velo press.
  - reflexivity.
  - assert (Hne : (i =? i + Z.of_nat (S n) * direction)%Z = false)
      by (apply Z.eqb_neq; nia).
    assert (Hs : (i + Z.of_nat (S n) * direction
                  = (i + direction) + Z.of_nat n * direction)%Z) by lia.
    cbn [velocityPressLoop]. rewrite Hne, Hs. cbn [snd map seq fst].
    rewrite IH, <- seq_shift, map_map. f_equal.
    + f_equal; lia.
    + apply map_ext. intro k. f_equal; lia.
Qed.

(** Both passes update the junctions one after the other, from the start
    section to the end section: with [d] the direction and [n] the number
    of junctions between the two, update [k] of the impedance pass enters
    section [start + (k+1) d] from section [start + k d], and update [k]
    of the velocity pass leaves section [start + k d] for section
    [start + (k+1) d]. *)
Theorem passes_update_junctions_in_order (sp : simulationParameters) (w : complex)
    (secs : list CrossSection2d) (startImped startAdmit startVelocity startPressure : Mat)
    (startSection endSection : Z) :
  let d := directionOf startSection endSection in
  let n := Z.abs_nat (endSection - startSection) in
  map fst (snd (propagateImpedAdmit sp w secs startImped startAdmit startSection endSection))
  = map (fun k => (startSection + Z.of_nat (S k) * d, startSection + Z.of_nat k * d)%Z)
      (seq 0 n) /\
  map fst (snd (propagateVelocityPress sp w secs startVelocity startPressure
                  startSection endSection))
  = map (fun k => (startSection + Z.of_nat k * d, startSection + Z.of_nat (S k) * d)%Z)
      (seq 0 n).
Proof.
  intros d n.
  assert (Hd : d <> 0%Z).
  { subst d. destruct (directionOf_cases startSection endSection) as [[-> _] | [-> _]]; lia. }
  assert (Hstop : (endSection = startSection + Z.of_nat n * d)%Z).
  { subst d n. rewrite Zabs2Nat.id_abs.
    destruct (directionOf_cases startSection endSection) as [[-> H] | [-> H]]; lia. }
  split.
  - unfold propagateImpedAdmit. fold d n.
    replace (endSection + d)%Z with ((startSection + d) + Z.of_nat n * d)%Z by lia.
    rewrite (impedAdmitLoop_indices sp w d n Hd).
    apply map_ext. intro k. f_equal; lia.
  - unfold propagateVelocityPress. fold d n. cbn [snd].
    rewrite Hstop at 1.
    rewrite (velocityPressLoop_indices sp w d n Hd).
    apply map_ext. intro k. f_equal; lia.
Qed.

Lemma impedAdmitLoop_straight (jl : bool) (w : complex)
    (secs : list CrossSection2d) (stop direction : Z) :
  forall (fuel : nat) (cur : list CrossSection2d) (i : Z),
    sameGeometry secs cur ->
    Forall (fun r => ia_branch (snd r) = Contraction
                     <-> area (sectionAt secs (snd (fst r)))
                         < area (sectionAt secs (fst (fst r))))
      (snd (impedAdmitLoop fuel (mkParams STRAIGHT_TUBES jl) w cur i stop direction)).
Proof.
  intro fuel. induction fuel as [|fuel IH]; intros cur i Hg; cbn [impedAdmitLoop].
  - constructor.
  - destruct (i =? stop)%Z; [constructor|]. cbn [snd].
    constructor.
    + cbn [fst snd]. rewrite impedAdmit_branch_straight, branch_of_Qgtb.
      pose proof (Hg i) as Hi. pose proof (Hg (i - direction)%Z) as Hp.
      unfold geometryOf in Hi, Hp. injection Hi as Hi _ _. injection Hp as Hp _ _.
      rewrite Hi, Hp. reflexivity.
    + apply IH. apply sameGeometry_trans with cur; [exact Hg|].
      apply setSection_geometry, propagateAdmitIn_geometry.
Qed.

Lemma velocityPressLoop_straight (jl : bool) (w : complex)
    (secs : list CrossSection2d) (stop direction : Z) :
  forall (fuel : nat) (cur : list CrossSection2d) (i : Z) (velo press : Mat),
    sameGeometry secs cur ->
    Forall (fun r => vp_branch (snd r) = Expansion
                     <-> area (sectionAt secs (fst (fst r)))
                         < area (sectionAt secs (snd (fst r))))
      (snd (velocityPressLoop fuel (mkParams STRAIGHT_TUBES jl) w cur i stop direction
              velo press)).
Proof.
  intro fuel. induction fuel as [|fuel IH]; intros cur i velo press Hg;
    cbn [velocityPressLoop].
  - constructor.
  - destruct (i =? stop)%Z; [constructor|]. cbn [snd].
    assert (Hg' : sameGeometry secs
                    (setSection cur i
                       (propagatePressIn (mkParams STRAIGHT_TUBES jl) (sectionAt cur i)
                          direction velo press (area (sectionAt cur (i + direction)))))).
    { apply sameGeometry_trans with cur; [exact Hg|].
      apply setSection_geometry, propagatePressIn_geometry. }
    constructor.
    + cbn [fst snd]. rewrite velocityPress_branch_straight.
      pose proof (Hg' i) as Hi. pose proof (Hg' (i + direction)%Z) as Hn.
      unfold geometryOf in Hi, Hn. injection Hi as Hi _ _. injection Hn as Hn _ _.
      rewrite Hi, Hn. rewrite <- Qgtb_lt.
      destruct (Qgtb _ _); split; congruence.
    + apply IH. exact Hg'.
Qed.

(** Under the STRAIGHT_TUBES method every junction update of the two
    passes compares the bare areas of the two sections, in either
    direction: the impedance pass takes the contraction arm exactly when
    the section it enters is the larger one, the velocity pass takes the
    expansion arm exactly when the section it goes to is the larger one
    (two sections of equal areas are an expansion for the first pass and a
    contraction for the second). *)
Theorem straight_tubes_passes_compare_areas (jl : bool) (w : complex)
    (secs : list CrossSection2d) (startImped startAdmit startVelocity startPressure : Mat)
    (startSection endSection : Z) :
  Forall (fun r => ia_branch (snd r) = Contraction
                   <-> area (sectionAt secs (snd (fst r)))
                       < area (sectionAt secs (fst (fst r))))
    (snd (propagateImpedAdmit (mkParams STRAIGHT_TUBES jl) w secs startImped startAdmit
            startSection endSection)) /\
  Forall (fun r => vp_branch (snd r) = Expansion
                   <-> area (sectionAt secs (fst (fst r)))
                       < area (sectionAt secs (snd (fst r))))
    (snd (propagateVelocityPress (mkParams STRAIGHT_TUBES jl) w secs startVelocity
            startPressure startSection endSection)).
Proof.
  split.
  - unfold propagateImpedAdmit. apply impedAdmitLoop_straight.
    apply setSection_geometry, propagateAdmitIn_geometry.
  - unfold propagateVelocityPress. cbn [snd].
    apply velocityPressLoop_straight. intro i; reflexivity.
Qed.

(** *** The setters of the ends of a section *)

(** [v[0] = z] and [v.back() = z], on a vector that is not empty. *)
Definition setFront (v : list Mat) (z : Mat) : list Mat :=
  match v with
  | [] => []
  | _ :: rest => z :: rest
  end.

Fixpoint setBack (v : list Mat) (z : Mat) : list Mat :=
  match v with
  | [] => []
  | a :: rest =>
    match rest with
    | [] => [z]
    | _ :: _ => a :: setBack rest z
    end
  end.

Definition withImpedance (sec : CrossSection2d) (impedance : list Mat) : CrossSection2d :=
  mkSection (area sec) (scaleIn sec) (scaleOut sec) (numberOfModes sec) (getMatrixF sec)
    impedance (m_admittance sec) (m_acPressure sec) (m_axialVelocity sec)
    (Zdir sec) (Ydir sec) (Qdir sec) (Pdir sec).

Definition withAdmittance (sec : CrossSection2d) (admittance : list Mat) : CrossSection2d :=
  mkSection (area sec) (scaleIn sec) (scaleOut sec) (numberOfModes sec) (getMatrixF sec)
    (m_impedance sec) admittance (m_acPressure sec) (m_axialVelocity sec)
    (Zdir sec) (Ydir sec) (Qdir sec) (Pdir sec).

(** [setZin], [setZout], [setYin] and [setYout]: the matrix is pushed on an
    empty vector, and otherwise written at one end of it. *)
Definition setZin (sec : CrossSection2d) (imped : Mat) : CrossSection2d :=
  match m_impedance sec with
  | [] => withImpedance sec [imped]
  | _ :: _ =>
    if (Zdir sec =? 1)%Z then withImpedance sec (setBack (m_impedance sec) imped)
    else withImpedance sec (setFront (m_impedance sec) imped)
  end.

Definition setZout (sec : CrossSection2d) (imped : Mat) : CrossSection2d :=
  match m_impedance sec with
  | [] => withImpedance sec [imped]
  | _ :: _ =>
    if (Zdir sec =? 1)%Z then withImpedance sec (setFront (m_impedance sec) imped)
    else withImpedance sec (setBack (m_impedance sec) imped)
  end.

Definition setYin (sec : CrossSection2d) (admittance : Mat) : CrossSection2d :=
  match m_admittance sec with
  | [] => withAdmittance sec [admittance]
  | _ :: _ =>
    if (Ydir sec =? 1)%Z then withAdmittance sec (setBack (m_admittance sec) admittance)
    else withAdmittance sec (setFront (m_admittance sec) admittance)
  end.

Definition setYout (sec : CrossSection2d) (admittance : Mat) : CrossSection2d :=
  match m_admittance sec with
  | [] => withAdmittance sec [admittance]
  | _ :: _ =>
    if (Ydir sec =? 1)%Z then withAdmittance sec (setFront (m_admittance sec) admittance)
    else withAdmittance sec (setBack (m_admittance sec) admittance)
  end.

Lemma back_setBack (v : list Mat) (z : Mat) : v <> [] -> back (setBack v z) = z.
Proof.
  unfold back. induction v as [|a [|b rest] IH]; intro H; [congruence | reflexivity |].
  change (setBack (a :: b :: rest) z) with (a :: setBack (b :: rest) z).
  assert (Hne : setBack (b :: rest) z <> []) by (destruct rest; discriminate).
  destruct (setBack (b :: rest) z) as [|c l] eqn:E; [congruence|].
  change (last (a :: c :: l) (Zero 0 0)) with (last (c :: l) (Zero 0 0)).
  apply IH. discriminate.
Qed.

Lemma front_setBack (v : list Mat) (z : Mat) :
  (2 <= length v)%nat -> front (setBack v z) = front v.
Proof.
  destruct v as [|a [|b rest]]; simpl; intro H; try lia. reflexivity.
Qed.

Lemma back_setFront (v : list Mat) (z : Mat) :
  (2 <= length v)%nat -> back (setFront v z) = back v.
Proof.
  destruct v as [|a [|b rest]]; simpl; intro H; try lia. reflexivity.
Qed.

Lemma length_setBack (v : list Mat) (z : Mat) : length (setBack v z) = length v.
Proof.
  induction v as [|a [|b rest] IH]; [reflexivity | reflexivity |].
  change (setBack (a :: b :: rest) z) with (a :: setBack (b :: rest) z).
  cbn [length] in *. rewrite IH. reflexivity.
Qed.

(** A matrix given to [setZin] is the one [Zout] then returns, and a
    matrix given to [setZout] the one [Zin] returns; in a section that
    holds two impedances or more, [Zin] after [setZin] and [Zout] after
    [setZout] return what they returned before.  The setters never change
    the number of matrices of a vector that is not empty.  The same holds
    of [setYin], [setYout], [Yin] and [Yout]. *)
Theorem setters_write_the_opposite_end (sec : CrossSection2d) (z : Mat) :
  (Zout (setZin sec z) = z /\ Zin (setZout sec z) = z /\
   Yout (setYin sec z) = z /\ Yin (setYout sec z) = z) /\
  ((2 <= length (m_impedance sec))%nat ->
     Zin (setZin sec z) = Zin sec /\ Zout (setZout sec z) = Zout sec) /\
  ((2 <= length (m_admittance sec))%nat ->
     Yin (setYin sec z) = Yin sec /\ Yout (setYout sec z) = Yout sec) /\
  (m_impedance sec <> [] ->
     length (m_impedance (setZin sec z)) = length (m_impedance sec) /\
     length (m_impedance (setZout sec z)) = length (m_impedance sec)) /\
  (m_admittance sec <> [] ->
     length (m_admittance (setYin sec z)) = length (m_admittance sec) /\
     length (m_admittance (setYout sec z)) = length (m_admittance sec)).
Proof.
  unfold Zin, Zout, Yin, Yout, setZin, setZout, setYin, setYout.
  repeat split.
  - destruct (m_impedance sec) as [|m rest] eqn:Ev; destruct (Zdir sec =? 1)%Z eqn:E;
      cbn [withImpedance m_impedance Zdir]; rewrite ?E; try reflexivity.
    apply back_setBack; discriminate.
  - destruct (m_impedance sec) as [|m rest] eqn:Ev; destruct (Zdir sec =? 1)%Z eqn:E;
      cbn [withImpedance m_impedance Zdir]; rewrite ?E; try reflexivity.
    apply back_setBack; discriminate.
  - destruct (m_admittance sec) as [|m rest] eqn:Ev; destruct (Ydir sec =? 1)%Z eqn:E;
      cbn [withAdmittance m_admittance Ydir]; rewrite ?E; try reflexivity.
    apply back_setBack; discriminate.
  - destruct (m_admittance sec) as [|m rest] eqn:Ev; destruct (Ydir sec =? 1)%Z eqn:E;
      cbn [withAdmittance m_admittance Ydir]; rewrite ?E; try reflexivity.
    apply back_setBack; discriminate.
  - destruct (m_impedance sec) as [|m rest] eqn:Ev; [cbn in H; lia|].
    destruct (Zdir sec =? 1)%Z eqn:E; cbn [withImpedance m_impedance Zdir]; rewrite E;
      [apply front_setBack; exact H | apply back_setFront; exact H].
  - destruct (m_impedance sec) as [|m rest] eqn:Ev; [cbn in H; lia|].
    destruct (Zdir sec =? 1)%Z eqn:E; cbn [withImpedance m_impedance Zdir]; rewrite E;
      [apply back_setFront; exact H | apply front_setBack; exact H].
  - destruct (m_admittance sec) as [|m rest] eqn:Ev; [cbn in H; lia|].
    destruct (Ydir sec =? 1)%Z eqn:E; cbn [withAdmittance m_admittance Ydir]; rewrite E;
      [apply front_setBack; exact H | apply back_setFront; exact H].
  - destruct (m_admittance sec) as [|m rest] eqn:Ev; [cbn in H; lia|].
    destruct (Ydir sec =? 1)%Z eqn:E; cbn [withAdmittance m_admittance Ydir]; rewrite E;
      [apply back_setFront; exact H | apply front_setBack; exact H].
  - destruct (m_impedance sec) as [|m rest] eqn:Ev; [congruence|].
    destruct (Zdir sec =? 1)%Z; cbn [m_impedance withImpedance];
      [apply length_setBack | reflexivity].
  - destruct (m_impedance sec) as [|m rest] eqn:Ev; [congruence|].
    destruct (Zdir sec =? 1)%Z; cbn [m_impedance withImpedance];
      [reflexivity | apply length_setBack].
  - destruct (m_admittance sec) as [|m rest] eqn:Ev; [congruence|].
    destruct (Ydir sec =? 1)%Z; cbn [m_admittance withAdmittance];
      [apply length_setBack | reflexivity].
  - destruct (m_admittance sec) as [|m rest] eqn:Ev; [congruence|].
    destruct (Ydir sec =? 1)%Z; cbn [m_admittance withAdmittance];
      [reflexivity | apply length_setBack].
Qed.

End JunctionUpdate.

(** *** A waveguide whose sections carry one mode each

    With one mode a matrix is a complex number; this instance runs the
    junction updates above. *)

Arguments mkSection {Mat}.
Arguments area {Mat}.
Arguments exitQuantity {Mat}.
Arguments entryQuantity {Mat}.
Arguments ia_branch {Mat}.

Definition oneModeSection (a s_in s_out : Q) : CrossSection2d complex :=
  mkSection a s_in s_out 1 [mkC 1 0] [mkC 1 0] [mkC 1 0] [] [] (-1) (-1) 1 1.

Definition oneModeImpedAdmit (simuParams : simulationParameters) (direction : Z)
    (sec_i sec_prev : CrossSection2d complex) : impedAdmitStep complex :=
  junctionImpedAdmit complex (fun _ => mkC 1 0) (fun _ _ => C0) Cmul Cadd Csub
    (fun z => z) Cinv (fun x z => Cscale z x) Cmul simuParams C0 direction sec_i sec_prev.

(** C1 as stated fails under the STRAIGHT_TUBES method: between an upstream
    section of area 1 and exit scale 2 and a downstream section of area 2 and
    entry scale 1, the backward pass enters the upstream section through the
    expansion arm (1 > 2 is false on the bare areas), although
    area * scale^2 is 4 upstream against 2 downstream. *)
Lemma straight_tubes_compare_bare_areas :
  ~ (ia_branch
       (oneModeImpedAdmit (mkParams STRAIGHT_TUBES false) (-1)
          (oneModeSection 1 1 2) (oneModeSection 2 1 1)) = Contraction
     <-> entryQuantity (oneModeSection 2 1 1) < exitQuantity (oneModeSection 1 1 2)).
Proof.
  intros [_ H].
  assert (Hlt : entryQuantity (oneModeSection 2 1 1) < exitQuantity (oneModeSection 1 1 2))
    by reflexivity.
  specialize (H Hlt). vm_compute in H. discriminate H.
Qed.

End Junction.

(** ** The source of the single-frequency solve

    [Acoustic3dSimulation::solveWaveProblem] (the four-argument overload),
    from "generate mode amplitude source matrices" to the forward pass: the
    input velocity and the input pressure handed to
    [propagateVelocityPress]. *)

Module WaveSource.
Import Cplx.

(** [Eigen::MatrixXcd]: a column of modal amplitudes, and a matrix by rows. *)
Definition vector : Type := list complex.
Definition matrix : Type := list (list complex).

(** [Eigen::MatrixXcd::Zero(mn, 1)] *)
Definition Zero (mn : nat) : vector := repeat C0 mn.

(** [v(0, 0) = z] *)
Definition setFirst (v : vector) (z : complex) : vector :=
  match v with
  | [] => []
  | _ :: rest => z :: rest
  end.

Fixpoint dot (row v : list complex) : complex :=
  match row, v with
  | a :: row', b :: v' => Cadd (Cmul a b) (dot row' v')
  | _, _ => C0
  end.

(** [M * v] *)
Definition mat_vec (M : matrix) (v : vector) : vector := map (fun row => dot row v) M.

(** What the solve reads of the first (glottis) section and of the
    simulation parameters. *)
Record CrossSection2d : Type := mkSection {
  numberOfModes : nat;
  scaleIn : Q;
  area : Q;
  Zin : matrix
}.

(** [-1i * 2. * M_PI * freq * m_simuParams.volumicMass
     * pow(m_crossSections[0]->scaleIn(), 3) * m_crossSections[0]->area()],
    a complex number multiplied by six doubles from left to right. *)
Definition sourceAmplitude (freq volumicMass : Q) (sec0 : CrossSection2d) : complex :=
  Cscale (Cscale (Cscale (Cscale (Cscale (Cscale (Copp Ci) 2) M_PI) freq) volumicMass)
            (scaleIn sec0 ^ 3)) (area sec0).

Definition inputVelocity (freq volumicMass : Q) (sec0 : CrossSection2d) : vector :=
  setFirst (Zero (numberOfModes sec0)) (sourceAmplitude freq volumicMass sec0).

Definition inputPressure (freq volumicMass : Q) (sec0 : CrossSection2d) : vector :=
  mat_vec (Zin sec0) (inputVelocity freq volumicMass sec0).

(** The amplitude the specification gives: [-i * 2 pi f rho scale_in^2 area]. *)
Definition specAmplitude (freq volumicMass : Q) (sec0 : CrossSection2d) : complex :=
  Cscale (Copp Ci) (2 * M_PI * freq * volumicMass * scaleIn sec0 ^ 2 * area sec0).

(** The amplitude with the cube of [scale_in]. *)
Definition cubeAmplitude (freq volumicMass : Q) (sec0 : CrossSection2d) : complex :=
  Cscale (Copp Ci) (2 * M_PI * freq * volumicMass * scaleIn sec0 ^ 3 * area sec0).

Lemma sourceAmplitude_cube (freq volumicMass : Q) (sec0 : CrossSection2d) :
  ceq (sourceAmplitude freq volumicMass sec0) (cubeAmplitude freq volumicMass sec0).
Proof.
  unfold sourceAmplitude, cubeAmplitude, ceq; simpl. split; ring.
Qed.

Lemma dot_zero (row : list complex) (k : nat) : ceq (dot row (repeat C0 k)) C0.
Proof.
  revert k. induction row as [|a row IH]; intros [|k]; simpl dot; try apply ceq_refl.
  apply ceq_trans with (Cadd C0 C0).
  - apply Cadd_ceq; [apply Cmul_C0_r | apply IH].
  - apply Cadd_C0_r.
Qed.

Lemma dot_first (a : complex) (row : list complex) (z : complex) (k : nat) :
  ceq (dot (a :: row) (z :: repeat C0 k)) (Cmul a z).
Proof.
  simpl dot. apply ceq_trans with (Cadd (Cmul a z) C0).
  - apply Cadd_ceq; [apply ceq_refl | apply dot_zero].
  - apply Cadd_C0_r.
Qed.

Lemma inputVelocity_shape (freq volumicMass : Q) (sec0 : CrossSection2d) :
  inputVelocity freq volumicMass sec0 =
  match numberOfModes sec0 with
  | O => []
  | S k => sourceAmplitude freq volumicMass sec0 :: repeat C0 k
  end.
Proof.
  unfold inputVelocity, Zero. destruct (numberOfModes sec0); reflexivity.
Qed.

(** C2 (as amended): the injected velocity vector has one entry per mode of
    the glottis section; its first entry is
    [-i * 2 pi f rho scale_in^3 area] (the cube of the entry scale factor,
    not its square) and all others are zero; the input pressure is [Z_in]
    times that vector, so that its entry [m] is [Z_in(m, 0)] times the
    first-mode velocity. *)
Theorem source_velocity_and_pressure (freq volumicMass : Q) (sec0 : CrossSection2d)
    (Hmodes : (0 < numberOfModes sec0)%nat) :
  length (inputVelocity freq volumicMass sec0) = numberOfModes sec0 /\
  ceq (nth 0 (inputVelocity freq volumicMass sec0) C0) (cubeAmplitude freq volumicMass sec0) /\
  (forall k : nat, nth (S k) (inputVelocity freq volumicMass sec0) C0 = C0) /\
  inputPressure freq volumicMass sec0
    = mat_vec (Zin sec0) (inputVelocity freq volumicMass sec0) /\
  (forall (m : nat) (row : list complex),
      nth_error (Zin sec0) m = Some row ->
      exists p : complex,
        nth_error (inputPressure freq volumicMass sec0) m = Some p /\
        ceq p (Cmul (nth 0 row C0) (cubeAmplitude freq volumicMass sec0))).
Proof.
  rewrite inputVelocity_shape. unfold inputPressure. rewrite inputVelocity_shape.
  destruct (numberOfModes sec0) as [|k] eqn:Hk; [lia|].
  repeat split.
  - simpl. rewrite repeat_length. reflexivity.
  - apply sourceAmplitude_cube.
  - intro j. simpl. clear. revert j. induction k as [|k IH]; intros [|j]; simpl; auto.
  - intros m row Hrow.
    exists (dot row (sourceAmplitude freq volumicMass sec0 :: repeat C0 k)). split.
    + unfold mat_vec. rewrite nth_error_map, Hrow. reflexivity.
    + destruct row as [|a row].
      * simpl. split; simpl; ring.
      * apply ceq_trans with (Cmul a (sourceAmplitude freq volumicMass sec0)).
        -- apply dot_first.
        -- simpl nth. destruct (sourceAmplitude_cube freq volumicMass sec0) as [Hr Hi].
           split; simpl; rewrite Hr, Hi; reflexivity.
Qed.

(** A one-mode glottis section of area 1 and entry scale 2, with
    [Z_in = (1)], driven at 1 Hz in a medium of unit density. *)
Definition unitSection : CrossSection2d := mkSection 1 2 1 [[mkC 1 0]].

Lemma source_velocity_and_pressure_witness :
  (0 < numberOfModes unitSection)%nat /\
  ceq (nth 0 (inputVelocity 1 1 unitSection) C0) (cubeAmplitude 1 1 unitSection).
Proof.
  split; [vm_compute; lia | ].
  exact (proj1 (proj2 (source_velocity_and_pressure 1 1 unitSection (Nat.lt_0_1)))).
Defined.

(** C2 as stated fails: for that section the first entry of the velocity
    vector is [-i * 16 M_PI], while the stated amplitude with the square of
    the scale factor is [-i * 8 M_PI]. *)
Lemma source_amplitude_is_not_square :
  ~ ceq (nth 0 (inputVelocity 1 1 unitSection) C0) (specAmplitude 1 1 unitSection).
Proof.
  intros [_ Him]. vm_compute in Him. discriminate Him.
Qed.

End WaveSource.

(** ** Mode selection of a FEM cross-section

    [CrossSection2dFEM::computeModes], from "solve eigen problem" to
    "extract modes matrix": which eigenpairs of the generalized eigenproblem
    are kept. *)

Module Modes.

Record simulationParameters : Type := mkParams {
  maxCutOnFreq : Q;
  sndSpeed : Q
}.

(** What the function leaves in the section, and the indices at which it
    read [eigenSolver.eigenvalues()], in order. *)
Record selection : Type := mkSelection {
  m_modesNumber : nat;
  m_eigenFreqs : list Q;
  m_modes : list (list Q);
  reads : list nat
}.

(** [eigenSolver.eigenvalues()[idx]], when [idx] is an index of the vector. *)
Definition eigenvalue_at (eigenvalues : list Q) (idx : nat) : option Q :=
  nth_error eigenvalues idx.

(** [v[0] = z]; on an empty vector the source writes outside of it, and
    the vector stays empty. *)
Definition setFirst (v : list Q) (z : Q) : list Q :=
  match v with
  | [] => []
  | _ :: rest => z :: rest
  end.

Section ComputeModes.

(** [sqrt] of <cmath> *)
Variable sqrt_d : Q -> Q.
(** What a read past the end of the eigenvalue vector finds there: Eigen's
    [operator[]] does not check its index in a release build. *)
Variable stray : Q.

Definition readEigenvalue (eigenvalues : list Q) (idx : nat) : Q :=
  match eigenvalue_at eigenvalues idx with
  | Some v => v
  | None => stray
  end.

(** [pow(2 * M_PI * simuParams.maxCutOnFreq / simuParams.sndSpeed, 2)] *)
Definition maxWaveNumber (simuParams : simulationParameters) : Q :=
  (2 * M_PI * maxCutOnFreq simuParams / sndSpeed simuParams) ^ 2.

(** [sqrt(lambda) * simuParams.sndSpeed / 2. / M_PI] *)
Definition eigenFrequency (simuParams : simulationParameters) (lambda : Q) : Q :=
  sqrt_d lambda * sndSpeed simuParams / 2 / M_PI.

(** The state of the scan: [idx], [m_eigenFreqs], and the reads so far. *)
Record scan : Type := mkScan {
  idx : nat;
  freqs : list Q;
  trace : list nat
}.

(** [while ((eigenSolver.eigenvalues()[idx] < maxWaveNumber)
           && (idx < eigenSolver.eigenvalues().size()))
      { m_eigenFreqs.push_back(...eigenvalues()[idx]...); idx++; }]:
    the left operand of [&&], the read, is evaluated first. *)
Fixpoint cutOnScan (fuel : nat) (simuParams : simulationParameters)
    (eigenvalues : list Q) (st : scan) : option scan :=
  match fuel with
  | O => None
  | S fuel' =>
    let lambda := readEigenvalue eigenvalues (idx st) in
    if Qltb lambda (maxWaveNumber simuParams) && (idx st <? length eigenvalues)%nat
    then
      cutOnScan fuel' simuParams eigenvalues
        (mkScan (S (idx st))
           (freqs st ++ [eigenFrequency simuParams (readEigenvalue eigenvalues (idx st))])
           (trace st ++ [idx st; idx st]))
    else Some (mkScan (idx st) (freqs st) (trace st ++ [idx st]))
  end.

(** [for (int i(0); i < m_modesNumber; i++)
      m_eigenFreqs.push_back(...eigenvalues()[i]...)] *)
Definition fixedCount (simuParams : simulationParameters) (eigenvalues : list Q)
    (m_modesNumber : nat) : scan :=
  mkScan m_modesNumber
    (map (fun i => eigenFrequency simuParams (readEigenvalue eigenvalues i))
       (seq 0 m_modesNumber))
    (seq 0 m_modesNumber).

(** [eigenSolver.eigenvectors().col(0)[0] > 0 ? 1. : -1.] *)
Definition signFirstMode (eigenvectors : list (list Q)) : Q :=
  if Qgtb (nth 0 (nth 0 eigenvectors []) 0) 0 then 1 else -1.

(** The selection of [computeModes]: [m_modesNumber] is the count asked
    for on entry (0: use the cut-on frequency), [eigenvalues] the
    eigenvalues of the solver, [eigenvectors] its eigenvectors by columns.
    [None] only if the scan ran out of fuel. *)
Definition computeModes (m_modesNumber : nat) (simuParams : simulationParameters)
    (eigenvalues : list Q) (eigenvectors : list (list Q)) : option selection :=
  let scanned :=
    if (m_modesNumber =? 0)%nat
    then cutOnScan (S (length eigenvalues)) simuParams eigenvalues (mkScan 0 [] [])
    else Some (fixedCount simuParams eigenvalues m_modesNumber) in
  match scanned with
  | None => None
  | Some st =>
    Some (mkSelection (idx st)
            (setFirst (freqs st) 0)
            (map (map (fun x => x * signFirstMode eigenvectors))
               (firstn (idx st) eigenvectors))
            (trace st))
  end.

(** *** The scan, by its result *)

(** The number of leading eigenvalues below the threshold. *)
Fixpoint leadingBelow (threshold : Q) (l : list Q) : nat :=
  match l with
  | [] => O
  | lambda :: l' => if Qltb lambda threshold then S (leadingBelow threshold l') else O
  end.

(** The reads of a scan that starts at [idx] and makes [k] turns: two per
    turn (test and body), and the one of the last test. *)
Fixpoint scanReads (i k : nat) : list nat :=
  match k with
  | O => [i]
  | S k' => i :: i :: scanReads (S i) k'
  end.

Lemma skipn_nth_error (A : Type) (l : list A) (i : nat) (v : A) :
  nth_error l i = Some v -> skipn i l = v :: skipn (S i) l.
Proof.
  revert i. induction l as [|a l IH]; intros [|i] H; simpl in *; try discriminate.
  - injection H as ->. reflexivity.
  - apply IH, H.
Qed.

Lemma cutOnScan_result (simuParams : simulationParameters) (eigenvalues : list Q) :
  forall (fuel : nat) (st : scan),
    (idx st <= length eigenvalues)%nat ->
    (length eigenvalues - idx st < fuel)%nat ->
    let k := leadingBelow (maxWaveNumber simuParams) (skipn (idx st) eigenvalues) in
    cutOnScan fuel simuParams eigenvalues st =
    Some (mkScan (idx st + k)
            (freqs st ++ map (eigenFrequency simuParams)
                           (firstn k (skipn (idx st) eigenvalues)))
            (trace st ++ scanReads (idx st) k)).
Proof.
  induction fuel as [|fuel IH]; intros st Hle Hfuel; [lia|].
  cbn [cutOnScan]. unfold readEigenvalue, eigenvalue_at.
  destruct (nth_error eigenvalues (idx st)) as [v|] eqn:Hv.
  - assert (Hlt : (idx st < length eigenvalues)%nat)
      by (apply nth_error_Some; congruence).
    rewrite (skipn_nth_error _ _ _ _ Hv). cbn [leadingBelow].
    replace (idx st <? length eigenvalues)%nat with true
      by (symmetry; apply Nat.ltb_lt; exact Hlt).
    rewrite andb_true_r.
    destruct (Qltb v (maxWaveNumber simuParams)).
    + rewrite IH; cbn [idx freqs trace]; [| lia | lia].
      f_equal. f_equal.
      * lia.
      * rewrite <- app_assoc. reflexivity.
      * rewrite <- app_assoc. reflexivity.
    + cbn [firstn map scanReads]. rewrite Nat.add_0_r, app_nil_r. reflexivity.
  - assert (Hge : (length eigenvalues <= idx st)%nat) by (apply nth_error_None; exact Hv).
    replace (idx st <? length eigenvalues)%nat with false
      by (symmetry; apply Nat.ltb_ge; exact Hge).
    rewrite andb_false_r.
    rewrite skipn_all2 by exact Hge.
    cbn [leadingBelow firstn map scanReads]. rewrite Nat.add_0_r, app_nil_r. reflexivity.
Qed.

(** On an ascending list, the leading eigenvalues below the threshold
    are all the eigenvalues below it. *)
Lemma leadingBelow_sorted (threshold : Q) (l : list Q) :
  Sorted Qle l ->
  firstn (leadingBelow threshold l) l = filter (fun lambda => Qltb lambda threshold) l.
Proof.
  intro Hs. apply Sorted_StronglySorted in Hs; [| intros x y z; apply Qle_trans].
  induction Hs as [|a l Hl IH Ha]; [reflexivity|].
  cbn [leadingBelow filter]. destruct (Qltb a threshold) eqn:Ea.
  - cbn [firstn]. rewrite IH. reflexivity.
  - cbn [firstn]. apply Qltb_le in Ea.
    symmetry. clear IH Hl. induction l as [|b l IHl]; [reflexivity|].
    inversion Ha as [|? ? Hab Hrest]; subst.
    cbn [filter]. replace (Qltb b threshold) with false.
    + apply IHl, Hrest.
    + symmetry. apply Qltb_le. apply Qle_trans with a; assumption.
Qed.

Lemma leadingBelow_le (threshold : Q) (l : list Q) :
  (leadingBelow threshold l <= length l)%nat.
Proof.
  induction l as [|a l IH]; simpl; [lia|]. destruct (Qltb a threshold); simpl; lia.
Qed.

Lemma leadingBelow_index (threshold : Q) (l : list Q) :
  Sorted Qle l ->
  forall i : nat, (i < length l)%nat ->
    ((i < leadingBelow threshold l)%nat <-> nth i l 0 < threshold).
Proof.
  intro Hs. apply Sorted_StronglySorted in Hs; [| intros x y z; apply Qle_trans].
  induction Hs as [|a l Hl IH Ha]; intros i Hi; [simpl in Hi; lia|].
  cbn [leadingBelow]. destruct (Qltb a threshold) eqn:Ea.
  - destruct i as [|i]; cbn [nth].
    + apply Qltb_lt in Ea. split; [intros _; exact Ea | lia].
    + simpl in Hi. rewrite <- (IH i) by lia. lia.
  - apply Qltb_le in Ea. split; [lia|]. intro Hlt. exfalso.
    destruct i as [|i]; cbn [nth] in Hlt; [lra|].
    rewrite Forall_forall in Ha.
    assert (a <= nth i l 0) by (apply Ha, nth_In; simpl in Hi; lia). lra.
Qed.

Lemma leadingBelow_all (threshold : Q) (l : list Q) :
  leadingBelow threshold l = length l <-> Forall (fun lambda => lambda < threshold) l.
Proof.
  induction l as [|a l IH]; cbn [leadingBelow length].
  - split; [constructor | reflexivity].
  - destruct (Qltb a threshold) eqn:Ea.
    + apply Qltb_lt in Ea. split.
      * intro H. constructor; [exact Ea | apply IH; lia].
      * intro H. inversion H; subst. f_equal. apply IH. assumption.
    + apply Qltb_le in Ea. split; [discriminate|].
      intro H. inversion H; subst. lra.
Qed.

Lemma scanReads_In (j k i : nat) : In j (scanReads i k) <-> (i <= j <= i + k)%nat.
Proof.
  revert i. induction k as [|k IH]; intro i; cbn [scanReads In].
  - split; [intros [H | []]; lia | intro; left; lia].
  - rewrite IH. lia.
Qed.

Lemma fixedCount_reads (eigenvalues : list Q) (n : nat) :
  (n <= length eigenvalues)%nat ->
  map (readEigenvalue eigenvalues) (seq 0 n) = firstn n eigenvalues.
Proof.
  revert n. induction eigenvalues as [|a l IH]; intros n Hn.
  - simpl in Hn. replace n with O by lia. reflexivity.
  - destruct n as [|n]; [reflexivity|].
    cbn [seq map firstn]. f_equal.
    rewrite <- seq_shift, map_map. apply IH. simpl in Hn. lia.
Qed.

(** C3: when the requested mode count is 0, the modes kept are exactly
    those whose eigenvalue is below [(2 pi maxCutOnFreq / c)^2], in the
    ascending order of the solver; when the requested count is [N > 0]
    (and the solver has that many eigenpairs), the first [N] eigenpairs
    are kept.  Whatever lies past the end of the eigenvalue vector does
    not change the selection. *)
Theorem computeModes_selection (simuParams : simulationParameters)
    (eigenvalues : list Q) (eigenvectors : list (list Q))
    (Hascending : Sorted Qle eigenvalues) :
  (exists sel : selection,
      computeModes 0 simuParams eigenvalues eigenvectors = Some sel /\
      (forall i : nat, (i < length eigenvalues)%nat ->
         ((i < m_modesNumber sel)%nat <-> nth i eigenvalues 0 < maxWaveNumber simuParams)) /\
      firstn (m_modesNumber sel) eigenvalues
        = filter (fun lambda => Qltb lambda (maxWaveNumber simuParams)) eigenvalues /\
      m_eigenFreqs sel
        = setFirst (map (eigenFrequency simuParams)
                      (firstn (m_modesNumber sel) eigenvalues)) 0 /\
      m_modes sel
        = map (map (fun x => x * signFirstMode eigenvectors))
            (firstn (m_modesNumber sel) eigenvectors)) /\
  (forall N : nat, (0 < N <= length eigenvalues)%nat ->
    exists sel : selection,
      computeModes N simuParams eigenvalues eigenvectors = Some sel /\
      m_modesNumber sel = N /\
      m_eigenFreqs sel = setFirst (map (eigenFrequency simuParams) (firstn N eigenvalues)) 0 /\
      m_modes sel
        = map (map (fun x => x * signFirstMode eigenvectors)) (firstn N eigenvectors)).
Proof.
  split.
  - unfold computeModes. cbn [Nat.eqb].
    rewrite cutOnScan_result by (cbn [idx]; lia).
    cbn [idx freqs trace skipn app Nat.add].
    eexists. split; [reflexivity|]. cbn [m_modesNumber m_eigenFreqs m_modes].
    repeat split.
    + apply leadingBelow_index; assumption.
    + apply leadingBelow_index; assumption.
    + apply leadingBelow_sorted; assumption.
  - intros N [Hpos Hle]. unfold computeModes.
    replace (N =? 0)%nat with false by (symmetry; apply Nat.eqb_neq; lia).
    eexists. split; [reflexivity|]. cbn [m_modesNumber m_eigenFreqs m_modes fixedCount idx freqs].
    repeat split.
    rewrite <- (fixedCount_reads eigenvalues N Hle), map_map. reflexivity.
Qed.

(** C8 (fails on the code): with a requested mode count of 0 the scan
    always terminates, and it reads the eigenvalue vector at the index
    [size], one past its last element, exactly when every eigenvalue is
    below the cut-on threshold: the loop condition reads
    [eigenvalues()[idx]] before it tests [idx < size]. *)
Theorem cutOnScan_reads_past_the_end (simuParams : simulationParameters)
    (eigenvalues : list Q) (eigenvectors : list (list Q)) :
  exists sel : selection,
    computeModes 0 simuParams eigenvalues eigenvectors = Some sel /\
    ((exists i : nat, In i (reads sel) /\ eigenvalue_at eigenvalues i = None)
     <-> Forall (fun lambda => lambda < maxWaveNumber simuParams) eigenvalues).
Proof.
  unfold computeModes. cbn [Nat.eqb].
  rewrite cutOnScan_result by (cbn [idx]; lia).
  cbn [idx freqs trace skipn app Nat.add].
  eexists. split; [reflexivity|]. cbn [reads].
  rewrite <- leadingBelow_all.
  pose proof (leadingBelow_le (maxWaveNumber simuParams) eigenvalues) as Hle.
  split.
  - intros [i [Hin Hnone]]. apply scanReads_In in Hin.
    apply nth_error_None in Hnone. lia.
  - intro Hall. exists (length eigenvalues). split.
    + apply scanReads_In. lia.
    + apply nth_error_None. lia.
Qed.

(** *** The scan on eigenvalues in any order, and the fixed count *)

Lemma leadingBelow_prefix (threshold : Q) (l : list Q) (i : nat) :
  (i < leadingBelow threshold l)%nat -> nth i l 0 < threshold.
Proof.
  revert i. induction l as [|a l IH]; intros i Hi; cbn [leadingBelow] in Hi; [lia|].
  destruct (Qltb a threshold) eqn:Ea; [|lia].
  destruct i as [|i]; cbn [nth]; [apply Qltb_lt, Ea | apply IH; lia].
Qed.

Lemma leadingBelow_stop (threshold : Q) (l : list Q) :
  (leadingBelow threshold l < length l)%nat ->
  threshold <= nth (leadingBelow threshold l) l 0.
Proof.
  induction l as [|a l IH]; cbn [leadingBelow length]; intro H; [lia|].
  destruct (Qltb a threshold) eqn:Ea; cbn [nth].
  - apply IH. lia.
  - apply Qltb_le, Ea.
Qed.

Lemma nth_setFirst_later (v : list Q) (z : Q) (i : nat) :
  (0 < i)%nat -> nth i (setFirst v z) 0 = nth i v 0.
Proof. destruct v as [|a v]; destruct i; simpl; intro H; try lia; reflexivity. Qed.

Lemma length_setFirst (v : list Q) (z : Q) : length (setFirst v z) = length v.
Proof. destruct v; reflexivity. Qed.

Lemma nth_setFirst_first (v : list Q) (z d : Q) :
  (0 < length v)%nat -> nth 0 (setFirst v z) d = z.
Proof. destruct v as [|a v]; simpl; intro H; [lia | reflexivity]. Qed.

Lemma readEigenvalue_in_range (eigenvalues : list Q) (i : nat) :
  (i < length eigenvalues)%nat -> readEigenvalue eigenvalues i = nth i eigenvalues 0.
Proof.
  intro Hi. unfold readEigenvalue, eigenvalue_at.
  destruct (nth_error eigenvalues i) as [v|] eqn:E.
  - symmetry. apply nth_error_nth, E.
  - apply nth_error_None in E. lia.
Qed.

Lemma nth_map_firstn (g : Q -> Q) (l : list Q) (k i : nat) :
  (i < k)%nat -> (k <= length l)%nat ->
  nth i (map g (firstn k l)) 0 = g (nth i l 0).
Proof.
  revert k i. induction l as [|a l IH]; intros [|k] [|i] Hi Hk; simpl in *; try lia.
  - reflexivity.
  - apply IH; lia.
Qed.

(** With a requested count of 0 and eigenvalues in any order, the modes
    kept are the leading eigenvalues below the threshold: the scan stops at
    the first eigenvalue that is not below it, whatever follows.  There
    are never more modes than eigenvalues, and there are as many
    eigenfrequencies as modes. *)
Theorem cutOnScan_keeps_the_leading_run (simuParams : simulationParameters)
    (eigenvalues : list Q) (eigenvectors : list (list Q)) :
  exists sel : selection,
    computeModes 0 simuParams eigenvalues eigenvectors = Some sel /\
    (m_modesNumber sel <= length eigenvalues)%nat /\
    (forall i : nat, (i < m_modesNumber sel)%nat ->
       nth i eigenvalues 0 < maxWaveNumber simuParams) /\
    ((m_modesNumber sel < length eigenvalues)%nat ->
       maxWaveNumber simuParams <= nth (m_modesNumber sel) eigenvalues 0) /\
    length (m_eigenFreqs sel) = m_modesNumber sel /\
    length (m_modes sel) = Nat.min (m_modesNumber sel) (length eigenvectors).
Proof.
  unfold computeModes. cbn [Nat.eqb].
  rewrite cutOnScan_result by (cbn [idx]; lia).
  cbn [idx freqs trace skipn app Nat.add].
  eexists. split; [reflexivity|]. cbn [m_modesNumber m_eigenFreqs m_modes].
  pose proof (leadingBelow_le (maxWaveNumber simuParams) eigenvalues) as Hle.
  split; [exact Hle|]. split; [apply leadingBelow_prefix|].
  split; [apply leadingBelow_stop|]. split.
  - rewrite length_setFirst, length_map, length_firstn. lia.
  - rewrite length_map, length_firstn. reflexivity.
Qed.

(** With a requested count of [n + 1], the loop reads the eigenvalues of
    indices 0 to [n]; these reads stay inside the eigenvalue vector exactly
    when the solver returned at least [n + 1] eigenvalues: the count is not
    checked against the size of the problem. *)
Theorem fixedCount_reads_in_range (n : nat) (simuParams : simulationParameters)
    (eigenvalues : list Q) (eigenvectors : list (list Q)) :
  exists sel : selection,
    computeModes (S n) simuParams eigenvalues eigenvectors = Some sel /\
    m_modesNumber sel = S n /\
    reads sel = seq 0 (S n) /\
    ((forall i : nat, In i (reads sel) -> eigenvalue_at eigenvalues i <> None)
     <-> (S n <= length eigenvalues)%nat).
Proof.
  unfold computeModes. cbn [Nat.eqb].
  eexists. split; [reflexivity|].
  cbn [m_modesNumber reads fixedCount idx trace].
  split; [reflexivity|]. split; [reflexivity|]. split.
  - intro H. specialize (H n). unfold eigenvalue_at in H.
    destruct (Nat.le_gt_cases (S n) (length eigenvalues)) as [Hle | Hgt]; [exact Hle|].
    exfalso. apply H; [apply in_seq; lia | apply nth_error_None; lia].
  - intros Hle i Hi. apply in_seq in Hi. unfold eigenvalue_at.
    intro E. apply nth_error_None in E. lia.
Qed.

(** Whatever the requested count, when at least one mode is kept the
    first eigenfrequency is 0, whatever the first eigenvalue is, and the
    eigenfrequency of every other kept mode is [sqrt(lambda) c / (2 pi)]
    for its eigenvalue [lambda] (for a count that exceeds the number of
    eigenvalues, what the read past the end returned). *)
Theorem first_eigenfrequency_is_zero (n : nat) (simuParams : simulationParameters)
    (eigenvalues : list Q) (eigenvectors : list (list Q)) :
  exists sel : selection,
    computeModes n simuParams eigenvalues eigenvectors = Some sel /\
    ((0 < m_modesNumber sel)%nat -> nth 0 (m_eigenFreqs sel) 1 = 0) /\
    (forall i : nat, (0 < i < m_modesNumber sel)%nat ->
       nth i (m_eigenFreqs sel) 0
       = eigenFrequency simuParams (readEigenvalue eigenvalues i)).
Proof.
  unfold computeModes. destruct n as [|n]; cbn [Nat.eqb].
  - rewrite cutOnScan_result by (cbn [idx]; lia).
    cbn [idx freqs trace skipn app Nat.add].
    eexists. split; [reflexivity|]. cbn [m_modesNumber m_eigenFreqs].
    pose proof (leadingBelow_le (maxWaveNumber simuParams) eigenvalues) as Hle.
    split.
    + intro Hpos. apply nth_setFirst_first. rewrite length_map, length_firstn. lia.
    + intros i Hi. rewrite nth_setFirst_later by lia.
      rewrite nth_map_firstn by lia. rewrite readEigenvalue_in_range by lia. reflexivity.
  - eexists. split; [reflexivity|]. cbn [m_modesNumber m_eigenFreqs fixedCount idx freqs].
    split.
    + intros _. apply nth_setFirst_first. rewrite length_map, length_seq. lia.
    + intros i Hi. rewrite nth_setFirst_later by lia.
      rewrite (nth_indep _ 0 (eigenFrequency simuParams (readEigenvalue eigenvalues 0)))
        by (rewrite length_map, length_seq; lia).
      rewrite (map_nth (fun j => eigenFrequency simuParams (readEigenvalue eigenvalues j))).
      rewrite seq_nth by lia. reflexivity.
Qed.

End ComputeModes.

(** A mesh with two eigenpairs, eigenvalues 0 and 1, and a cut-on threshold
    of [(2 M_PI)^2]: about 39.5 (maxCutOnFreq = sndSpeed = 1). *)
Definition twoModes : list Q := [0; 1].
Definition twoVectors : list (list Q) := [[1; 1]; [1; -1]].
Definition wideBand : simulationParameters := mkParams 1 1.

Lemma computeModes_selection_witness :
  Sorted Qle twoModes /\
  exists sel : selection,
    computeModes (fun x => x) 0 0 wideBand twoModes twoVectors = Some sel /\
    firstn (m_modesNumber sel) twoModes
      = filter (fun lambda => Qltb lambda (maxWaveNumber wideBand)) twoModes.
Proof.
  assert (Hs : Sorted Qle twoModes).
  { unfold twoModes. repeat constructor. unfold Qle; simpl; lia. }
  split; [exact Hs|].
  destruct (proj1 (computeModes_selection (fun x => x) 0 wideBand twoModes twoVectors Hs))
    as [sel [H1 [_ [H3 _]]]].
  exists sel. split; assumption.
Defined.

(** The run that reads past the end: both eigenvalues are below the
    threshold, both modes are kept, and the fifth read is at index 2 of a
    vector of size 2. *)
Lemma computeModes_twoModes_reads :
  option_map reads (computeModes (fun x => x) 0 0 wideBand twoModes twoVectors)
    = Some [0; 0; 1; 1; 2]%nat /\
  eigenvalue_at twoModes 2 = None.
Proof. split; reflexivity. Qed.

End Modes.

(** ** Cubic splines of the radiation impedance

    [preComputeRadiationMatrices], [initCoefInterpRadiationMatrices],
    [addRadMatToInterpolate], [computeInterpCoefRadMat] and
    [interpolateRadiationImpedance] of [Acoustic3dSimulation]. *)

Module RadSpline.
Import Cplx.

(** [Eigen::MatrixXcd], by its coefficient accessor. *)
Definition cmatrix : Type := nat -> nat -> complex.

(** [m_radiationMatrixInterp[k][m][n]], a [vector<double>] for each of the
    16 coefficient kinds [k] and each matrix entry:
    kinds 0-3 hold a (Re Z, Im Z, Re Y, Im Y), 4-7 b, 8-11 c, 12-15 d. *)
Definition coefficients : Type := nat -> nat -> nat -> list Q.

Record radiationInterp : Type := mkInterp {
  m_radiationFreqs : list Q;
  m_radiationMatrixInterp : coefficients
}.

(** [v[i]] for a signed index *)
Definition at_ (v : list Q) (i : Z) : Q :=
  if (i <? 0)%Z then 0 else nth (Z.to_nat i) v 0.

(** [A(i, j) = x] and [R(i) = x] on Eigen objects indexed by [int] *)
Definition setA (A : Z -> Z -> Q) (i j : Z) (x : Q) : Z -> Z -> Q :=
  fun i' j' => if ((i' =? i) && (j' =? j))%Z then x else A i' j'.
Definition setR (R : Z -> Q) (i : Z) (x : Q) : Z -> Q :=
  fun i' => if (i' =? i)%Z then x else R i'.

Section Radiation.

(** The audio sampling rate, a constant of the synthesizer's headers. *)
Variable SAMPLING_RATE : Q.
(** [radiationImpedance(radImped, freq, 15., idxRadSec)]: the direct
    computation of the radiation impedance matrix at a frequency. *)
Variable radiationImpedance : Q -> cmatrix.
(** [radImped.inverse()] *)
Variable inverse : cmatrix -> cmatrix.
(** [A.householderQr().solve(R)] for a square [A] of the given size *)
Variable householderQrSolve : nat -> (Z -> Z -> Q) -> (Z -> Q) -> list Q.
(** the number of modes of the radiating section *)
Variable mn : nat.

Definition initCoefInterpRadiationMatrices : radiationInterp :=
  mkInterp [] (fun _ _ _ => []).

(** [(double)SAMPLING_RATE / 2. / (double)(nbRadFreqs - 1)] *)
Definition radFreqSteps (nbRadFreqs : nat) : Q :=
  SAMPLING_RATE / 2 / inject_Z (Z.of_nat nbRadFreqs - 1).

(** [max(500., (double)idxRadFreq * radFreqSteps)] *)
Definition radFreq (nbRadFreqs idxRadFreq : nat) : Q :=
  Qmax 500 (inject_Z (Z.of_nat idxRadFreq) * radFreqSteps nbRadFreqs).

Definition addRadMatToInterpolate (nbRadFreqs idxRadFreq : nat)
    (st : radiationInterp) : radiationInterp :=
  let freq := radFreq nbRadFreqs idxRadFreq in
  let radImped := radiationImpedance freq in
  let radAdmit := inverse radImped in
  mkInterp (m_radiationFreqs st ++ [freq])
    (fun k m n =>
       let old := m_radiationMatrixInterp st k m n in
       if ((m <? mn) && (n <? mn))%nat then
         match k with
         | 0%nat => old ++ [re (radImped m n)]
         | 1%nat => old ++ [im (radImped m n)]
         | 2%nat => old ++ [re (radAdmit m n)]
         | 3%nat => old ++ [im (radAdmit m n)]
         | _ => old
         end
       else old).

(** [stepRadFreqs] *)
Definition stepRadFreqs (nbRadFreqs : nat) (freqs : list Q) : list Q :=
  map (fun i => nth (S i) freqs 0 - nth i freqs 0) (seq 0 (nbRadFreqs - 1)).

(** The tridiagonal system [A * c = R] of one coefficient vector [a], as
    the three blocks of assignments build it. *)
Definition splineRow (h a : list Q) (f : Z) (AR : (Z -> Z -> Q) * (Z -> Q))
    : (Z -> Z -> Q) * (Z -> Q) :=
  let A := fst AR in
  let R := snd AR in
  let A := setA A f (f - 1) (at_ h f) in
  let A := setA A f f (2 * (at_ h f + at_ h (f + 1))) in
  let A := setA A f (f + 1) (at_ h (f + 1)) in
  (A, setR R f (3 * (at_ a (f + 2) - at_ a (f + 1)) / at_ h (f + 1)
                - 3 * (at_ a (f + 1) - at_ a f) / at_ h f)).

Definition splineSystem (nbRadFreqs : nat) (h a : list Q) : (Z -> Z -> Q) * (Z -> Q) :=
  let nb := Z.of_nat nbRadFreqs in
  let A := fun _ _ => 0 in
  let R := fun _ => 0 in
  let A := setA A 0 0 (2 * (at_ h 0 + at_ h 1)) in
  let A := setA A 0 1 (at_ h 1) in
  let R := setR R 0 (3 * (at_ a 2 - at_ a 1) / at_ h 1 - 3 * (at_ a 1 - at_ a 0) / at_ h 0) in
  let AR := fold_left (fun AR f => splineRow h a (Z.of_nat f) AR)
              (seq 1 (nbRadFreqs - 4)) (A, R) in
  let A := fst AR in
  let R := snd AR in
  let A := setA A (nb - 3) (nb - 4) (at_ h (nb - 3)) in
  let A := setA A (nb - 3) (nb - 3) (2 * (at_ h (nb - 3) + at_ h (nb - 2))) in
  let R := setR R (nb - 3)
             (3 * (at_ a (nb - 1) - at_ a (nb - 2)) / at_ h (nb - 2)
              - 3 * (at_ a (nb - 2) - at_ a (nb - 3)) / at_ h (nb - 3)) in
  (A, R).

(** [c]: a zero, the solution, a zero (the natural boundary conditions). *)
Definition cCoef (nbRadFreqs : nat) (h a : list Q) : list Q :=
  let AR := splineSystem nbRadFreqs h a in
  0 :: householderQrSolve (nbRadFreqs - 2) (fst AR) (snd AR) ++ [0].

Definition bCoef (nbRadFreqs : nat) (h a c : list Q) : list Q :=
  map (fun f => (nth (S f) a 0 - nth f a 0) / nth f h 0
                - nth f h 0 * (nth (S f) c 0 + 2 * nth f c 0) / 3)
      (seq 0 (nbRadFreqs - 1)).

Definition dCoef (nbRadFreqs : nat) (h c : list Q) : list Q :=
  map (fun f => (nth (S f) c 0 - nth f c 0) / 3 / nth f h 0) (seq 0 (nbRadFreqs - 1)).

(** The coefficient vectors of kind [m + 4] (b), [m + 8] (c) and
    [m + 12] (d) are pushed after those of kind [m] (a), for [m < 4]. *)
Definition computeInterpCoefRadMat (nbRadFreqs : nat) (st : radiationInterp)
    : radiationInterp :=
  let h := stepRadFreqs nbRadFreqs (m_radiationFreqs st) in
  let store := m_radiationMatrixInterp st in
  mkInterp (m_radiationFreqs st)
    (fun k i j =>
       let old := store k i j in
       if ((i <? mn) && (j <? mn))%nat then
         if ((4 <=? k) && (k <? 8))%nat then
           let a := store (k - 4)%nat i j in
           old ++ bCoef nbRadFreqs h a (store (k + 4)%nat i j ++ cCoef nbRadFreqs h a)
         else if ((8 <=? k) && (k <? 12))%nat then
           old ++ cCoef nbRadFreqs h (store (k - 8)%nat i j)
         else if ((12 <=? k) && (k <? 16))%nat then
           let a := store (k - 12)%nat i j in
           old ++ dCoef nbRadFreqs h (store (k - 4)%nat i j ++ cCoef nbRadFreqs h a)
         else old
       else old).

Definition preComputeRadiationMatrices (nbRadFreqs : nat) : radiationInterp :=
  computeInterpCoefRadMat nbRadFreqs
    (fold_left (fun st i => addRadMatToInterpolate nbRadFreqs i st)
       (seq 0 nbRadFreqs) initCoefInterpRadiationMatrices).

(** [while ((m_radiationFreqs[idx] > freq) && (idx > 0)) { idx--; }] *)
Fixpoint findInterval (fuel : nat) (freqs : list Q) (freq : Q) (idx : Z) : option Z :=
  match fuel with
  | O => None
  | S fuel' =>
    if Qgtb (at_ freqs idx) freq && (idx >? 0)%Z
    then findInterval fuel' freqs freq (idx - 1)%Z
    else Some idx
  end.

(** One part (real or imaginary) of an interpolated entry. *)
Definition cubic (a b c d : list Q) (idx : Z) (delta : Q) : Q :=
  at_ a idx + at_ b idx * delta + at_ c idx * delta ^ 2 + at_ d idx * delta ^ 3.

(** [interpolateRadiationImpedance]: the entry [(m, n)] of [imped]
    ([None] only if the search ran out of fuel). *)
Definition interpolateRadiationImpedance (st : radiationInterp) (freq : Q)
    : option cmatrix :=
  let store := m_radiationMatrixInterp st in
  let nbRadFreqs := Z.of_nat (length (store 0 0 0)%nat) in
  match findInterval (S (Z.to_nat nbRadFreqs)) (m_radiationFreqs st) freq (nbRadFreqs - 2)%Z with
  | None => None
  | Some idx0 =>
    let idx := Z.max 0 idx0 in
    let delta := freq - at_ (m_radiationFreqs st) idx in
    Some (fun m n =>
            if ((m <? mn) && (n <? mn))%nat then
              mkC (cubic (store 0 m n) (store 4 m n) (store 8 m n) (store 12 m n) idx delta)
                  (cubic (store 1 m n) (store 5 m n) (store 9 m n) (store 13 m n) idx delta)
            else C0)%nat
  end.

(** *** Reading the vectors *)

Lemma at_of_nat (v : list Q) (i : nat) : at_ v (Z.of_nat i) = nth i v 0.
Proof.
  unfold at_. replace (Z.of_nat i <? 0)%Z with false by (symmetry; apply Z.ltb_ge; lia).
  rewrite Nat2Z.id. reflexivity.
Qed.

Lemma nth_map_seq (g : nat -> Q) (n i : nat) :
  (i < n)%nat -> nth i (map g (seq 0 n)) 0 = g i.
Proof.
  intro Hi. rewrite (nth_indep _ 0 (g O)) by (rewrite length_map, length_seq; exact Hi).
  rewrite map_nth, seq_nth by exact Hi. reflexivity.
Qed.

(** *** The sampled frequencies and the stored samples *)

Definition addAll (nbRadFreqs start len : nat) (st : radiationInterp) : radiationInterp :=
  fold_left (fun st i => addRadMatToInterpolate nbRadFreqs i st) (seq start len) st.

Lemma addAll_freqs (nbRadFreqs : nat) :
  forall (len start : nat) (st : radiationInterp),
    m_radiationFreqs (addAll nbRadFreqs start len st)
    = m_radiationFreqs st ++ map (radFreq nbRadFreqs) (seq start len).
Proof.
  unfold addAll. induction len as [|len IH]; intros start st; cbn [seq fold_left map].
  - rewrite app_nil_r. reflexivity.
  - rewrite IH. cbn [addRadMatToInterpolate m_radiationFreqs].
    rewrite <- app_assoc. reflexivity.
Qed.

(** The part of the impedance a coefficient kind samples. *)
Definition sampled (k : nat) (Z Y : complex) : Q :=
  match k with
  | 0%nat => re Z
  | 1%nat => im Z
  | 2%nat => re Y
  | _ => im Y
  end.

Definition sampleAt (nbRadFreqs k m n i : nat) : Q :=
  let radImped := radiationImpedance (radFreq nbRadFreqs i) in
  sampled k (radImped m n) (inverse radImped m n).

Lemma addAll_store (nbRadFreqs m n : nat) :
  (m < mn)%nat -> (n < mn)%nat ->
  forall (len start : nat) (st : radiationInterp) (k : nat),
    m_radiationMatrixInterp (addAll nbRadFreqs start len st) k m n
    = if (k <? 4)%nat
      then m_radiationMatrixInterp st k m n
           ++ map (sampleAt nbRadFreqs k m n) (seq start len)
      else m_radiationMatrixInterp st k m n.
Proof.
  intros Hm Hn. unfold addAll.
  induction len as [|len IH]; intros start st k; cbn [seq fold_left map].
  - rewrite app_nil_r. destruct (k <? 4)%nat; reflexivity.
  - rewrite IH. cbn [addRadMatToInterpolate m_radiationMatrixInterp].
    replace (m <? mn)%nat with true by (symmetry; apply Nat.ltb_lt; exact Hm).
    replace (n <? mn)%nat with true by (symmetry; apply Nat.ltb_lt; exact Hn).
    cbn [andb].
    destruct k as [|[|[|[|k]]]]; cbn [Nat.ltb Nat.leb]; try reflexivity;
      rewrite <- app_assoc; reflexivity.
Qed.

(** *** One spline, at its nodes *)

Definition increasing (freqs : list Q) : Prop :=
  forall i j : nat, (i < j < length freqs)%nat -> nth i freqs 0 < nth j freqs 0.

Lemma findInterval_node (freqs : list Q) (k : nat) :
  increasing freqs ->
  forall (fuel j : nat),
    (k <= j < length freqs)%nat -> (j - k < fuel)%nat ->
    findInterval fuel freqs (nth k freqs 0) (Z.of_nat j) = Some (Z.of_nat k).
Proof.
  intros Hinc. induction fuel as [|fuel IH]; intros j Hj Hfuel; [lia|].
  cbn [findInterval]. rewrite at_of_nat.
  destruct (Nat.eq_dec j k) as [-> | Hne].
  - replace (Qgtb (nth k freqs 0) (nth k freqs 0)) with false
      by (symmetry; apply Qgtb_le; apply Qle_refl).
    reflexivity.
  - replace (Qgtb (nth j freqs 0) (nth k freqs 0)) with true
      by (symmetry; apply Qgtb_lt; apply Hinc; lia).
    replace (Z.of_nat j >? 0)%Z with true by (symmetry; apply Z.gtb_lt; lia).
    cbn [andb]. replace (Z.of_nat j - 1)%Z with (Z.of_nat (j - 1)) by lia.
    apply IH; lia.
Qed.

Lemma findInterval_last (freqs : list Q) (nb : nat) :
  increasing freqs -> length freqs = nb -> (2 <= nb)%nat ->
  forall fuel : nat, (0 < fuel)%nat ->
    findInterval fuel freqs (nth (nb - 1) freqs 0) (Z.of_nat (nb - 2))
    = Some (Z.of_nat (nb - 2)).
Proof.
  intros Hinc Hlen Hnb [|fuel] Hfuel; [lia|].
  cbn [findInterval]. rewrite at_of_nat.
  replace (Qgtb (nth (nb - 2) freqs 0) (nth (nb - 1) freqs 0)) with false; [reflexivity|].
  symmetry. apply Qgtb_le, Qlt_le_weak, Hinc. lia.
Qed.

(** At the left node of its interval a cubic is its constant term. *)
Lemma cubic_left_node (a b c d : list Q) (k : nat) (x : Q) :
  cubic a b c d (Z.of_nat k) (x - x) == nth k a 0.
Proof.
  unfold cubic. rewrite !at_of_nat. ring.
Qed.

(** At the right end of the last interval the coefficients [b] and [d]
    computed from [a] and [c] bring the cubic to the last sample,
    whatever [c] is. *)
Lemma cubic_right_node (nb : nat) (freqs a c : list Q) :
  (2 <= nb)%nat ->
  ~ nth (nb - 1) freqs 0 - nth (nb - 2) freqs 0 == 0 ->
  let h := stepRadFreqs nb freqs in
  cubic a (bCoef nb h a c) c (dCoef nb h c) (Z.of_nat (nb - 2))
    (nth (nb - 1) freqs 0 - nth (nb - 2) freqs 0)
  == nth (nb - 1) a 0.
Proof.
  intros Hnb Hstep h. unfold cubic. rewrite !at_of_nat.
  unfold bCoef, dCoef. rewrite !nth_map_seq by lia.
  assert (Hh : nth (nb - 2) h 0 = nth (nb - 1) freqs 0 - nth (nb - 2) freqs 0).
  { subst h. unfold stepRadFreqs. rewrite nth_map_seq by lia.
    replace (S (nb - 2)) with (nb - 1)%nat by lia. reflexivity. }
  rewrite Hh. replace (S (nb - 2)) with (nb - 1)%nat by lia.
  field. exact Hstep.
Qed.

(** *** The precomputed table *)

Lemma radFreq_increasing (nb i j : nat) :
  500 < radFreqSteps nb -> (i < j)%nat -> radFreq nb i < radFreq nb j.
Proof.
  intros Hstep Hij. unfold radFreq.
  set (step := radFreqSteps nb) in *.
  assert (Hpos : 0 < step) by lra.
  assert (Hinj : inject_Z (Z.of_nat i) < inject_Z (Z.of_nat j))
    by (rewrite <- Zlt_Qlt; lia).
  assert (Hone : 1 <= inject_Z (Z.of_nat j))
    by (change 1 with (inject_Z 1); rewrite <- Zle_Qle; lia).
  assert (H1 : inject_Z (Z.of_nat i) * step < inject_Z (Z.of_nat j) * step)
    by (apply Qmult_lt_compat_r; assumption).
  assert (H2 : 1 * step <= inject_Z (Z.of_nat j) * step)
    by (apply Qmult_le_compat_r; [assumption | apply Qlt_le_weak; assumption]).
  apply Qlt_le_trans with (inject_Z (Z.of_nat j) * step).
  - apply Q.max_lub_lt; [lra | exact H1].
  - apply Q.le_max_r.
Qed.

Lemma preCompute_freqs (nb : nat) :
  m_radiationFreqs (preComputeRadiationMatrices nb) = map (radFreq nb) (seq 0 nb).
Proof.
  unfold preComputeRadiationMatrices. cbn [computeInterpCoefRadMat m_radiationFreqs].
  exact (addAll_freqs nb nb 0 initCoefInterpRadiationMatrices).
Qed.

Lemma preCompute_increasing (nb : nat) :
  500 < radFreqSteps nb ->
  increasing (m_radiationFreqs (preComputeRadiationMatrices nb)).
Proof.
  intros Hstep i j Hij. rewrite preCompute_freqs in *.
  rewrite length_map, length_seq in Hij.
  rewrite !nth_map_seq by lia. apply radFreq_increasing; [exact Hstep | lia].
Qed.

(** The samples of kind [k] of an entry, and the three coefficient
    vectors computed from them. *)
Definition samples (nb k m n : nat) : list Q := map (sampleAt nb k m n) (seq 0 nb).

Lemma preCompute_store (nb k m n : nat) :
  (k < 4)%nat -> (m < mn)%nat -> (n < mn)%nat ->
  let pre := preComputeRadiationMatrices nb in
  let h := stepRadFreqs nb (m_radiationFreqs pre) in
  let a := samples nb k m n in
  let c := cCoef nb h a in
  m_radiationMatrixInterp pre k m n = a /\
  m_radiationMatrixInterp pre (k + 4)%nat m n = bCoef nb h a c /\
  m_radiationMatrixInterp pre (k + 8)%nat m n = c /\
  m_radiationMatrixInterp pre (k + 12)%nat m n = dCoef nb h c.
Proof.
  intros Hk Hm Hn pre h a c. subst pre h a c.
  rewrite preCompute_freqs.
  unfold preComputeRadiationMatrices.
  cbn [computeInterpCoefRadMat m_radiationMatrixInterp m_radiationFreqs].
  replace (m <? mn)%nat with true by (symmetry; apply Nat.ltb_lt; exact Hm).
  replace (n <? mn)%nat with true by (symmetry; apply Nat.ltb_lt; exact Hn).
  cbn [andb].
  change (fold_left (fun st i => addRadMatToInterpolate nb i st) (seq 0 nb)
            initCoefInterpRadiationMatrices)
    with (addAll nb 0 nb initCoefInterpRadiationMatrices).
  rewrite (addAll_freqs nb nb 0 initCoefInterpRadiationMatrices).
  cbn [initCoefInterpRadiationMatrices m_radiationFreqs app].
  rewrite !(addAll_store nb m n Hm Hn nb 0 initCoefInterpRadiationMatrices).
  cbn [initCoefInterpRadiationMatrices m_radiationMatrixInterp app].
  destruct k as [|[|[|[|k]]]]; [| | | | lia]; cbn; repeat split; reflexivity.
Qed.

(** The tolerance of the specification, 1e-12. *)
Definition tolerance : Q := 1 # 1000000000000.

Lemma within_tolerance (x y : Q) : x == y -> Qabs (x - y) <= tolerance.
Proof.
  intro H. assert (H0 : x - y == 0) by (rewrite H; ring).
  rewrite (Qabs_wd _ _ H0). discriminate.
Qed.

(** C4: for every sample frequency of the precomputation, the spline
    interpolant of the radiation impedance evaluated at that frequency is
    the directly computed impedance matrix, which is also what the table
    stores for that frequency: every entry agrees exactly, hence within
    1e-12.  The coefficient vector [c] is whatever the solver returns;
    [b] and [d] are computed from it.  The sample frequencies are
    distinct as soon as the frequency step exceeds 500 Hz. *)
Theorem radiation_spline_at_samples (nb k m n : nat)
    (Hnb : (2 <= nb)%nat) (Hstep : 500 < radFreqSteps nb)
    (Hk : (k < nb)%nat) (Hm : (m < mn)%nat) (Hn : (n < mn)%nat) :
  let pre := preComputeRadiationMatrices nb in
  let freq := nth k (m_radiationFreqs pre) 0 in
  let direct := radiationImpedance freq m n in
  freq = radFreq nb k /\
  nth k (m_radiationMatrixInterp pre 0%nat m n) 0 = re direct /\
  nth k (m_radiationMatrixInterp pre 1%nat m n) 0 = im direct /\
  exists imped : cmatrix,
    interpolateRadiationImpedance pre freq = Some imped /\
    ceq (imped m n) direct /\
    Qabs (re (imped m n) - re direct) <= tolerance /\
    Qabs (im (imped m n) - im direct) <= tolerance.
Proof.
  intros pre freq direct.
  assert (Hfreq : freq = radFreq nb k).
  { subst freq pre. rewrite preCompute_freqs. apply nth_map_seq. exact Hk. }
  assert (Hmn : (0 < mn)%nat) by lia.
  destruct (preCompute_store nb 0%nat m n ltac:(lia) Hm Hn) as [Ha0 [Hb0 [Hc0 Hd0]]].
  destruct (preCompute_store nb 1%nat m n ltac:(lia) Hm Hn) as [Ha1 [Hb1 [Hc1 Hd1]]].
  destruct (preCompute_store nb 0%nat 0%nat 0%nat ltac:(lia) Hmn Hmn) as [Ha00 _].
  cbn [Nat.add] in *. fold pre in Ha0, Hb0, Hc0, Hd0, Ha1, Hb1, Hc1, Hd1, Ha00.
  assert (Hre : nth k (samples nb 0%nat m n) 0 = re direct).
  { unfold samples. rewrite nth_map_seq by exact Hk.
    subst direct. rewrite Hfreq. reflexivity. }
  assert (Him : nth k (samples nb 1%nat m n) 0 = im direct).
  { unfold samples. rewrite nth_map_seq by exact Hk.
    subst direct. rewrite Hfreq. reflexivity. }
  split; [exact Hfreq|]. split; [rewrite Ha0; exact Hre|]. split; [rewrite Ha1; exact Him|].
  pose proof (preCompute_increasing nb Hstep) as Hinc. fold pre in Hinc.
  assert (Hlen : length (m_radiationFreqs pre) = nb).
  { subst pre. rewrite preCompute_freqs, length_map, length_seq. reflexivity. }
  assert (Hlen0 : length (m_radiationMatrixInterp pre 0%nat 0%nat 0%nat) = nb).
  { rewrite Ha00. unfold samples. rewrite length_map, length_seq. reflexivity. }
  unfold interpolateRadiationImpedance. rewrite Hlen0, Nat2Z.id.
  replace (Z.of_nat nb - 2)%Z with (Z.of_nat (nb - 2)) by lia.
  assert (Hcase : (k <= nb - 2)%nat \/ k = (nb - 1)%nat) by lia.
  assert (Hentry : forall idx : nat,
             cubic (samples nb 0%nat m n) (m_radiationMatrixInterp pre 4%nat m n)
               (m_radiationMatrixInterp pre 8%nat m n) (m_radiationMatrixInterp pre 12%nat m n)
               (Z.of_nat idx) (freq - nth idx (m_radiationFreqs pre) 0) == re direct ->
             cubic (samples nb 1%nat m n) (m_radiationMatrixInterp pre 5%nat m n)
               (m_radiationMatrixInterp pre 9%nat m n) (m_radiationMatrixInterp pre 13%nat m n)
               (Z.of_nat idx) (freq - nth idx (m_radiationFreqs pre) 0) == im direct ->
             findInterval (S nb) (m_radiationFreqs pre) freq (Z.of_nat (nb - 2))
               = Some (Z.of_nat idx) ->
             exists imped : cmatrix,
               match findInterval (S nb) (m_radiationFreqs pre) freq (Z.of_nat (nb - 2)) with
               | Some idx0 =>
                 Some (fun m0 n0 : nat =>
                   if ((m0 <? mn) && (n0 <? mn))%nat
                   then mkC
                     (cubic (m_radiationMatrixInterp pre 0%nat m0 n0)
                        (m_radiationMatrixInterp pre 4%nat m0 n0)
                        (m_radiationMatrixInterp pre 8%nat m0 n0)
                        (m_radiationMatrixInterp pre 12%nat m0 n0) (Z.max 0 idx0)
                        (freq - at_ (m_radiationFreqs pre) (Z.max 0 idx0)))
                     (cubic (m_radiationMatrixInterp pre 1%nat m0 n0)
                        (m_radiationMatrixInterp pre 5%nat m0 n0)
                        (m_radiationMatrixInterp pre 9%nat m0 n0)
                        (m_radiationMatrixInterp pre 13%nat m0 n0) (Z.max 0 idx0)
                        (freq - at_ (m_radiationFreqs pre) (Z.max 0 idx0)))
                   else C0)
               | None => None
               end = Some imped /\
               ceq (imped m n) direct /\
               Qabs (re (imped m n) - re direct) <= tolerance /\
               Qabs (im (imped m n) - im direct) <= tolerance).
  { intros idx Hr Hi Hfind. rewrite Hfind. eexists. split; [reflexivity|].
    cbn beta.
    replace (m <? mn)%nat with true by (symmetry; apply Nat.ltb_lt; exact Hm).
    replace (n <? mn)%nat with true by (symmetry; apply Nat.ltb_lt; exact Hn).
    cbn [andb re im].
    replace (Z.max 0 (Z.of_nat idx)) with (Z.of_nat idx) by lia.
    rewrite at_of_nat, Ha0, Ha1.
    split; [split; assumption|].
    split; apply within_tolerance; assumption. }
  destruct Hcase as [Hle | Hlast].
  - apply (Hentry k).
    + rewrite <- Hre. apply cubic_left_node.
    + rewrite <- Him. apply cubic_left_node.
    + apply findInterval_node; [exact Hinc | lia | lia].
  - assert (Hne : ~ nth (nb - 1) (m_radiationFreqs pre) 0
                    - nth (nb - 2) (m_radiationFreqs pre) 0 == 0).
    { assert (nth (nb - 2) (m_radiationFreqs pre) 0 < nth (nb - 1) (m_radiationFreqs pre) 0)
        by (apply Hinc; lia).
      lra. }
    assert (Hf : freq = nth (nb - 1) (m_radiationFreqs pre) 0)
      by (subst freq; rewrite Hlast; reflexivity).
    apply (Hentry (nb - 2)%nat).
    + rewrite Hb0, Hc0, Hd0, Hf, <- Hre, Hlast. apply cubic_right_node; assumption.
    + rewrite Hb1, Hc1, Hd1, Hf, <- Him, Hlast. apply cubic_right_node; assumption.
    + rewrite Hf. apply findInterval_last; [exact Hinc | exact Hlen | exact Hnb | lia].
Qed.

(** *** The admittance, the search of the interval, the joins of the pieces *)

(** [interpolateRadiationAdmittance]: as for the impedance, on the
    coefficient kinds 2, 6, 10, 14 (real part) and 3, 7, 11, 15. *)
Definition interpolateRadiationAdmittance (st : radiationInterp) (freq : Q)
    : option cmatrix :=
  let store := m_radiationMatrixInterp st in
  let nbRadFreqs := Z.of_nat (length (store 0 0 0)%nat) in
  match findInterval (S (Z.to_nat nbRadFreqs)) (m_radiationFreqs st) freq (nbRadFreqs - 2)%Z with
  | None => None
  | Some idx0 =>
    let idx := Z.max 0 idx0 in
    let delta := freq - at_ (m_radiationFreqs st) idx in
    Some (fun m n =>
            if ((m <? mn) && (n <? mn))%nat then
              mkC (cubic (store 2 m n) (store 6 m n) (store 10 m n) (store 14 m n) idx delta)
                  (cubic (store 3 m n) (store 7 m n) (store 11 m n) (store 15 m n) idx delta)
            else C0)%nat
  end.

(** The cubic of kind [k] (0 to 3) of an entry on the interval [idx],
    evaluated at [freq]. *)
Definition piece (st : radiationInterp) (k m n idx : nat) (freq : Q) : Q :=
  let store := m_radiationMatrixInterp st in
  cubic (store k m n) (store (k + 4)%nat m n) (store (k + 8)%nat m n)
    (store (k + 12)%nat m n) (Z.of_nat idx) (freq - nth idx (m_radiationFreqs st) 0).

Lemma findInterval_bracket (freqs : list Q) (freq : Q) :
  forall (fuel j : nat), (j < fuel)%nat ->
    exists idx : nat,
      findInterval fuel freqs freq (Z.of_nat j) = Some (Z.of_nat idx) /\
      (idx <= j)%nat /\
      (idx = 0%nat \/ nth idx freqs 0 <= freq) /\
      (forall i : nat, (idx < i <= j)%nat -> freq < nth i freqs 0).
Proof.
  induction fuel as [|fuel IH]; intros j Hj; [lia|].
  cbn [findInterval]. rewrite at_of_nat.
  destruct (Qgtb (nth j freqs 0) freq) eqn:Eg; cbn [andb].
  - apply Qgtb_lt in Eg. destruct j as [|j].
    + exists 0%nat. cbn. repeat split; auto. intros i Hi. lia.
    + replace (Z.of_nat (S j) >? 0)%Z with true by (symmetry; apply Z.gtb_lt; lia).
      replace (Z.of_nat (S j) - 1)%Z with (Z.of_nat j) by lia.
      destruct (IH j ltac:(lia)) as [idx [Hf [Hle [Hlo Hhi]]]].
      exists idx. split; [exact Hf|]. split; [lia|]. split; [exact Hlo|].
      intros i Hi. destruct (Nat.eq_dec i (S j)) as [-> | Hne]; [exact Eg | apply Hhi; lia].
  - apply Qgtb_le in Eg. exists j. repeat split; auto. intros i Hi. lia.
Qed.

(** At the right end of any interval the coefficients [b] and [d] computed
    from [a] and [c] bring the cubic to the next sample, whatever [c] is. *)
Lemma cubic_next_node (nb s : nat) (freqs a c : list Q) :
  (S s < nb)%nat ->
  ~ nth (S s) freqs 0 - nth s freqs 0 == 0 ->
  let h := stepRadFreqs nb freqs in
  cubic a (bCoef nb h a c) c (dCoef nb h c) (Z.of_nat s)
    (nth (S s) freqs 0 - nth s freqs 0)
  == nth (S s) a 0.
Proof.
  intros Hs Hstep h. unfold cubic. rewrite !at_of_nat.
  unfold bCoef, dCoef. rewrite !nth_map_seq by lia.
  assert (Hh : nth s h 0 = nth (S s) freqs 0 - nth s freqs 0).
  { subst h. unfold stepRadFreqs. rewrite nth_map_seq by lia. reflexivity. }
  rewrite Hh. field. exact Hstep.
Qed.

Lemma piece_left_node (nb k m n s : nat) :
  (k < 4)%nat -> (m < mn)%nat -> (n < mn)%nat ->
  let pre := preComputeRadiationMatrices nb in
  piece pre k m n s (nth s (m_radiationFreqs pre) 0) == nth s (samples nb k m n) 0.
Proof.
  intros Hk Hm Hn pre. unfold piece.
  destruct (preCompute_store nb k m n Hk Hm Hn) as [Ha _]. fold pre in Ha.
  rewrite Ha. apply cubic_left_node.
Qed.

Lemma piece_right_node (nb k m n s : nat) :
  500 < radFreqSteps nb ->
  (k < 4)%nat -> (m < mn)%nat -> (n < mn)%nat -> (S s < nb)%nat ->
  let pre := preComputeRadiationMatrices nb in
  piece pre k m n s (nth (S s) (m_radiationFreqs pre) 0) == nth (S s) (samples nb k m n) 0.
Proof.
  intros Hstep Hk Hm Hn Hs pre. unfold piece.
  destruct (preCompute_store nb k m n Hk Hm Hn) as [Ha [Hb [Hc Hd]]].
  fold pre in Ha, Hb, Hc, Hd. rewrite Ha, Hb, Hc, Hd.
  apply cubic_next_node; [exact Hs|].
  pose proof (preCompute_increasing nb Hstep) as Hinc. fold pre in Hinc.
  assert (Hlen : length (m_radiationFreqs pre) = nb).
  { subst pre. rewrite preCompute_freqs, length_map, length_seq. reflexivity. }
  assert (nth s (m_radiationFreqs pre) 0 < nth (S s) (m_radiationFreqs pre) 0)
    by (apply Hinc; lia).
  lra.
Qed.

(** The interval found for a sample frequency, and the value of every
    piece there. *)
Lemma sample_piece (nb s : nat) :
  (2 <= nb)%nat -> 500 < radFreqSteps nb -> (s < nb)%nat ->
  let pre := preComputeRadiationMatrices nb in
  let freq := nth s (m_radiationFreqs pre) 0 in
  exists idx : nat,
    findInterval (S nb) (m_radiationFreqs pre) freq (Z.of_nat (nb - 2))
    = Some (Z.of_nat idx) /\
    forall k m n : nat, (k < 4)%nat -> (m < mn)%nat -> (n < mn)%nat ->
      piece pre k m n idx freq == nth s (samples nb k m n) 0.
Proof.
  intros Hnb Hstep Hs pre freq.
  pose proof (preCompute_increasing nb Hstep) as Hinc. fold pre in Hinc.
  assert (Hlen : length (m_radiationFreqs pre) = nb).
  { subst pre. rewrite preCompute_freqs, length_map, length_seq. reflexivity. }
  assert (Hcase : (s <= nb - 2)%nat \/ s = (nb - 1)%nat) by lia.
  destruct Hcase as [Hle | Hlast].
  - exists s. split.
    + apply findInterval_node; [exact Hinc | lia | lia].
    + intros k m n Hk Hm Hn. apply piece_left_node; assumption.
  - exists (nb - 2)%nat. split.
    + subst freq. rewrite Hlast.
      apply findInterval_last; [exact Hinc | exact Hlen | exact Hnb | lia].
    + intros k m n Hk Hm Hn. subst freq. rewrite Hlast.
      replace (nb - 1)%nat with (S (nb - 2)) by lia.
      apply piece_right_node; try assumption. lia.
Qed.

(** Both interpolants at a sample frequency. *)
Lemma interpolants_at_sample (nb s m n : nat) :
  (2 <= nb)%nat -> 500 < radFreqSteps nb ->
  (s < nb)%nat -> (m < mn)%nat -> (n < mn)%nat ->
  let pre := preComputeRadiationMatrices nb in
  let freq := nth s (m_radiationFreqs pre) 0 in
  let direct := radiationImpedance freq in
  exists imped admittance : cmatrix,
    interpolateRadiationImpedance pre freq = Some imped /\
    interpolateRadiationAdmittance pre freq = Some admittance /\
    ceq (imped m n) (direct m n) /\
    ceq (admittance m n) (inverse direct m n).
Proof.
  intros Hnb Hstep Hs Hm Hn pre freq direct.
  assert (Hfreq : freq = radFreq nb s).
  { subst freq pre. rewrite preCompute_freqs. apply nth_map_seq. exact Hs. }
  assert (Hmn : (0 < mn)%nat) by lia.
  destruct (preCompute_store nb 0%nat 0%nat 0%nat ltac:(lia) Hmn Hmn) as [Ha00 _].
  fold pre in Ha00.
  assert (Hlen0 : length (m_radiationMatrixInterp pre 0%nat 0%nat 0%nat) = nb).
  { rewrite Ha00. unfold samples. rewrite length_map, length_seq. reflexivity. }
  destruct (sample_piece nb s Hnb Hstep Hs) as [idx [Hfind Hpiece]].
  fold pre in Hfind, Hpiece. fold freq in Hfind, Hpiece.
  unfold interpolateRadiationImpedance, interpolateRadiationAdmittance.
  rewrite Hlen0, Nat2Z.id.
  replace (Z.of_nat nb - 2)%Z with (Z.of_nat (nb - 2)) by lia.
  rewrite Hfind. eexists. eexists. split; [reflexivity|]. split; [reflexivity|].
  cbn beta.
  replace (m <? mn)%nat with true by (symmetry; apply Nat.ltb_lt; exact Hm).
  replace (n <? mn)%nat with true by (symmetry; apply Nat.ltb_lt; exact Hn).
  cbn [andb].
  replace (Z.max 0 (Z.of_nat idx)) with (Z.of_nat idx) by lia.
  rewrite at_of_nat.
  assert (Hk : forall k : nat, (k < 4)%nat ->
            piece pre k m n idx freq
            == sampled k (direct m n) (inverse direct m n)).
  { intros k Hk. rewrite (Hpiece k m n Hk Hm Hn).
    unfold samples. rewrite nth_map_seq by exact Hs.
    unfold sampleAt. rewrite <- Hfreq. reflexivity. }
  pose proof (Hk 0%nat ltac:(lia)) as H0. pose proof (Hk 1%nat ltac:(lia)) as H1.
  pose proof (Hk 2%nat ltac:(lia)) as H2. pose proof (Hk 3%nat ltac:(lia)) as H3.
  unfold piece in H0, H1, H2, H3. cbn [Nat.add sampled] in H0, H1, H2, H3.
  split; split; cbn [re im]; assumption.
Qed.

(** For every sample frequency of the precomputation, the spline
    interpolant of the radiation admittance evaluated at that frequency is
    the inverse of the directly computed impedance matrix, entry by entry
    (the inverse that [addRadMatToInterpolate] stored), hence within
    1e-12. *)
Theorem radiation_admittance_at_samples (nb s m n : nat)
    (Hnb : (2 <= nb)%nat) (Hstep : 500 < radFreqSteps nb)
    (Hs : (s < nb)%nat) (Hm : (m < mn)%nat) (Hn : (n < mn)%nat) :
  let pre := preComputeRadiationMatrices nb in
  let freq := nth s (m_radiationFreqs pre) 0 in
  let direct := inverse (radiationImpedance freq) m n in
  exists admittance : cmatrix,
    interpolateRadiationAdmittance pre freq = Some admittance /\
    ceq (admittance m n) direct /\
    Qabs (re (admittance m n) - re direct) <= tolerance /\
    Qabs (im (admittance m n) - im direct) <= tolerance.
Proof.
  intros pre freq direct.
  destruct (interpolants_at_sample nb s m n Hnb Hstep Hs Hm Hn)
    as [imped [admittance [_ [Ha [_ Hc]]]]].
  exists admittance. split; [exact Ha|]. split; [exact Hc|].
  destruct Hc as [Hr Hi]. split; apply within_tolerance; assumption.
Qed.

(** For a table of at least two sample frequencies and any frequency, the
    search ends on an interval [idx] of the table: the last one whose left
    end is not above the frequency, or the first interval when the
    frequency lies below every sample (the first piece is then
    extrapolated, as the last piece is above the last sample); the
    impedance returned is the cubic of that interval, entry by entry. *)
Theorem interpolation_uses_the_bracketing_piece (st : radiationInterp) (freq : Q) (nb : nat)
    (Hlen : length (m_radiationMatrixInterp st 0%nat 0%nat 0%nat) = nb)
    (Hnb : (2 <= nb)%nat) :
  exists idx : nat,
    (idx <= nb - 2)%nat /\
    (idx = 0%nat \/ nth idx (m_radiationFreqs st) 0 <= freq) /\
    (forall i : nat, (idx < i <= nb - 2)%nat -> freq < nth i (m_radiationFreqs st) 0) /\
    exists imped : cmatrix,
      interpolateRadiationImpedance st freq = Some imped /\
      forall m n : nat, (m < mn)%nat -> (n < mn)%nat ->
        imped m n = mkC (piece st 0 m n idx freq) (piece st 1 m n idx freq).
Proof.
  destruct (findInterval_bracket (m_radiationFreqs st) freq (S nb) (nb - 2) ltac:(lia))
    as [idx [Hfind [Hle [Hlo Hhi]]]].
  exists idx. split; [exact Hle|]. split; [exact Hlo|]. split; [exact Hhi|].
  unfold interpolateRadiationImpedance. rewrite Hlen, Nat2Z.id.
  replace (Z.of_nat nb - 2)%Z with (Z.of_nat (nb - 2)) by lia.
  rewrite Hfind. eexists. split; [reflexivity|].
  intros m n Hm Hn. cbn beta.
  replace (m <? mn)%nat with true by (symmetry; apply Nat.ltb_lt; exact Hm).
  replace (n <? mn)%nat with true by (symmetry; apply Nat.ltb_lt; exact Hn).
  cbn [andb]. replace (Z.max 0 (Z.of_nat idx)) with (Z.of_nat idx) by lia.
  rewrite at_of_nat. reflexivity.
Qed.

(** The interpolant has no jump at a sample frequency inside the table:
    the piece that ends there and the piece that starts there both give
    the stored sample, for each of the four kinds (real and imaginary part
    of the impedance and of the admittance) and each entry, whatever the
    solver returned for [c]. *)
Theorem spline_pieces_join (nb k m n s : nat)
    (Hstep : 500 < radFreqSteps nb)
    (Hk : (k < 4)%nat) (Hm : (m < mn)%nat) (Hn : (n < mn)%nat)
    (Hs : (S (S s) < nb)%nat) :
  let pre := preComputeRadiationMatrices nb in
  let knot := nth (S s) (m_radiationFreqs pre) 0 in
  piece pre k m n s knot == piece pre k m n (S s) knot /\
  piece pre k m n (S s) knot == nth (S s) (m_radiationMatrixInterp pre k m n) 0.
Proof.
  intros pre knot.
  destruct (preCompute_store nb k m n Hk Hm Hn) as [Ha _]. fold pre in Ha.
  split.
  - apply Qeq_trans with (nth (S s) (samples nb k m n) 0).
    + apply piece_right_node; try assumption. lia.
    + apply Qeq_sym. apply piece_left_node; assumption.
  - rewrite Ha. apply piece_left_node; assumption.
Qed.

(** The sample frequencies of the precomputation: there are [nbRadFreqs]
    of them, the first is 500 Hz, the last is the larger of 500 Hz and
    half the sampling rate, and the first two are distinct exactly when
    the frequency step exceeds 500 Hz (otherwise the first interval of the
    spline has length 0). *)
Theorem radiation_frequency_grid (nb : nat) :
  let freqs := m_radiationFreqs (preComputeRadiationMatrices nb) in
  length freqs = nb /\
  ((1 <= nb)%nat -> nth 0 freqs 0 == 500) /\
  ((2 <= nb)%nat -> nth (nb - 1) freqs 0 == Qmax 500 (SAMPLING_RATE / 2)) /\
  ((2 <= nb)%nat ->
     (500 < radFreqSteps nb <-> nth 0 freqs 0 < nth 1 freqs 0) /\
     (radFreqSteps nb <= 500 -> nth 0 (stepRadFreqs nb freqs) 0 == 0)).
Proof.
  intro freqs. subst freqs. rewrite preCompute_freqs.
  assert (H0 : forall step : Q, Qmax 500 (inject_Z (Z.of_nat 0) * step) == 500).
  { intro step. apply Q.max_l. cbn [Z.of_nat]. setoid_replace (inject_Z 0 * step) with 0 by ring.
    discriminate. }
  assert (H1 : forall step : Q, Qmax 500 (inject_Z (Z.of_nat 1) * step) == Qmax 500 step).
  { intro step. cbn [Z.of_nat Pos.of_succ_nat].
    setoid_replace (inject_Z 1 * step) with step by ring. reflexivity. }
  split; [rewrite length_map, length_seq; reflexivity|].
  split; [|split].
  - intro Hnb. rewrite nth_map_seq by lia. unfold radFreq. apply H0.
  - intro Hnb. rewrite nth_map_seq by lia. unfold radFreq, radFreqSteps.
    assert (Hne : ~ inject_Z (Z.of_nat nb - 1) == 0).
    { change 0 with (inject_Z 0). rewrite inject_Z_injective. lia. }
    replace (Z.of_nat (nb - 1)) with (Z.of_nat nb - 1)%Z by lia.
    setoid_replace (inject_Z (Z.of_nat nb - 1)
                    * (SAMPLING_RATE / 2 / inject_Z (Z.of_nat nb - 1)))
      with (SAMPLING_RATE / 2) by (field; exact Hne).
    reflexivity.
  - intro Hnb.
    assert (E0 : nth 0 (map (radFreq nb) (seq 0 nb)) 0 == 500)
      by (rewrite nth_map_seq by lia; unfold radFreq; apply H0).
    assert (E1 : nth 1 (map (radFreq nb) (seq 0 nb)) 0 == Qmax 500 (radFreqSteps nb))
      by (rewrite nth_map_seq by lia; unfold radFreq; apply H1).
    split.
    + rewrite E0, E1. split.
      * intro H. apply Qlt_le_trans with (radFreqSteps nb); [exact H | apply Q.le_max_r].
      * intro H. destruct (Qlt_le_dec 500 (radFreqSteps nb)) as [Hlt | Hge]; [exact Hlt|].
        exfalso. rewrite (Q.max_l 500 (radFreqSteps nb) Hge) in H. lra.
    + intro Hle. unfold stepRadFreqs. rewrite nth_map_seq by lia.
      rewrite E0, E1, (Q.max_l 500 (radFreqSteps nb) Hle). ring.
Qed.

End Radiation.

(** *** A radiating section with one mode

    Sixteen sample frequencies (the count every caller passes) at a
    sampling rate of 44100 Hz: the step is 1470 Hz. *)

Definition sampleImpedance : Q -> cmatrix := fun freq _ _ => mkC freq (freq + 1).
Definition entrywiseInverse : cmatrix -> cmatrix := fun M m n => Cinv (M m n).
Definition zeroSolve : nat -> (Z -> Z -> Q) -> (Z -> Q) -> list Q := fun n _ _ => repeat 0 n.

Lemma radiation_spline_at_samples_witness :
  500 < radFreqSteps 44100 16 /\
  exists imped : cmatrix,
    interpolateRadiationImpedance 1
      (preComputeRadiationMatrices 44100 sampleImpedance entrywiseInverse zeroSolve 1 16)
      (radFreq 44100 16 15) = Some imped /\
    ceq (imped 0 0)%nat (sampleImpedance (radFreq 44100 16 15) 0 0)%nat.
Proof.
  assert (Hstep : 500 < radFreqSteps 44100 16) by reflexivity.
  split; [exact Hstep|].
  destruct (radiation_spline_at_samples 44100 sampleImpedance entrywiseInverse zeroSolve 1
              16 15 0 0 ltac:(lia) Hstep ltac:(lia) ltac:(lia) ltac:(lia))
    as [Hfreq [_ [_ [imped [Hi [Hc _]]]]]].
  rewrite Hfreq in Hi, Hc. exists imped. split; assumption.
Defined.


(** *** The two ways to a radiation impedance *)

Section RadiationPaths.

Variable SAMPLING_RATE : Q.
(** [radiationImpedance(imped, freq, gridDensity, idxRadSec)] *)
Variable radiationImpedance : Q -> Q -> cmatrix.
Variable inverse : cmatrix -> cmatrix.
Variable householderQrSolve : nat -> (Z -> Z -> Q) -> (Z -> Q) -> list Q.
Variable mn : nat.

(** The table of [preComputeRadiationMatrices], which computes its samples
    with a grid density of 15. *)
Definition precomputedTable (nbRadFreqs : nat) : radiationInterp :=
  preComputeRadiationMatrices SAMPLING_RATE (fun freq => radiationImpedance freq 15)
    inverse householderQrSolve mn nbRadFreqs.

(** [getRadiationImpedanceAdmittance]: [imped] and [admit], from the table
    when [m_simuParams.radImpedPrecomputed] is set, and computed with the
    grid density of the parameters otherwise. *)
Definition getRadiationImpedanceAdmittance (radImpedPrecomputed : bool)
    (radImpedGridDensity : Q) (st : radiationInterp) (freq : Q)
    : option (cmatrix * cmatrix) :=
  if radImpedPrecomputed then
    match interpolateRadiationImpedance mn st freq,
          interpolateRadiationAdmittance mn st freq with
    | Some imped, Some admittance => Some (imped, admittance)
    | _, _ => None
    end
  else
    let imped := radiationImpedance freq radImpedGridDensity in
    Some (imped, inverse imped).

(** At a sample frequency of the precomputation the two paths agree, entry
    by entry, when the grid density of the parameters is the 15 of the
    precomputation: the table gives the impedance and the admittance that
    the direct computation gives. *)
Theorem precomputed_path_agrees_at_samples (nb s m n : nat)
    (Hnb : (2 <= nb)%nat) (Hstep : 500 < radFreqSteps SAMPLING_RATE nb)
    (Hs : (s < nb)%nat) (Hm : (m < mn)%nat) (Hn : (n < mn)%nat) :
  let freq := nth s (m_radiationFreqs (precomputedTable nb)) 0 in
  exists table direct : cmatrix * cmatrix,
    getRadiationImpedanceAdmittance true 15 (precomputedTable nb) freq = Some table /\
    getRadiationImpedanceAdmittance false 15 (precomputedTable nb) freq = Some direct /\
    ceq (fst table m n) (fst direct m n) /\
    ceq (snd table m n) (snd direct m n).
Proof.
  intro freq.
  destruct (interpolants_at_sample SAMPLING_RATE (fun f => radiationImpedance f 15)
              inverse householderQrSolve mn nb s m n Hnb Hstep Hs Hm Hn)
    as [imped [admittance [Hi [Ha [Hci Hca]]]]].
  fold (precomputedTable nb) in Hi, Ha. fold freq in Hi, Ha, Hci, Hca.
  unfold getRadiationImpedanceAdmittance. rewrite Hi, Ha.
  eexists. eexists. split; [reflexivity|]. split; [reflexivity|].
  cbn [fst snd]. split; assumption.
Qed.

End RadiationPaths.

Lemma radiation_admittance_at_samples_witness :
  500 < radFreqSteps 44100 16 /\
  exists admittance : cmatrix,
    interpolateRadiationAdmittance 1
      (preComputeRadiationMatrices 44100 sampleImpedance entrywiseInverse zeroSolve 1 16)
      (nth 15 (m_radiationFreqs
                 (preComputeRadiationMatrices 44100 sampleImpedance entrywiseInverse
                    zeroSolve 1 16)) 0) = Some admittance.
Proof.
  assert (Hstep : 500 < radFreqSteps 44100 16) by reflexivity.
  split; [exact Hstep|].
  destruct (radiation_admittance_at_samples 44100 sampleImpedance entrywiseInverse zeroSolve 1
              16 15 0 0 ltac:(lia) Hstep ltac:(lia) ltac:(lia) ltac:(lia))
    as [admittance [Ha _]].
  exists admittance. exact Ha.
Defined.

Lemma interpolation_uses_the_bracketing_piece_witness :
  exists idx : nat,
    (idx <= 16 - 2)%nat /\
    (idx = 0%nat \/
     nth idx (m_radiationFreqs
                (preComputeRadiationMatrices 44100 sampleImpedance entrywiseInverse
                   zeroSolve 1 16)) 0 <= 2000).
Proof.
  destruct (interpolation_uses_the_bracketing_piece 1
              (preComputeRadiationMatrices 44100 sampleImpedance entrywiseInverse zeroSolve 1 16)
              2000 16 eq_refl ltac:(lia))
    as [idx [Hle [Hlo _]]].
  exists idx. split; assumption.
Defined.

Lemma spline_pieces_join_witness :
  500 < radFreqSteps 44100 16 /\
  piece (preComputeRadiationMatrices 44100 sampleImpedance entrywiseInverse zeroSolve 1 16)
    0 0 0 3
    (nth 4 (m_radiationFreqs
              (preComputeRadiationMatrices 44100 sampleImpedance entrywiseInverse
                 zeroSolve 1 16)) 0)
  == nth 4 (m_radiationMatrixInterp
              (preComputeRadiationMatrices 44100 sampleImpedance entrywiseInverse
                 zeroSolve 1 16) 0 0 0)%nat 0.
Proof.
  assert (Hstep : 500 < radFreqSteps 44100 16) by reflexivity.
  split; [exact Hstep|].
  destruct (spline_pieces_join 44100 sampleImpedance entrywiseInverse zeroSolve 1
              16 0 0 0 3 Hstep ltac:(lia) ltac:(lia) ltac:(lia) ltac:(lia)) as [H1 H2].
  rewrite H1. exact H2.
Defined.

Lemma precomputed_path_agrees_at_samples_witness :
  500 < radFreqSteps 44100 16 /\
  exists table : cmatrix * cmatrix,
    getRadiationImpedanceAdmittance (fun freq _ => sampleImpedance freq) entrywiseInverse 1
      true 15
      (precomputedTable 44100 (fun freq _ => sampleImpedance freq) entrywiseInverse
         zeroSolve 1 16)
      (nth 15 (m_radiationFreqs
                 (precomputedTable 44100 (fun freq _ => sampleImpedance freq)
                    entrywiseInverse zeroSolve 1 16)) 0) = Some table.
Proof.
  assert (Hstep : 500 < radFreqSteps 44100 16) by reflexivity.
  split; [exact Hstep|].
  destruct (precomputed_path_agrees_at_samples 44100 (fun freq _ => sampleImpedance freq)
              entrywiseInverse zeroSolve 1 16 15 0 0
              ltac:(lia) Hstep ltac:(lia) ltac:(lia) ltac:(lia))
    as [table [direct [Ht _]]].
  exists table. exact Ht.
Defined.

End RadSpline.

(** ** Scrubbing and spacing of the profiles

    [Acoustic3dSimulation::createUniqueContour], from the declaration of
    [MINIMAL_DISTANCE] to the end of "add spacing to identical samples
    inside the contour": what the function does to the two profile arrays
    before it builds the polygon, in IEEE binary64: the comparisons, the
    sums and the differences are those of [double].  The number of profile
    samples, [VocalTract::NUM_PROFILE_SAMPLES], is the length of the
    arrays. *)

Module Contour.
Import Floats.
Local Open Scope float_scope.

(** [const double MINIMAL_DISTANCE(0.05)] and
    [const double HALF_MINIMAL_DISTANCE(0.025)]: the doubles nearest to 0.05
    and to 0.025. *)
Definition MINIMAL_DISTANCE : float := 0x1.999999999999ap-5.
Definition HALF_MINIMAL_DISTANCE : float := 0x1.999999999999ap-6.

(** [a[i] = v] *)
Fixpoint update (a : list float) (i : nat) (v : float) : list float :=
  match a, i with
  | [], _ => []
  | _ :: rest, O => v :: rest
  | x :: rest, S i' => x :: update rest i' v
  end.

(** The two profiles, [inputUpProf] and [inputLoProf]. *)
Definition profiles : Type := (list float * list float)%type.

(** [idxStart], [idxStop] ([None]: never assigned) and [firstSample]. *)
Record detection : Type := mkDetection {
  idxStart : option nat;
  idxStop : option nat;
  firstSample : bool
}.

(** The body of "identify the beginning and end of the contour". *)
Definition detectStep (p : profiles) (d : detection) (i : nat) : detection :=
  let invalidPrevSample := (nth (i - 1) (fst p) 0 =? nth (i - 1) (snd p) 0) in
  let invalidSample := (nth i (fst p) 0 =? nth i (snd p) 0) in
  let d1 :=
    if invalidPrevSample && negb invalidSample && firstSample d
    then mkDetection (Some (i - 1)%nat) (idxStop d) false
    else d in
  if negb invalidPrevSample && invalidSample
  then mkDetection (idxStart d1) (Some i) (firstSample d1)
  else d1.

(** [for (int i(1); i < VocalTract::NUM_PROFILE_SAMPLES - 1; i++)] *)
Definition detect (p : profiles) : detection :=
  fold_left (detectStep p) (seq 1 (length (fst p) - 2)) (mkDetection None None true).

(** *** The detected bounds, and what the pass leaves alone *)

(** Sample [i] is invalid: the two profiles meet there. *)
Definition closed (p : profiles) (i : nat) : bool :=
  (nth i (fst p) 0 =? nth i (snd p) 0).

(** The contour opens between samples [i - 1] and [i], or closes there. *)
Definition opensAt (p : profiles) (i : nat) : bool := closed p (i - 1) && negb (closed p i).
Definition closesAt (p : profiles) (i : nat) : bool := negb (closed p (i - 1)) && closed p i.

(** The state of the detection after the samples before [a]. *)
Definition detectedUpTo (p : profiles) (a : nat) (d : detection) : Prop :=
  match idxStart d with
  | Some s =>
    firstSample d = false /\ (1 <= S s < a)%nat /\ opensAt p (S s) = true /\
    (forall i : nat, (1 <= i < S s)%nat -> opensAt p i = false)
  | None =>
    firstSample d = true /\ (forall i : nat, (1 <= i < a)%nat -> opensAt p i = false)
  end /\
  match idxStop d with
  | Some e =>
    (1 <= e < a)%nat /\ closesAt p e = true /\
    (forall i : nat, (e < i < a)%nat -> closesAt p i = false)
  | None => forall i : nat, (1 <= i < a)%nat -> closesAt p i = false
  end.

Lemma detectStep_detectedUpTo (p : profiles) (a : nat) (d : detection) :
  (1 <= a)%nat -> detectedUpTo p a d -> detectedUpTo p (S a) (detectStep p d a).
Proof.
  intros Ha [Hstart Hstop]. unfold detectStep.
  fold (closed p (a - 1)) (closed p a).
  assert (Hopen : opensAt p a = closed p (a - 1) && negb (closed p a)) by reflexivity.
  assert (Hclose : closesAt p a = negb (closed p (a - 1)) && closed p a) by reflexivity.
  assert (Hcut : forall (f : nat -> bool) (lo : nat),
             (forall i, (lo <= i < a)%nat -> f i = false) -> f a = false ->
             forall i, (lo <= i < S a)%nat -> f i = false).
  { intros f lo Hf Hfa i Hi. destruct (Nat.eq_dec i a) as [-> | Hne]; [exact Hfa|].
    apply Hf. lia. }
  split.
  - destruct (closed p (a - 1) && negb (closed p a) && firstSample d) eqn:E1.
    + apply andb_prop in E1. destruct E1 as [Eo Ef].
      assert (Hs : idxStart d = None).
      { destruct (idxStart d) as [s|]; [|reflexivity].
        destruct Hstart as [Hf _]. congruence. }
      rewrite Hs in Hstart. destruct Hstart as [_ Hnone].
      assert (Hres : forall d', idxStart d' = Some (a - 1)%nat -> firstSample d' = false ->
                match idxStart d' with
                | Some s => firstSample d' = false /\ (1 <= S s < S a)%nat /\
                            opensAt p (S s) = true /\
                            (forall i, (1 <= i < S s)%nat -> opensAt p i = false)
                | None => firstSample d' = true /\
                          (forall i, (1 <= i < S a)%nat -> opensAt p i = false)
                end).
      { intros d' E F. rewrite E. replace (S (a - 1)) with a by lia.
        split; [exact F|]. split; [lia|]. split; [rewrite Hopen; exact Eo | exact Hnone]. }
      destruct (negb (closed p (a - 1)) && closed p a); apply Hres; reflexivity.
    + assert (Hres : forall d', idxStart d' = idxStart d -> firstSample d' = firstSample d ->
                match idxStart d' with
                | Some s => firstSample d' = false /\ (1 <= S s < S a)%nat /\
                            opensAt p (S s) = true /\
                            (forall i, (1 <= i < S s)%nat -> opensAt p i = false)
                | None => firstSample d' = true /\
                          (forall i, (1 <= i < S a)%nat -> opensAt p i = false)
                end).
      { intros d' E F. rewrite E, F. destruct (idxStart d) as [s|].
        - destruct Hstart as [Hf [Hb [Ho Hn]]]. repeat split; try assumption; lia.
        - destruct Hstart as [Hf Hn]. split; [exact Hf|].
          apply Hcut; [exact Hn|]. rewrite Hopen. rewrite Hf, andb_true_r in E1. exact E1. }
      destruct (negb (closed p (a - 1)) && closed p a); apply Hres; reflexivity.
  - assert (Hsame : forall d', idxStop d' = idxStop d ->
              closesAt p a = false ->
              match idxStop d' with
              | Some e => (1 <= e < S a)%nat /\ closesAt p e = true /\
                          (forall i, (e < i < S a)%nat -> closesAt p i = false)
              | None => forall i, (1 <= i < S a)%nat -> closesAt p i = false
              end).
    { intros d' E Hc. rewrite E. destruct (idxStop d) as [e|].
      - destruct Hstop as [Hb [Hce Hn]]. split; [lia|]. split; [exact Hce|].
        intros i Hi. destruct (Nat.eq_dec i a) as [-> | Hne]; [exact Hc | apply Hn; lia].
      - apply Hcut; assumption. }
    destruct (negb (closed p (a - 1)) && closed p a) eqn:E2.
    + cbn [idxStop]. split; [lia|]. split; [exact Hclose|]. intros i Hi. lia.
    + destruct (closed p (a - 1) && negb (closed p a) && firstSample d);
        apply Hsame; try reflexivity; exact Hclose.
Qed.

Lemma detect_detectedUpTo (p : profiles) (len : nat) :
  forall (a : nat) (d : detection),
    (1 <= a)%nat -> detectedUpTo p a d ->
    detectedUpTo p (a + len) (fold_left (detectStep p) (seq a len) d).
Proof.
  induction len as [|len IH]; intros a d Ha Hd; cbn [seq fold_left].
  - rewrite Nat.add_0_r. exact Hd.
  - replace (a + S len)%nat with (S a + len)%nat by lia.
    apply IH; [lia|]. apply detectStep_detectedUpTo; assumption.
Qed.

(** The detection of the bounds of the contour, over the samples 1 to
    [N - 2] of [N]: [idxStart] is the sample before the first place where
    the contour opens (the two profiles meet at it and differ at the
    next), [idxStop] is the last place where it closes; each is left
    unassigned when there is no such place. *)
Theorem detection_finds_first_opening_and_last_closing (p : profiles) :
  let N := length (fst p) in
  match idxStart (detect p) with
  | Some s =>
    (S s < N - 1)%nat /\ opensAt p (S s) = true /\
    (forall i : nat, (1 <= i < S s)%nat -> opensAt p i = false)
  | None => forall i : nat, (1 <= i < N - 1)%nat -> opensAt p i = false
  end /\
  match idxStop (detect p) with
  | Some e =>
    (1 <= e < N - 1)%nat /\ closesAt p e = true /\
    (forall i : nat, (e < i < N - 1)%nat -> closesAt p i = false)
  | None => forall i : nat, (1 <= i < N - 1)%nat -> closesAt p i = false
  end.
Proof.
  intro N. unfold detect. fold N.
  assert (H0 : detectedUpTo p 1 (mkDetection None None true)).
  { split; cbn [idxStart idxStop firstSample]; [split; [reflexivity|] |]; intros i Hi; lia. }
  pose proof (detect_detectedUpTo p (N - 2) 1 _ (le_n 1) H0) as [Hs He].
  destruct (Nat.le_gt_cases 2 N) as [HN | HN].
  - replace (1 + (N - 2))%nat with (N - 1)%nat in Hs, He by lia.
    split.
    + destruct (idxStart _) as [s|].
      * destruct Hs as [_ [Hb [Ho Hn]]]. repeat split; try assumption; lia.
      * destruct Hs as [_ Hn]. exact Hn.
    + exact He.
  - replace (N - 2)%nat with 0%nat in * by lia. cbn [seq fold_left] in *.
    cbn [idxStart idxStop]. split; intros i Hi; lia.
Qed.

(** *** Comparisons of doubles *)

Lemma SFcompare_antisym (u v : SpecFloat.spec_float) :
  SpecFloat.SFcompare v u = option_map CompOpp (SpecFloat.SFcompare u v).
Proof.
  destruct u as [su|su| |su mu eu], v as [sv|sv| |sv mv ev]; simpl;
    try destruct su; try destruct sv; try reflexivity;
    rewrite (Z.compare_antisym eu ev); destruct (eu ?= ev)%Z; simpl; try reflexivity;
    rewrite (Pos.compare_cont_antisym mu mv Eq); simpl;
    destruct (Pos.compare_cont Eq mu mv); reflexivity.
Qed.




(** A double that is at least another one is not below it. *)
Lemma leb_not_ltb (u v : float) : (u <=? v) = true -> (v <? u) = false.
Proof.
  rewrite leb_spec, ltb_spec. unfold SpecFloat.SFleb, SpecFloat.SFltb.
  rewrite (SFcompare_antisym (Prim2SF u) (Prim2SF v)).
  destruct (SpecFloat.SFcompare (Prim2SF u) (Prim2SF v)) as [[| |]|]; simpl;
    intro H; try reflexivity; discriminate H.
Qed.


Section Scrub.

(** [VocalTract::INVALID_PROFILE_SAMPLE] *)
Variable INVALID_PROFILE_SAMPLE : float.

Definition markInvalid (p : profiles) (i : nat) : profiles :=
  (update (fst p) i INVALID_PROFILE_SAMPLE, update (snd p) i INVALID_PROFILE_SAMPLE).

(** [if (abs(inputUpProf[i] - inputLoProf[i]) < MINIMAL_DISTANCE)
      { inputUpProf[i] += HALF_MINIMAL_DISTANCE;
        inputLoProf[i] -= HALF_MINIMAL_DISTANCE; }] *)
Definition addSpacing (p : profiles) (i : nat) : profiles :=
  let up := nth i (fst p) 0 in
  let lo := nth i (snd p) 0 in
  if abs (up - lo) <? MINIMAL_DISTANCE
  then (update (fst p) i (up + HALF_MINIMAL_DISTANCE),
        update (snd p) i (lo - HALF_MINIMAL_DISTANCE))
  else p.

(** The three loops that follow the detection, for given [idxStart] and
    [idxStop]: samples before the beginning and after the end are marked
    invalid, samples strictly between them are spaced. *)
Definition scrubAndSpace (p : profiles) (start stop : nat) : profiles :=
  let n := length (fst p) in
  let p := fold_left markInvalid (seq 0 start) p in
  let p := fold_left markInvalid (seq (stop + 1) (n - 1 - (stop + 1))) p in
  fold_left addSpacing (seq (start + 1) (stop - (start + 1))) p.

(** The profiles after the pass; [None] when [idxStart] or [idxStop] was
    never assigned (the loops would then run on uninitialised bounds). *)
Definition createUniqueContour_profiles (p : profiles) : option profiles :=
  match idxStart (detect p), idxStop (detect p) with
  | Some start, Some stop => Some (scrubAndSpace p start stop)
  | _, _ => None
  end.

(** The gap of sample [i]. *)
Definition gap (p : profiles) (i : nat) : float := nth i (fst p) 0 - nth i (snd p) 0.

(** *** Array updates *)

Lemma length_update (a : list float) (i : nat) (v : float) : length (update a i v) = length a.
Proof.
  revert i. induction a as [|x a IH]; intros [|i]; simpl; auto.
Qed.

Lemma nth_update_same (a : list float) (i : nat) (v : float) :
  (i < length a)%nat -> nth i (update a i v) 0 = v.
Proof.
  revert i. induction a as [|x a IH]; intros [|i] H; simpl in *; try lia; auto.
  apply IH. lia.
Qed.

Lemma nth_update_other (a : list float) (i j : nat) (v : float) :
  i <> j -> nth j (update a i v) 0 = nth j a 0.
Proof.
  revert i j. induction a as [|x a IH]; intros [|i] [|j] H; simpl; auto; try lia.
Qed.

(** *** The loops, sample by sample *)

Lemma markInvalid_lengths (p : profiles) (l : list nat) :
  length (fst (fold_left markInvalid l p)) = length (fst p) /\
  length (snd (fold_left markInvalid l p)) = length (snd p).
Proof.
  revert p. induction l as [|i l IH]; intro p; cbn [fold_left]; [auto|].
  destruct (IH (markInvalid p i)) as [H1 H2]. rewrite H1, H2.
  unfold markInvalid; cbn [fst snd]. rewrite !length_update. auto.
Qed.

Lemma markInvalid_outside (j : nat) (l : list nat) (p : profiles) :
  ~ In j l ->
  nth j (fst (fold_left markInvalid l p)) 0 = nth j (fst p) 0 /\
  nth j (snd (fold_left markInvalid l p)) 0 = nth j (snd p) 0.
Proof.
  revert p. induction l as [|i l IH]; intros p Hj; cbn [fold_left]; [auto|].
  destruct (IH (markInvalid p i)) as [H1 H2]; [intro; apply Hj; right; assumption|].
  rewrite H1, H2. unfold markInvalid; cbn [fst snd].
  rewrite !nth_update_other by (intro; apply Hj; left; assumption). auto.
Qed.

Lemma addSpacing_other (p : profiles) (i j : nat) :
  i <> j ->
  nth j (fst (addSpacing p i)) 0 = nth j (fst p) 0 /\
  nth j (snd (addSpacing p i)) 0 = nth j (snd p) 0.
Proof.
  intro H. unfold addSpacing. destruct (_ <? _); cbn [fst snd]; [|auto].
  rewrite !nth_update_other by exact H. auto.
Qed.

Lemma addSpacing_lengths (p : profiles) (i : nat) :
  length (fst (addSpacing p i)) = length (fst p) /\
  length (snd (addSpacing p i)) = length (snd p).
Proof.
  unfold addSpacing. destruct (_ <? _); cbn [fst snd]; [|auto].
  rewrite !length_update. auto.
Qed.

Lemma addSpacing_outside (j : nat) (l : list nat) (p : profiles) :
  ~ In j l ->
  nth j (fst (fold_left addSpacing l p)) 0 = nth j (fst p) 0 /\
  nth j (snd (fold_left addSpacing l p)) 0 = nth j (snd p) 0.
Proof.
  revert p. induction l as [|i l IH]; intros p Hj; cbn [fold_left]; [auto|].
  destruct (IH (addSpacing p i)) as [H1 H2]; [intro; apply Hj; right; assumption|].
  rewrite H1, H2. apply addSpacing_other. intro; apply Hj; left; assumption.
Qed.




(** *** The detected indices *)

Lemma detect_stop_bound (p : profiles) (len : nat) :
  forall (a : nat) (d : detection),
    (forall e : nat, idxStop d = Some e -> (e < a)%nat) ->
    forall e : nat,
      idxStop (fold_left (detectStep p) (seq a len) d) = Some e -> (e < a + len)%nat.
Proof.
  induction len as [|len IH]; intros a d Hd e He; cbn [seq fold_left] in He.
  - apply Hd in He. lia.
  - apply IH in He; [lia|]. intros e' He'. unfold detectStep in He'.
    destruct (negb _ && (nth a (fst p) 0 =? nth a (snd p) 0)); cbn [idxStop] in He'.
    + injection He' as <-. lia.
    + destruct (_ && _ && firstSample d); cbn [idxStop] in He'; apply Hd in He'; lia.
Qed.


(** *** The samples the pass marks, and those it keeps *)

Lemma markInvalid_inside (j : nat) (l : list nat) :
  forall p : profiles,
    (j < length (fst p))%nat -> (j < length (snd p))%nat ->
    In j l \/ (nth j (fst p) 0 = INVALID_PROFILE_SAMPLE /\
               nth j (snd p) 0 = INVALID_PROFILE_SAMPLE) ->
    nth j (fst (fold_left markInvalid l p)) 0 = INVALID_PROFILE_SAMPLE /\
    nth j (snd (fold_left markInvalid l p)) 0 = INVALID_PROFILE_SAMPLE.
Proof.
  induction l as [|i l IH]; intros p H1 H2 H; cbn [fold_left].
  - destruct H as [[] | H]. exact H.
  - apply IH.
    + unfold markInvalid; cbn [fst]. rewrite length_update. exact H1.
    + unfold markInvalid; cbn [snd]. rewrite length_update. exact H2.
    + destruct (Nat.eq_dec i j) as [-> | Hne].
      * right. unfold markInvalid; cbn [fst snd].
        rewrite !nth_update_same by assumption. auto.
      * destruct H as [[Hi | Hl] | H]; [congruence | left; exact Hl |].
        right. unfold markInvalid; cbn [fst snd].
        rewrite !nth_update_other by exact Hne. exact H.
Qed.

Lemma addSpacing_wide (p : profiles) (i : nat) :
  (MINIMAL_DISTANCE <=? abs (gap p i)) = true -> addSpacing p i = p.
Proof.
  intro H. unfold addSpacing. fold (gap p i).
  rewrite (leb_not_ltb _ _ H). reflexivity.
Qed.

Lemma addSpacing_loop_wide (j : nat) (l : list nat) :
  forall p : profiles,
    (MINIMAL_DISTANCE <=? abs (gap p j)) = true ->
    nth j (fst (fold_left addSpacing l p)) 0 = nth j (fst p) 0 /\
    nth j (snd (fold_left addSpacing l p)) 0 = nth j (snd p) 0.
Proof.
  induction l as [|i l IH]; intros p H; cbn [fold_left]; [auto|].
  destruct (Nat.eq_dec i j) as [-> | Hne].
  - rewrite (addSpacing_wide p j H). apply IH, H.
  - destruct (addSpacing_other p i j Hne) as [E1 E2].
    destruct (IH (addSpacing p i)) as [F1 F2].
    + unfold gap. rewrite E1, E2. exact H.
    + rewrite F1, F2, E1, E2. auto.
Qed.

(** With [N] samples in each profile and detected bounds
    [idxStart < idxStop]: the pass keeps the number of samples; it marks
    as invalid, in both profiles, every sample before [idxStart] and every
    sample after [idxStop] except the last one; it leaves as they were the
    samples [idxStart] and [idxStop], the last sample, and every sample
    between the bounds whose profiles are at least 0.05 apart. *)
Theorem scrub_marks_outside_and_keeps_wide_samples (p : profiles) (start stop : nat)
    (Hlen : length (fst p) = length (snd p))
    (Hstart : idxStart (detect p) = Some start)
    (Hstop : idxStop (detect p) = Some stop)
    (Horder : (start < stop)%nat) :
  let N := length (fst p) in
  exists p' : profiles,
    createUniqueContour_profiles p = Some p' /\
    length (fst p') = N /\ length (snd p') = N /\
    (forall i : nat, (i < start \/ stop < i < N - 1)%nat ->
       nth i (fst p') 0 = INVALID_PROFILE_SAMPLE /\
       nth i (snd p') 0 = INVALID_PROFILE_SAMPLE) /\
    (forall i : nat,
       (i = start \/ i = stop \/ (N - 1 <= i)%nat \/
        ((start < i < stop)%nat /\ (MINIMAL_DISTANCE <=? abs (gap p i)) = true)) ->
       nth i (fst p') 0 = nth i (fst p) 0 /\
       nth i (snd p') 0 = nth i (snd p) 0).
Proof.
  intro N. unfold createUniqueContour_profiles. rewrite Hstart, Hstop.
  eexists. split; [reflexivity|].
  assert (Hbound : (stop < 1 + (N - 2))%nat).
  { apply (detect_stop_bound p (N - 2) 1 (mkDetection None None true)).
    - cbn [idxStop]. discriminate.
    - exact Hstop. }
  unfold scrubAndSpace. fold N.
  set (l1 := seq 0 start).
  set (l2 := seq (stop + 1) (N - 1 - (stop + 1))).
  set (l3 := seq (start + 1) (stop - (start + 1))).
  set (p1 := fold_left markInvalid l1 p).
  set (p2 := fold_left markInvalid l2 p1).
  destruct (markInvalid_lengths p l1) as [L1 L1'].
  destruct (markInvalid_lengths p1 l2) as [L2 L2'].
  fold p1 in L1, L1'. fold p2 in L2, L2'.
  assert (L3 : forall (l : list nat) (q : profiles),
             length (fst (fold_left addSpacing l q)) = length (fst q) /\
             length (snd (fold_left addSpacing l q)) = length (snd q)).
  { induction l as [|i l IH]; intro q; cbn [fold_left]; [auto|].
    destruct (IH (addSpacing q i)) as [A B]. destruct (addSpacing_lengths q i) as [C D].
    rewrite A, B, C, D. auto. }
  destruct (L3 l3 p2) as [L3a L3b].
  split; [rewrite L3a, L2, L1; reflexivity|].
  split; [rewrite L3b, L2', L1', <- Hlen; reflexivity|].
  split.
  - intros i Hi.
    destruct (addSpacing_outside i l3 p2) as [E1 E2].
    { subst l3. rewrite in_seq. lia. }
    rewrite E1, E2. subst p2.
    apply markInvalid_inside.
    + rewrite L1. fold N. lia.
    + rewrite L1', <- Hlen. fold N. lia.
    + destruct Hi as [Hi | Hi].
      * right. subst p1. apply markInvalid_inside; [fold N; lia | rewrite <- Hlen; fold N; lia |].
        left. subst l1. rewrite in_seq. lia.
      * left. subst l2. rewrite in_seq. lia.
  - intros i Hi.
    assert (Hout1 : ~ In i l1) by (subst l1; rewrite in_seq; lia).
    assert (Hout2 : ~ In i l2) by (subst l2; rewrite in_seq; lia).
    destruct (markInvalid_outside i l1 p Hout1) as [E1 E1'].
    destruct (markInvalid_outside i l2 p1 Hout2) as [E2 E2'].
    fold p1 in E1, E1'. fold p2 in E2, E2'.
    destruct Hi as [Hi | [Hi | [Hi | [Hi Hwide]]]].
    + destruct (addSpacing_outside i l3 p2) as [E3 E3'].
      { subst l3. rewrite in_seq. lia. }
      rewrite E3, E3', E2, E2', E1, E1'. auto.
    + destruct (addSpacing_outside i l3 p2) as [E3 E3'].
      { subst l3. rewrite in_seq. lia. }
      rewrite E3, E3', E2, E2', E1, E1'. auto.
    + destruct (addSpacing_outside i l3 p2) as [E3 E3'].
      { subst l3. rewrite in_seq. lia. }
      rewrite E3, E3', E2, E2', E1, E1'. auto.
    + destruct (addSpacing_loop_wide i l3 p2) as [E3 E3'].
      { unfold gap. rewrite E2, E2', E1, E1'. exact Hwide. }
      rewrite E3, E3', E2, E2', E1, E1'. auto.
Qed.

End Scrub.

(** *** Two profiles

    A contour that opens at sample 0 and closes at sample 4, of 96 samples
    in all.  At sample 2, inside the contour, the two profiles meet at 1:
    an identical sample, which is what the spacing is for.  The samples
    after the contour are invalid (upper = lower). *)

Definition upperProfile : list float := [0; 2; 1; 2; 0; 0] ++ repeat 0 90.
Definition lowerProfile : list float := [0; 0; 1; 0; 0; 0] ++ repeat 0 90.



(** A contour of 96 samples between the samples 0 and 4: the samples 5 to
    94 are marked with the invalid value, here 1000000. *)
Lemma scrub_marks_outside_and_keeps_wide_samples_witness :
  (0 < 4)%nat /\
  exists p' : profiles,
    createUniqueContour_profiles 1000000 (upperProfile, lowerProfile) = Some p' /\
    nth 50 (fst p') 0 = 1000000 /\
    nth 95 (fst p') 0 = nth 95 upperProfile 0.
Proof.
  split; [lia|].
  destruct (scrub_marks_outside_and_keeps_wide_samples 1000000 (upperProfile, lowerProfile)
              0 4 eq_refl eq_refl eq_refl ltac:(lia))
    as [p' [H1 [_ [_ [Hmark Hkeep]]]]].
  exists p'. split; [exact H1|]. split.
  - apply (Hmark 50%nat). right. cbn. lia.
  - apply (Hkeep 95%nat). right. right. left. cbn. lia.
Defined.

End Contour.

(** ** The radiation section

    [Acoustic3dSimulation::createCrossSections], "create last
    cross-sections" and "Create radiation cross-section": the radius
    accumulated over the contours of the last slice, and the section that
    [addCrossSectionRadiation] appends. *)

Module RadiationSection.

(** [Point], [Polygon_2] and [Bbox_2] of CGAL. *)
Definition Point : Type := (Q * Q)%type.
Definition Polygon_2 : Type := list Point.

Record Bbox_2 : Type := mkBbox { xmin : Q; xmax : Q; ymin : Q; ymax : Q }.

Definition growBbox (b : Bbox_2) (p : Point) : Bbox_2 :=
  mkBbox (Qmin (xmin b) (fst p)) (Qmax (xmax b) (fst p))
         (Qmin (ymin b) (snd p)) (Qmax (ymax b) (snd p)).

(** [contour.bbox()]: the smallest axis-parallel box around the vertices. *)
Definition bbox (contour : Polygon_2) : Bbox_2 :=
  match contour with
  | [] => mkBbox 0 0 0 0
  | p :: rest => fold_left growBbox rest (mkBbox (fst p) (fst p) (snd p) (snd p))
  end.

(** [max({a, b, c, d})] *)
Definition max4 (a b c d : Q) : Q := Qmax (Qmax (Qmax a b) c) d.

(** [radius = max(radius, max({ bbox().xmax(), bbox().ymax(),
                               abs(bbox().xmin()), abs(bbox().ymin()) }))] *)
Definition growRadius (radius : Q) (contour : Polygon_2) : Q :=
  let b := bbox contour in
  Qmax radius (max4 (xmax b) (ymax b) (Qabs (xmin b)) (Qabs (ymin b))).

(** The loop over [contours.back()], starting from [radius = 0.]. *)
Definition lastSectionsRadius (lastContours : list Polygon_2) : Q :=
  fold_left growRadius lastContours 0.

Record CrossSection2dRadiation : Type := mkRadiation {
  m_ctrLinePt : Point;
  m_normal : Point;
  m_radius : Q;
  m_PMLThickness : Q;
  m_area : Q
}.

(** The constructor: [m_area = M_PI * pow(radius, 2)]. *)
Definition newCrossSection2dRadiation (ctrLinePt normal : Point)
    (radius PMLThickness : Q) : CrossSection2dRadiation :=
  mkRadiation ctrLinePt normal radius PMLThickness (M_PI * radius ^ 2).

(** [if (createRadSection) { double PMLThickness = radius; radius *= 2.1;
      addCrossSectionRadiation(centerLine.back(), normals.back(),
                               radius, PMLThickness); }] *)
Definition createRadiationSection (createRadSection : bool) (ctrLinePt normal : Point)
    (lastContours : list Polygon_2) : option CrossSection2dRadiation :=
  let radius := lastSectionsRadius lastContours in
  if createRadSection then
    let PMLThickness := radius in
    let radius := radius * 2.1 in
    Some (newCrossSection2dRadiation ctrLinePt normal radius PMLThickness)
  else None.

(** *** The radius as the specification words it *)

(** The largest absolute bounding-box coordinate of a contour. *)
Definition largestAbsCoordinate (b : Bbox_2) : Q :=
  Qmax (Qmax (Qabs (xmin b)) (Qabs (xmax b))) (Qmax (Qabs (ymin b)) (Qabs (ymax b))).

(** Its maximum over the contours of the last slice. *)
Definition r_max (lastContours : list Polygon_2) : Q :=
  fold_left (fun r contour => Qmax r (largestAbsCoordinate (bbox contour))) lastContours 0.

(** *** Bounding boxes *)

Definition boxed (b : Bbox_2) (p : Point) : Prop :=
  xmin b <= fst p <= xmax b /\ ymin b <= snd p <= ymax b.

Definition ordered (b : Bbox_2) : Prop := xmin b <= xmax b /\ ymin b <= ymax b.

Lemma growBbox_keeps (b : Bbox_2) (p q : Point) : boxed b p -> boxed (growBbox b q) p.
Proof.
  intros [[H1 H2] [H3 H4]]. unfold boxed, growBbox; cbn [xmin xmax ymin ymax].
  pose proof (Q.le_min_l (xmin b) (fst q)). pose proof (Q.le_max_l (xmax b) (fst q)).
  pose proof (Q.le_min_l (ymin b) (snd q)). pose proof (Q.le_max_l (ymax b) (snd q)).
  repeat split; lra.
Qed.

Lemma growBbox_adds (b : Bbox_2) (q : Point) : boxed (growBbox b q) q.
Proof.
  unfold boxed, growBbox; cbn [xmin xmax ymin ymax].
  pose proof (Q.le_min_r (xmin b) (fst q)). pose proof (Q.le_max_r (xmax b) (fst q)).
  pose proof (Q.le_min_r (ymin b) (snd q)). pose proof (Q.le_max_r (ymax b) (snd q)).
  repeat split; assumption.
Qed.

Lemma fold_growBbox_boxed (rest : list Point) :
  forall (b : Bbox_2) (p : Point),
    boxed b p \/ In p rest -> boxed (fold_left growBbox rest b) p.
Proof.
  induction rest as [|q rest IH]; intros b p H; cbn [fold_left].
  - destruct H as [H | []]. exact H.
  - apply IH. destruct H as [H | [-> | H]].
    + left. apply growBbox_keeps, H.
    + left. apply growBbox_adds.
    + right. exact H.
Qed.

(** Every vertex of a contour lies in its bounding box. *)
Lemma bbox_boxed (contour : Polygon_2) (p : Point) : In p contour -> boxed (bbox contour) p.
Proof.
  destruct contour as [|q rest]; [intros []|]. intro H. unfold bbox.
  apply fold_growBbox_boxed. destruct H as [<- | H]; [left | right; exact H].
  unfold boxed; cbn [xmin xmax ymin ymax]. repeat split; apply Qle_refl.
Qed.

Lemma bbox_ordered (contour : Polygon_2) : contour <> [] -> ordered (bbox contour).
Proof.
  destruct contour as [|q rest]; [congruence|]. intros _.
  destruct (bbox_boxed (q :: rest) q (or_introl eq_refl)) as [[H1 H2] [H3 H4]].
  split; lra.
Qed.

(** *** The code's maximum is the largest absolute coordinate *)

Lemma Qmax_abs_ordered (lo hi : Q) : lo <= hi -> Qmax hi (Qabs lo) == Qmax (Qabs lo) (Qabs hi).
Proof.
  intro H. apply Qle_antisym.
  - apply Q.max_lub.
    + apply Qle_trans with (Qabs hi); [apply Qle_Qabs | apply Q.le_max_r].
    + apply Q.le_max_l.
  - apply Q.max_lub; [apply Q.le_max_r|].
    destruct (Qlt_le_dec hi 0) as [Hneg | Hpos].
    + rewrite (Qabs_neg hi) by lra.
      apply Qle_trans with (Qabs lo); [| apply Q.le_max_r].
      rewrite (Qabs_neg lo) by lra. lra.
    + rewrite (Qabs_pos hi) by exact Hpos. apply Q.le_max_l.
Qed.

Lemma max4_largestAbs (b : Bbox_2) :
  ordered b ->
  max4 (xmax b) (ymax b) (Qabs (xmin b)) (Qabs (ymin b)) == largestAbsCoordinate b.
Proof.
  intros [Hx Hy]. unfold max4, largestAbsCoordinate.
  rewrite <- (Qmax_abs_ordered _ _ Hx), <- (Qmax_abs_ordered _ _ Hy).
  apply Qle_antisym; repeat apply Q.max_lub.
  - apply Qle_trans with (Qmax (xmax b) (Qabs (xmin b))); apply Q.le_max_l.
  - apply Qle_trans with (Qmax (ymax b) (Qabs (ymin b))); [apply Q.le_max_l | apply Q.le_max_r].
  - apply Qle_trans with (Qmax (xmax b) (Qabs (xmin b))); [apply Q.le_max_r | apply Q.le_max_l].
  - apply Qle_trans with (Qmax (ymax b) (Qabs (ymin b))); apply Q.le_max_r.
  - apply Qle_trans with (Qmax (Qmax (xmax b) (ymax b)) (Qabs (xmin b)));
      [| apply Q.le_max_l].
    apply Qle_trans with (Qmax (xmax b) (ymax b)); apply Q.le_max_l.
  - apply Qle_trans with (Qmax (Qmax (xmax b) (ymax b)) (Qabs (xmin b)));
      [apply Q.le_max_r | apply Q.le_max_l].
  - apply Qle_trans with (Qmax (Qmax (xmax b) (ymax b)) (Qabs (xmin b)));
      [| apply Q.le_max_l].
    apply Qle_trans with (Qmax (xmax b) (ymax b)); [apply Q.le_max_r | apply Q.le_max_l].
  - apply Q.le_max_r.
Qed.

Lemma fold_growRadius (lastContours : list Polygon_2) :
  Forall (fun contour => contour <> []) lastContours ->
  forall r1 r2 : Q, r1 == r2 ->
    fold_left growRadius lastContours r1
    == fold_left (fun r contour => Qmax r (largestAbsCoordinate (bbox contour)))
         lastContours r2.
Proof.
  induction 1 as [|c l Hc Hl IH]; intros r1 r2 E; cbn [fold_left]; [exact E|].
  apply IH. unfold growRadius.
  rewrite (max4_largestAbs _ (bbox_ordered c Hc)), E. reflexivity.
Qed.

Lemma lastSectionsRadius_r_max (lastContours : list Polygon_2) :
  Forall (fun contour => contour <> []) lastContours ->
  lastSectionsRadius lastContours == r_max lastContours.
Proof.
  intro Hne. apply fold_growRadius; [exact Hne | reflexivity].
Qed.

(** [r_max] bounds the largest absolute coordinate of every contour. *)
Lemma fold_max_bounds (lastContours : list Polygon_2) :
  forall r0 : Q,
    let r := fold_left (fun r contour => Qmax r (largestAbsCoordinate (bbox contour)))
               lastContours r0 in
    r0 <= r /\
    forall contour : Polygon_2,
      In contour lastContours -> largestAbsCoordinate (bbox contour) <= r.
Proof.
  induction lastContours as [|c l IH]; intros r0; cbn [fold_left].
  - split; [apply Qle_refl | intros ? []].
  - destruct (IH (Qmax r0 (largestAbsCoordinate (bbox c)))) as [H1 H2].
    pose proof (Q.le_max_l r0 (largestAbsCoordinate (bbox c))) as Hl.
    pose proof (Q.le_max_r r0 (largestAbsCoordinate (bbox c))) as Hr.
    split; [lra|]. intros contour [<- | Hin]; [lra | apply H2, Hin].
Qed.

Lemma boxed_abs (b : Bbox_2) (p : Point) :
  boxed b p -> Qabs (fst p) <= largestAbsCoordinate b /\ Qabs (snd p) <= largestAbsCoordinate b.
Proof.
  intros [[H1 H2] [H3 H4]]. unfold largestAbsCoordinate.
  pose proof (Qle_Qabs (xmax b)). pose proof (Qle_Qabs (ymax b)).
  pose proof (Qle_Qabs (- xmin b)) as Hxm. rewrite Qabs_opp in Hxm.
  pose proof (Qle_Qabs (- ymin b)) as Hym. rewrite Qabs_opp in Hym.
  pose proof (Q.le_max_l (Qmax (Qabs (xmin b)) (Qabs (xmax b)))
                (Qmax (Qabs (ymin b)) (Qabs (ymax b)))).
  pose proof (Q.le_max_r (Qmax (Qabs (xmin b)) (Qabs (xmax b)))
                (Qmax (Qabs (ymin b)) (Qabs (ymax b)))).
  pose proof (Q.le_max_l (Qabs (xmin b)) (Qabs (xmax b))).
  pose proof (Q.le_max_r (Qabs (xmin b)) (Qabs (xmax b))).
  pose proof (Q.le_max_l (Qabs (ymin b)) (Qabs (ymax b))).
  pose proof (Q.le_max_r (Qabs (ymin b)) (Qabs (ymax b))).
  split; apply Qabs_Qle_condition; split; lra.
Qed.

(** C7: the section appended by [createCrossSections] has PML thickness
    [r_max] and radius [2.1 * r_max], where [r_max] is the maximum, over the
    contours of the last slice, of the largest absolute bounding-box
    coordinate [max(|xmin|, |xmax|, |ymin|, |ymax|)]; every vertex of the
    last cross-sections then lies in the disk of that radius around the
    origin. *)
Theorem radiation_section_radius (ctrLinePt normal : Point)
    (lastContours : list Polygon_2)
    (Hvertices : Forall (fun contour => contour <> []) lastContours) :
  exists rad : CrossSection2dRadiation,
    createRadiationSection true ctrLinePt normal lastContours = Some rad /\
    m_PMLThickness rad == r_max lastContours /\
    m_radius rad == 2.1 * r_max lastContours /\
    (forall contour : Polygon_2, In contour lastContours ->
       largestAbsCoordinate (bbox contour) <= r_max lastContours) /\
    (forall (contour : Polygon_2) (p : Point),
       In contour lastContours -> In p contour ->
       fst p * fst p + snd p * snd p <= m_radius rad * m_radius rad).
Proof.
  unfold createRadiationSection. eexists. split; [reflexivity|].
  cbn [newCrossSection2dRadiation m_PMLThickness m_radius].
  pose proof (lastSectionsRadius_r_max lastContours Hvertices) as Hr.
  destruct (fold_max_bounds lastContours 0) as [Hpos Hmax]. fold (r_max lastContours) in Hpos, Hmax.
  split; [exact Hr|]. split; [rewrite Hr; ring|]. split; [exact Hmax|].
  intros contour p Hc Hp.
  destruct (boxed_abs _ _ (bbox_boxed contour p Hp)) as [Hx Hy].
  specialize (Hmax contour Hc). rewrite Hr.
  assert (Hx' : Qabs (fst p) <= r_max lastContours) by lra.
  assert (Hy' : Qabs (snd p) <= r_max lastContours) by lra.
  apply Qabs_Qle_condition in Hx'. apply Qabs_Qle_condition in Hy'.
  nra.
Qed.

(** A last slice with one triangular contour reaching x = -3. *)
Definition lastSlice : list Polygon_2 := [[(-3, 0); (1, 2); (1, -1)]].

Lemma radiation_section_radius_witness :
  Forall (fun contour : Polygon_2 => contour <> []) lastSlice /\
  exists rad : CrossSection2dRadiation,
    createRadiationSection true (0, 0) (0, 1) lastSlice = Some rad /\
    m_PMLThickness rad == 3 /\ m_radius rad == 6.3.
Proof.
  assert (Hne : Forall (fun contour : Polygon_2 => contour <> []) lastSlice).
  { unfold lastSlice. repeat constructor. discriminate. }
  split; [exact Hne|].
  destruct (radiation_section_radius (0, 0) (0, 1) lastSlice Hne)
    as [rad [H1 [H2 [H3 _]]]].
  exists rad. split; [exact H1|]. split.
  - rewrite H2. vm_compute. reflexivity.
  - rewrite H3. vm_compute. reflexivity.
Defined.

End RadiationSection.

(** ** Curvature radius, angle and shift of a segment

    [Acoustic3dSimulation::getCurvatureAngleShift], in IEEE binary64: the
    two normals of a straight segment are parallel, the divisor is then
    zero and the radius infinite, which is how the simulator encodes a
    straight section. *)

Module Curvature.
Import Floats.
Local Open Scope float_scope.

Record Point2D : Type := mkPoint2D { x : float; y : float }.

(** [M_PI] *)
Definition M_PI : float := 0x1.921fb54442d18p+1.

(** The three outputs [radius], [angle] and [shift]. *)
Record curvature : Type := mkCurvature {
  radius : float;
  angle : float;
  shift : float
}.

(** The divisor of the two radii, [N2.x * N1.y - N2.y * N1.x]: it is zero
    when the two normals are parallel. *)
Definition divisor (N1 N2 : Point2D) : float := x N2 * y N1 - y N2 * x N1.

(** [radii[0]]: the radius of the arc through [P1] centred where the two
    normals meet. *)
Definition radii0 (P1 P2 N1 N2 : Point2D) : float :=
  ((y P2 - y P1) * x N2 - (x P2 - x P1) * y N2) / (x N2 * y N1 - y N2 * x N1).

(** [radii[1]]: the same through [P2] (computed, never used). *)
Definition radii1 (P1 P2 N1 N2 : Point2D) : float :=
  ((y P2 - y P1) * x N1 - (x P2 - x P1) * y N1) / (x N2 * y N1 - y N2 * x N1).

Section Libm.

(** [atan2] and [fmod] of <cmath> *)
Variables atan2 fmod : float -> float -> float.

(** [fmod(atan2(N.y, N.x) + 2. * M_PI, 2. * M_PI)] *)
Definition angularPosition (N : Point2D) : float :=
  fmod (atan2 (y N) (x N) + 2 * M_PI) (2 * M_PI).

Definition getCurvatureAngleShift (P1 P2 N1 N2 : Point2D) : curvature :=
  let r0 := radii0 P1 P2 N1 N2 in
  let angles0 := angularPosition N1 in
  let angles1 := angularPosition N2 in
  (* "compute the average radius" *)
  let radius := r0 in
  (* "compute the vertical shift to apply to the contour" *)
  let shift := r0 - radius in
  let angle := angles1 - angles0 in
  let angle :=
    if (2 * M_PI - abs angle) <? abs angle
    then if get_sign angle then 2 * M_PI - abs angle else abs angle - 2 * M_PI
    else angle in
  mkCurvature radius angle shift.

(** A double minus itself is +0 when it is finite, and NaN when it is an
    infinity or NaN. *)
Lemma sub_self (v : float) : v - v = if is_finite v then 0 else nan.
Proof.
  apply Prim2SF_inj. rewrite sub_spec. unfold SF64sub.
  unfold is_finite, is_nan, is_infinity.
  rewrite !FloatAxioms.eqb_spec, abs_spec.
  change (Prim2SF infinity) with (SpecFloat.S754_infinity false).
  destruct (Prim2SF v) as [s|s| |s m e]; simpl.
  - destruct s; reflexivity.
  - destruct s; reflexivity.
  - reflexivity.
  - rewrite Z.min_id, Z.sub_diag.
    unfold SpecFloat.SFeqb, SpecFloat.SFcompare. simpl.
    rewrite Z.compare_refl, Pos.compare_cont_refl. destruct s; reflexivity.
Qed.

(** A quotient by a zero, of either sign, is an infinity or NaN. *)
Lemma div_zero_not_finite (n d : float) : is_zero d = true -> is_finite (n / d) = false.
Proof.
  unfold is_zero, is_finite, is_nan, is_infinity.
  rewrite !FloatAxioms.eqb_spec, abs_spec, div_spec. unfold SF64div.
  change (Prim2SF infinity) with (SpecFloat.S754_infinity false).
  change (Prim2SF zero) with (SpecFloat.S754_zero false).
  destruct (Prim2SF d) as [sd|sd| |sd md ed]; intro Hd;
    try discriminate Hd; try (destruct sd; discriminate Hd).
  destruct (Prim2SF n) as [sn|sn| |sn mn en]; simpl; try reflexivity;
    destruct sn, sd; reflexivity.
Qed.

(** C9 (as amended): the shift returned is [radii[0] - radii[0]], the
    radius being set to [radii[0]]: it is 0 whenever that radius is finite,
    and NaN when it is not, which is the case whenever the divisor is zero
    (parallel normals). *)
Theorem shift_is_zero_or_nan (P1 P2 N1 N2 : Point2D) :
  radius (getCurvatureAngleShift P1 P2 N1 N2) = radii0 P1 P2 N1 N2 /\
  shift (getCurvatureAngleShift P1 P2 N1 N2)
    = (if is_finite (radii0 P1 P2 N1 N2) then 0 else nan) /\
  (shift (getCurvatureAngleShift P1 P2 N1 N2) = 0 \/
   shift (getCurvatureAngleShift P1 P2 N1 N2) = nan) /\
  (is_zero (divisor N1 N2) = true ->
   shift (getCurvatureAngleShift P1 P2 N1 N2) = nan).
Proof.
  unfold getCurvatureAngleShift; cbn [radius shift].
  split; [reflexivity|]. rewrite sub_self.
  split; [reflexivity|].
  split; [destruct (is_finite _); [left | right]; reflexivity|].
  intro Hzero. unfold radii0. fold (divisor N1 N2).
  rewrite (div_zero_not_finite _ _ Hzero). reflexivity.
Qed.

End Libm.

(** Two slices one unit apart on a straight centerline, normals upward. *)
Definition straightP1 : Point2D := mkPoint2D 0 0.
Definition straightP2 : Point2D := mkPoint2D 1 0.
Definition upward : Point2D := mkPoint2D 0 1.

(** C9 as stated fails: for that segment the divisor is 0, the radius is
    minus infinity, and the shift is NaN, not 0 (and NaN compares unequal to
    0), whatever [atan2] and [fmod] return. *)
Lemma straight_segment_shift_is_nan :
  ~ (forall (atan2 fmod : float -> float -> float) (P1 P2 N1 N2 : Point2D),
        shift (getCurvatureAngleShift atan2 fmod P1 P2 N1 N2) = 0).
Proof.
  intro H.
  specialize (H (fun a _ => a) (fun a _ => a) straightP1 straightP2 upward upward).
  assert (E : shift (getCurvatureAngleShift (fun a _ => a) (fun a _ => a)
                       straightP1 straightP2 upward upward) = nan) by reflexivity.
  rewrite E in H.
  assert (Hn : is_nan nan = is_nan 0) by (rewrite H; reflexivity).
  vm_compute in Hn. discriminate Hn.
Qed.

Lemma straight_segment_radius :
  is_zero (divisor upward upward) = true /\
  radii0 straightP1 straightP2 upward upward = neg_infinity /\
  (radii0 straightP1 straightP2 upward upward
   - radii0 straightP1 straightP2 upward upward =? 0) = false.
Proof. repeat split; reflexivity. Qed.

End Curvature.

(** ** Interpolation of a transfer function

    [Acoustic3dSimulation::interpolateTransferFunction] (the scalar
    overload).  A [double] is a real number, an infinity or NaN: the
    stored transfer functions hold NaN where [acousticField] found no
    point, and [log10] of a zero magnitude is minus infinity.  The finite
    values are exact reals (no rounding, no overflow, no sign on zero), and
    an [int] is an integer of [Z]. *)

Module TransferFunction.
Import Reals Lra.
Local Open Scope R_scope.

Inductive tfType : Type := GLOTTAL | NOISE | INPUT_IMPED.

(** [double] *)
Inductive double : Type :=
| finite (r : R)
| infinity (negative : bool)
| NaN.

(** [complex<double>], by its real and imaginary parts. *)
Definition cdouble : Type := (double * double)%type.

(** The sign of a real number. *)
Definition sign (r : R) : comparison :=
  if Rlt_dec 0 r then Gt else if Rlt_dec r 0 then Lt else Eq.

(** The operations of [double] the function uses. *)
Definition dopp (a : double) : double :=
  match a with
  | finite x => finite (- x)
  | infinity s => infinity (negb s)
  | NaN => NaN
  end.

Definition dadd (a b : double) : double :=
  match a, b with
  | NaN, _ => NaN
  | _, NaN => NaN
  | finite x, finite y => finite (x + y)
  | finite _, infinity s => infinity s
  | infinity s, finite _ => infinity s
  | infinity s, infinity s' => if Bool.eqb s s' then infinity s else NaN
  end.

Definition dsub (a b : double) : double := dadd a (dopp b).

Definition dmul (a b : double) : double :=
  match a, b with
  | NaN, _ => NaN
  | _, NaN => NaN
  | finite x, finite y => finite (x * y)
  | finite x, infinity s =>
    match sign x with Gt => infinity s | Lt => infinity (negb s) | Eq => NaN end
  | infinity s, finite y =>
    match sign y with Gt => infinity s | Lt => infinity (negb s) | Eq => NaN end
  | infinity s, infinity s' => infinity (xorb s s')
  end.

(** The quotient; a zero divisor is taken as +0, which is what
    [(double)m_numFreqPicture] is when it is zero, the only zero the
    function divides by. *)
Definition ddiv (a b : double) : double :=
  match a, b with
  | NaN, _ => NaN
  | _, NaN => NaN
  | finite x, finite y =>
    match sign y with
    | Eq => match sign x with Gt => infinity false | Lt => infinity true | Eq => NaN end
    | _ => finite (x / y)
    end
  | finite _, infinity _ => finite 0
  | infinity s, finite y =>
    match sign y with Lt => infinity (negb s) | _ => infinity s end
  | infinity _, infinity _ => NaN
  end.

(** [a <= b], false when one of the two is NaN. *)
Definition dle (a b : double) : bool :=
  match a, b with
  | NaN, _ => false
  | _, NaN => false
  | finite x, finite y => if Rle_dec x y then true else false
  | finite _, infinity s => negb s
  | infinity s, finite _ => s
  | infinity s, infinity s' => s || negb s'
  end.

(** [abs] of a complex number: plus infinity when a part is infinite, NaN
    when a part is NaN and none is infinite. *)
Definition cabs (z : cdouble) : double :=
  match fst z, snd z with
  | infinity _, _ => infinity false
  | _, infinity _ => infinity false
  | NaN, _ => NaN
  | _, NaN => NaN
  | finite a, finite b => finite (sqrt (a * a + b * b))
  end.

Definition log10 (v : R) : R := ln v / ln 10.
Definition pow10 (v : R) : R := Rpower 10 v.

(** [log10] of a double: minus infinity at zero, NaN below. *)
Definition dlog10 (v : double) : double :=
  match v with
  | finite r =>
    match sign r with Gt => finite (log10 r) | Eq => infinity true | Lt => NaN end
  | infinity false => infinity false
  | infinity true => NaN
  | NaN => NaN
  end.

(** [pow(10., v)] *)
Definition dpow10 (v : double) : double :=
  match v with
  | finite r => finite (pow10 r)
  | infinity false => infinity false
  | infinity true => finite 0
  | NaN => NaN
  end.

(** The conversion [(int)] of a real number, which truncates toward zero. *)
Definition truncate (v : R) : Z :=
  if Rle_dec 0 v then Int_part v else (- Int_part (- v))%Z.

(** [Eigen::MatrixXcd]: its dimensions and its coefficient accessor (which
    does not check its indices: what it returns outside the matrix is left
    unspecified). *)
Record MatrixXcd : Type := mkMatrix {
  rows : Z;
  cols : Z;
  coeff : Z -> Z -> cdouble
}.

(** The members the function reads; the computed frequencies are finite. *)
Record simulation : Type := mkSimulation {
  m_glottalSourceTF : MatrixXcd;
  m_noiseSourceTF : MatrixXcd;
  m_planeModeInputImpedance : MatrixXcd;
  m_tfFreqs : list R;
  m_numFreqPicture : Z
}.

(** The matrix the switch on [type] selects. *)
Definition inputTf (s : simulation) (type : tfType) : MatrixXcd :=
  match type with
  | GLOTTAL => m_glottalSourceTF s
  | NOISE => m_noiseSourceTF s
  | INPUT_IMPED => m_planeModeInputImpedance s
  end.

Section Interpolation.

(** The audio sampling rate, a positive integer constant of the
    synthesizer's headers. *)
Variable SAMPLING_RATE : positive.

(** The conversion [(int)] of an infinity or of NaN is undefined:
    [undefinedInt] stands for what it yields. *)
Variable undefinedInt : Z.

Definition dtruncate (v : double) : Z :=
  match v with
  | finite r => truncate r
  | _ => undefinedInt
  end.

(** [(double)SAMPLING_RATE/2./(double)m_numFreqPicture] *)
Definition freqSteps (s : simulation) : double :=
  ddiv (ddiv (finite (IZR (Zpos SAMPLING_RATE))) (finite 2))
       (finite (IZR (m_numFreqPicture s))).

(** "Check if a transfer function have been computed" *)
Definition computed (s : simulation) (type : tfType) : bool :=
  (rows (inputTf s type) >? 0)%Z && (0 <? length (m_tfFreqs s))%nat.

(** "Check if the frequency is in the interval of frequencies computed":
    [freq >= m_tfFreqs[0] && freq <= m_tfFreqs.back()] *)
Definition inInterval (s : simulation) (freq : double) : bool :=
  dle (finite (nth 0 (m_tfFreqs s) 0)) freq && dle freq (finite (last (m_tfFreqs s) 0)).

(** The magnitude interpolated between the two stored frequencies around
    [freq], on the scale of its base-10 logarithm. *)
Definition interpolatedMagnitude (s : simulation) (tf : MatrixXcd) (freq : double)
    (idxPt : Z) : double :=
  let maxIdxFreq := (Z.of_nat (length (m_tfFreqs s)) - 1)%Z in
  let idxFreqs0 := dtruncate (ddiv freq (freqSteps s)) in
  let idxFreqs1 := Z.min maxIdxFreq (idxFreqs0 + 1) in
  let tf0 := dlog10 (cabs (coeff tf idxFreqs0 idxPt)) in
  let tf1 := dlog10 (cabs (coeff tf idxFreqs1 idxPt)) in
  dpow10 (dadd tf0
            (ddiv (dmul (dsub tf1 tf0)
                        (dsub freq (dmul (finite (IZR idxFreqs0)) (freqSteps s))))
                  (freqSteps s))).

Definition interpolateTransferFunction (s : simulation) (freq : double) (idxPt : Z)
    (type : tfType) : cdouble :=
  let tf := inputTf s type in
  let idxPt := match type with INPUT_IMPED => 0%Z | _ => idxPt end in
  if computed s type then
    (* "Make sure that the index of the point corresponds to an actual point" *)
    let idxPt := Z.min (cols tf) idxPt in
    if inInterval s freq
    then (interpolatedMagnitude s tf freq idxPt, finite 0)
    else (NaN, NaN)
  else (NaN, NaN).

(** The indices the interpolation reads for a frequency: the two rows, and
    the column. *)
Definition rowBelow (s : simulation) (freq : double) : Z :=
  dtruncate (ddiv freq (freqSteps s)).
Definition rowAbove (s : simulation) (freq : double) : Z :=
  Z.min (Z.of_nat (length (m_tfFreqs s)) - 1) (rowBelow s freq + 1).
Definition columnRead (s : simulation) (idxPt : Z) (type : tfType) : Z :=
  Z.min (cols (inputTf s type)) (match type with INPUT_IMPED => 0%Z | _ => idxPt end).

(** The magnitudes of the two stored values the interpolation reads. *)
Definition magnitudeBelow (s : simulation) (freq : double) (idxPt : Z) (type : tfType)
    : double :=
  cabs (coeff (inputTf s type) (rowBelow s freq) (columnRead s idxPt type)).
Definition magnitudeAbove (s : simulation) (freq : double) (idxPt : Z) (type : tfType)
    : double :=
  cabs (coeff (inputTf s type) (rowAbove s freq) (columnRead s idxPt type)).


(** *** The operations on finite values *)


Lemma sign_pos (r : R) : 0 < r -> sign r = Gt.
Proof. intro H. unfold sign. destruct (Rlt_dec 0 r); [reflexivity | contradiction]. Qed.

Lemma sign_zero (r : R) : sign r = Eq -> r = 0.
Proof.
  unfold sign. destruct (Rlt_dec 0 r); [discriminate|].
  destruct (Rlt_dec r 0); [discriminate|]. intros _. lra.
Qed.

Lemma sign_0 : sign 0 = Eq.
Proof.
  unfold sign. destruct (Rlt_dec 0 0); [lra|]. destruct (Rlt_dec 0 0); [lra | reflexivity].
Qed.

Lemma ddiv_finite (x y : R) : y <> 0 -> ddiv (finite x) (finite y) = finite (x / y).
Proof.
  intro H. cbn [ddiv]. destruct (sign y) eqn:E; try reflexivity.
  apply sign_zero in E. contradiction.
Qed.


Lemma dle_finite (x y : R) : dle (finite x) (finite y) = true <-> x <= y.
Proof.
  cbn [dle]. destruct (Rle_dec x y); split; auto; discriminate.
Qed.


(** A frequency of the interval is finite. *)
Lemma inInterval_finite (s : simulation) (freq : double) :
  inInterval s freq = true ->
  exists f : R, freq = finite f /\ nth 0 (m_tfFreqs s) 0 <= f <= last (m_tfFreqs s) 0.
Proof.
  unfold inInterval. intro H. apply andb_prop in H. destruct H as [H1 H2].
  destruct freq as [f | sgn | ].
  - exists f. split; [reflexivity|]. split; apply dle_finite; assumption.
  - cbn [dle] in H1, H2. destruct sgn; discriminate.
  - discriminate H1.
Qed.

(** The frequency step is a real number that is not zero, or plus
    infinity when [m_numFreqPicture] is zero. *)
Lemma freqSteps_cases (s : simulation) :
  (m_numFreqPicture s <> 0%Z /\
   freqSteps s = finite (IZR (Zpos SAMPLING_RATE) / 2 / IZR (m_numFreqPicture s)) /\
   IZR (Zpos SAMPLING_RATE) / 2 / IZR (m_numFreqPicture s) <> 0) \/
  (m_numFreqPicture s = 0%Z /\ freqSteps s = infinity false).
Proof.
  assert (Hrate : 0 < IZR (Zpos SAMPLING_RATE)) by (apply IZR_lt; reflexivity).
  unfold freqSteps. rewrite ddiv_finite by lra.
  destruct (Z.eq_dec (m_numFreqPicture s) 0) as [E | E].
  - right. split; [exact E|]. rewrite E. cbn [ddiv].
    rewrite sign_0, sign_pos by lra. reflexivity.
  - left. split; [exact E|].
    assert (Hn : IZR (m_numFreqPicture s) <> 0) by (apply not_0_IZR; exact E).
    split; [apply ddiv_finite; exact Hn|].
    intro H0. apply Rmult_integral in H0. destruct H0 as [H0 | H0]; [lra|].
    apply Rinv_neq_0_compat in Hn. contradiction.
Qed.


Lemma truncate_bounds (v : R) : 0 <= v -> IZR (truncate v) <= v < IZR (truncate v) + 1.
Proof.
  intro Hv. unfold truncate. destruct (Rle_dec 0 v) as [_ | Hn]; [|contradiction].
  destruct (base_Int_part v) as [H1 H2]. lra.
Qed.

(** With a positive step, a frequency that is not negative lies less than
    one step above the frequency of the row below it. *)
Lemma offset_bounds (f step : R) :
  0 <= f -> 0 < step -> 0 <= f - IZR (truncate (f / step)) * step < step.
Proof.
  intros Hf Hstep.
  assert (Hq : 0 <= f / step).
  { apply Rmult_le_pos; [exact Hf | apply Rlt_le, Rinv_0_lt_compat, Hstep]. }
  destruct (truncate_bounds _ Hq) as [H1 H2].
  assert (E : f = f / step * step) by (field; lra).
  split.
  - apply Rmult_le_compat_r with (r := step) in H1; lra.
  - apply Rmult_lt_compat_r with (r := step) in H2; lra.
Qed.

(** The frequency step for a positive [m_numFreqPicture]. *)
Lemma freqSteps_positive (s : simulation) :
  (0 < m_numFreqPicture s)%Z ->
  exists step : R, freqSteps s = finite step /\ 0 < step.
Proof.
  intro Hn.
  destruct (freqSteps_cases s) as [[_ [Hstep _]] | [H0 _]]; [|lia].
  eexists. split; [exact Hstep|].
  assert (Hrate : 0 < IZR (Zpos SAMPLING_RATE)) by (apply IZR_lt; reflexivity).
  assert (Hpos : 0 < IZR (m_numFreqPicture s)) by (apply IZR_lt; exact Hn).
  apply Rmult_lt_0_compat; [lra | apply Rinv_0_lt_compat, Hpos].
Qed.






Lemma dlog10_zero : dlog10 (finite 0) = infinity true.
Proof. cbn [dlog10]. rewrite sign_0. reflexivity. Qed.

(** From a logarithm of minus infinity at the lower row, the slope of the
    interpolation is plus infinity or NaN. *)
Lemma rising_from_minus_infinity (tf1 : double) (d step : R) :
  0 <= d -> 0 < step ->
  ddiv (dmul (dsub tf1 (infinity true)) (finite d)) (finite step) = infinity false \/
  ddiv (dmul (dsub tf1 (infinity true)) (finite d)) (finite step) = NaN.
Proof.
  intros Hd Hstep.
  assert (Hslope : dsub tf1 (infinity true) = infinity false \/
                   dsub tf1 (infinity true) = NaN).
  { destruct tf1 as [r | [|] | ]; cbn; auto. }
  destruct Hslope as [E | E]; rewrite E; [|right; reflexivity].
  destruct (Rle_lt_or_eq_dec 0 d Hd) as [Hgt | Heq].
  - left. cbn [dmul]. rewrite (sign_pos d Hgt). cbn [ddiv].
    rewrite (sign_pos step Hstep). reflexivity.
  - right. rewrite <- Heq. cbn [dmul]. rewrite sign_0. reflexivity.
Qed.


(** A stored value of magnitude zero at the lower row: its logarithm is
    minus infinity, and the value interpolated from it is NaN. *)
Lemma zero_magnitude_is_not_interpolated (s : simulation) (f : R) (idxPt : Z)
    (type : tfType) :
  0 <= f -> (0 < m_numFreqPicture s)%Z ->
  magnitudeBelow s (finite f) idxPt type = finite 0 ->
  interpolatedMagnitude s (inputTf s type) (finite f) (columnRead s idxPt type) = NaN.
Proof.
  intros Hf Hn Hzero.
  destruct (freqSteps_positive s Hn) as [step [Hstep Hpos]].
  unfold interpolatedMagnitude.
  fold (rowBelow s (finite f)). fold (rowAbove s (finite f)).
  fold (magnitudeBelow s (finite f) idxPt type). fold (magnitudeAbove s (finite f) idxPt type).
  assert (Hrow : rowBelow s (finite f) = truncate (f / step)).
  { unfold rowBelow. rewrite Hstep, ddiv_finite by lra. reflexivity. }
  rewrite Hrow, Hzero, Hstep.
  rewrite dlog10_zero.
  change (dsub (finite f) (dmul (finite (IZR (truncate (f / step)))) (finite step)))
    with (finite (f - IZR (truncate (f / step)) * step)).
  destruct (offset_bounds f step Hf Hpos) as [Hd _].
  destruct (rising_from_minus_infinity (dlog10 (magnitudeAbove s (finite f) idxPt type))
              _ step Hd Hpos) as [E | E]; rewrite E; reflexivity.
Qed.

(** *** The interpolated value between its two neighbours *)


End Interpolation.

(** The conversion of an infinity or of NaN is not reached: the result is
    the same whatever it yields. *)
Lemma undefined_conversion_not_reached (SAMPLING_RATE : positive) (u u' : Z)
    (s : simulation) (freq : double) (idxPt : Z) (type : tfType) :
  interpolateTransferFunction SAMPLING_RATE u s freq idxPt type
  = interpolateTransferFunction SAMPLING_RATE u' s freq idxPt type.
Proof.
  unfold interpolateTransferFunction.
  destruct (computed s type); [|reflexivity].
  destruct (inInterval s freq) eqn:Hi; [|reflexivity].
  destruct (inInterval_finite s freq Hi) as [f [-> _]].
  assert (Hrow : dtruncate u (ddiv (finite f) (freqSteps SAMPLING_RATE s))
                 = dtruncate u' (ddiv (finite f) (freqSteps SAMPLING_RATE s))).
  { destruct (freqSteps_cases SAMPLING_RATE s) as [[_ [Hstep Hnz]] | [_ Hstep]];
      rewrite Hstep; [rewrite ddiv_finite by exact Hnz|]; reflexivity. }
  unfold interpolatedMagnitude. rewrite Hrow. reflexivity.
Qed.

(** *** A transfer function of modulus 1, and one that was not found

    Two stored frequencies, 0 and 100 Hz, for a sampling rate of 200 Hz and
    one frequency step.  In [unitTf] every stored value is 1; in [nanTf]
    every stored value is [complex<double>(NAN, NAN)], which is what
    [acousticField] returns for a point it does not find. *)







End TransferFunction.

(** ** Import of the contours from a CSV file

    [Acoustic3dSimulation::extractContoursFromCsvFile].  The file is the
    list of its lines, as [getline(geoFile, line)] yields them; a line is
    read through the list of its fields, as [getline(stream, field, ';')]
    yields them.  [std::stod] throws [std::invalid_argument], which the
    functions catch, or [std::out_of_range], which they do not: the
    exception then leaves the function. *)

Module CsvImport.

Definition Point : Type := (Q * Q)%type.
Definition Polygon_2 : Type := list Point.

Record Point2D : Type := mkPoint2D { px : Q; py : Q }.

(** The fields of a line: what successive calls of
    [getline(stream, field, ';')] return until one fails.  A field ends at
    a separator or at the end of the line; after a final separator there is
    no further field. *)
Fixpoint fields (line : string) : list string :=
  match line with
  | EmptyString => []
  | String c rest =>
    if Ascii.eqb c ";"%char then EmptyString :: fields rest
    else match fields rest with
         | [] => [String c EmptyString]
         | field :: others => String c field :: others
         end
  end.

(** The string made of a carriage return. *)
Definition carriageReturn : string := String "013"%char EmptyString.

(** [*itFirst == *itLast] on CGAL points *)
Definition Point_eqb (p q : Point) : bool :=
  Qeq_bool (fst p) (fst q) && Qeq_bool (snd p) (snd q).

(** The variables of the function that keep their value from one slice to
    the next. *)
Record locals : Type := mkLocals {
  ctlPt : Point2D;
  normalVec : Point2D;
  scalings : Q * Q;
  x : Q;
  y : Q
}.

(** The five vectors the function fills. *)
Record geometry : Type := mkGeometry {
  contours : list (list Polygon_2);
  surfaceIdx : list (list (list Z));
  centerLine : list Point2D;
  normals : list Point2D;
  scalingFactors : list (Q * Q)
}.

Definition noGeometry : geometry := mkGeometry [] [] [] [] [].

(** What [std::stod] does with a string: the number it converts, or the
    exception it throws. *)
Inductive conversion : Type :=
| converted (v : Q)
| invalid_argument
| out_of_range.

(** The outcome of a computation that an exception may leave: the value it
    returns, or [thrown] when a [std::out_of_range] that nothing catches
    leaves it. *)
Inductive outcome (A : Type) : Type :=
| returned (a : A)
| thrown.

Arguments returned {A} a.
Arguments thrown {A}.

Definition bind {A B : Type} (c : outcome A) (f : A -> outcome B) : outcome B :=
  match c with
  | returned a => f a
  | thrown => thrown
  end.

Notation "' pat <- c ;; f" :=
  (bind c (fun x => match x with pat => f end))
  (at level 61, pat pattern, c at next level, right associativity).

Section Reading.

(** [std::stod] *)
Variable stod : string -> conversion.
(** [Point2D::normalize] *)
Variable normalize : Point2D -> Point2D.
(** [CGAL::Polyline_simplification_2::simplify(contour, cost, Stop(0.5))] *)
Variable simplify : Polygon_2 -> Polygon_2.

(** The lambda [strToDouble]: the new value of [result] and of [abort].
    Its handler catches [std::invalid_argument] only. *)
Definition strToDouble (str : string) (result : Q) (abort : bool) : outcome (Q * bool) :=
  match stod str with
  | converted v => returned (v, abort)
  | invalid_argument =>
    returned (result, if String.eqb str carriageReturn then abort else true)
  | out_of_range => thrown
  end.

(** "extract contour": the loop
    [while (getline(lineX, coordX, separator) && (coordX.length() > 0))],
    on the fields left in the two lines; it returns [x], [y], [abort] and
    the polygon. *)
Fixpoint readContour (fieldsX fieldsY : list string) (x y : Q) (abort : bool)
    (contour : Polygon_2) : outcome (Q * Q * bool * Polygon_2) :=
  match fieldsX with
  | [] => returned (x, y, abort, contour)
  | coordX :: fieldsX' =>
    if (String.length coordX =? 0)%nat then returned (x, y, abort, contour)
    else
      match fieldsY with
      | [] => returned (x, y, true, contour)
      | coordY :: fieldsY' =>
        '(x', abort1) <- strToDouble coordX x abort ;;
        '(y', abort2) <- strToDouble coordY y abort1 ;;
        if abort2 then returned (x', y', true, contour)
        else readContour fieldsX' fieldsY' x' y' abort2 (contour ++ [(x', y')])
      end
  end.

(** One turn of the loop over the lines, up to "check if there is at least
    3 points in each contour": the centerline point, the normal, the scaling
    factors and the polygon read from two lines; [None] when the turn
    leaves the loop with [abort] set. *)
Definition parseRaw (loc : locals) (lineX lineY : string)
    : outcome (option (locals * Polygon_2)) :=
  match fields lineX, fields lineY with
  | coordX0 :: fieldsX1, coordY0 :: fieldsY1 =>
    '(cx, abort1) <- strToDouble coordX0 (px (ctlPt loc)) false ;;
    '(cy, abort2) <- strToDouble coordY0 (py (ctlPt loc)) abort1 ;;
    match fieldsX1 with
    | [] => returned None
    | coordX1 :: fieldsX2 =>
      if abort2 then returned None else
      match fieldsY1 with
      | [] => returned None
      | coordY1 :: fieldsY2 =>
        '(nx, abort3) <- strToDouble coordX1 (px (normalVec loc)) abort2 ;;
        '(ny, abort4) <- strToDouble coordY1 (py (normalVec loc)) abort3 ;;
        let normal := normalize (mkPoint2D nx ny) in
        match fieldsX2 with
        | [] => returned None
        | coordX2 :: fieldsX3 =>
          if abort4 then returned None else
          match fieldsY2 with
          | [] => returned None
          | coordY2 :: fieldsY3 =>
            '(s1, abort5) <- strToDouble coordX2 (fst (scalings loc)) abort4 ;;
            '(s2, abort6) <- strToDouble coordY2 (snd (scalings loc)) abort5 ;;
            '(x', y', abort7, contour) <-
              readContour fieldsX3 fieldsY3 (x loc) (y loc) abort6 [] ;;
            if abort7 then returned None
            else returned (Some (mkLocals (mkPoint2D cx cy) normal (s1, s2) x' y', contour))
          end
        end
      end
    end
  | _, _ => returned None
  end.

(** "check if there is at least 3 points in each contour" *)
Definition parseSlice (loc : locals) (lineX lineY : string)
    : outcome (option (locals * Polygon_2)) :=
  match parseRaw loc lineX lineY with
  | thrown => thrown
  | returned None => returned None
  | returned (Some (loc', contour)) =>
    returned (if (length contour <? 3)%nat then None else Some (loc', contour))
  end.

(** "remove the last point if it is identical to the first point" *)
Definition dropRepeatedFirst (contour : Polygon_2) : Polygon_2 :=
  match contour with
  | [] => []
  | first :: _ => if Point_eqb first (last contour first) then removelast contour else contour
  end.

(** "if requested, simplify the contour removing points which are close" *)
Definition simplified (simplifyContours : bool) (contour : Polygon_2) : Polygon_2 :=
  if simplifyContours && (10 <? length contour)%nat then simplify contour else contour.

(** The contour that is stored for a polygon read from the file. *)
Definition storedContour (simplifyContours : bool) (contour : Polygon_2) : Polygon_2 :=
  simplified simplifyContours (dropRepeatedFirst contour).

(** The pushes of a turn that did not abort. *)
Definition store (simplifyContours : bool) (geo : geometry) (loc : locals)
    (contour : Polygon_2) : geometry :=
  let kept := storedContour simplifyContours contour in
  mkGeometry (contours geo ++ [[kept]])
             (surfaceIdx geo ++ [[repeat 0%Z (length kept)]])
             (centerLine geo ++ [ctlPt loc])
             (normals geo ++ [normalVec loc])
             (scalingFactors geo ++ [scalings loc]).

(** [while (getline(geoFile, line))]: the value of [abort] when the loop is
    left, or [thrown] when an exception leaves it, and the vectors as they
    are then. *)
Fixpoint readSlices (simplifyContours : bool) (lines : list string) (loc : locals)
    (geo : geometry) : outcome bool * geometry :=
  match lines with
  | [] => (returned false, geo)
  | lineX :: rest =>
    match rest with
    | [] => (returned true, geo)
    | lineY :: rest' =>
      match parseSlice loc lineX lineY with
      | thrown => (thrown, geo)
      | returned None => (returned true, geo)
      | returned (Some (loc', contour)) =>
        readSlices simplifyContours rest' loc' (store simplifyContours geo loc' contour)
      end
    end
  end.

(** The function: [geoFile] is [None] when the file cannot be opened and
    has no line when it is empty; [loc] holds the initial values of the
    local variables, [geo] the vectors passed by reference.  It gives the
    value returned, or [thrown], and the vectors. *)
Definition extractContoursFromCsvFile (geoFile : option (list string))
    (simplifyContours : bool) (loc : locals) (geo : geometry) : outcome bool * geometry :=
  match geoFile with
  | None => (returned false, geo)
  | Some [] => (returned false, geo)
  | Some lines =>
    match readSlices simplifyContours lines loc geo with
    | (thrown, geo') => (thrown, geo')
    | (returned abort, geo') =>
      let abort := if (length (contours geo') <? 2)%nat then true else abort in
      (returned (negb abort), geo')
    end
  end.

(** *** The turns of the loop *)


(** [Reaches lines loc geo lines' loc' geo']: the loop, entered with
    [lines] to read, comes back to its head with [lines'] left to read,
    after turns that all stored their slice. *)
Inductive Reaches (simplifyContours : bool) :
  list string -> locals -> geometry -> list string -> locals -> geometry -> Prop :=
| Reaches_head (lines : list string) (loc : locals) (geo : geometry) :
    Reaches simplifyContours lines loc geo lines loc geo
| Reaches_turn (lineX lineY : string) (rest : list string) (loc : locals) (geo : geometry)
    (loc' : locals) (contour : Polygon_2)
    (lines'' : list string) (loc'' : locals) (geo'' : geometry) :
    parseSlice loc lineX lineY = returned (Some (loc', contour)) ->
    Reaches simplifyContours rest loc' (store simplifyContours geo loc' contour)
      lines'' loc'' geo'' ->
    Reaches simplifyContours (lineX :: lineY :: rest) loc geo lines'' loc'' geo''.

Lemma readSlices_Reaches (simplifyContours : bool) (lines : list string) (loc : locals)
    (geo : geometry) (lines' : list string) (loc' : locals) (geo' : geometry) :
  Reaches simplifyContours lines loc geo lines' loc' geo' ->
  readSlices simplifyContours lines loc geo = readSlices simplifyContours lines' loc' geo'.
Proof.
  induction 1 as [|lineX lineY rest loc geo loc1 contour lines2 loc2 geo2 Hparse _ IH];
    [reflexivity|].
  cbn [readSlices]. rewrite Hparse. exact IH.
Qed.


(** *** Files without a number out of range *)

(** [stod] does not throw [std::out_of_range] on the string. *)
Definition convertible (str : string) : bool :=
  match stod str with
  | out_of_range => false
  | _ => true
  end.

(** No field of the lines is out of range. *)
Definition inRange (lines : list string) : bool :=
  forallb (fun line => forallb convertible (fields line)) lines.

Lemma strToDouble_returns (str : string) (result : Q) (abort : bool) :
  convertible str = true ->
  exists r : Q * bool, strToDouble str result abort = returned r.
Proof.
  unfold convertible, strToDouble. destruct (stod str); intro H.
  - eexists. reflexivity.
  - eexists. reflexivity.
  - discriminate H.
Qed.


Tactic Notation "convert_field" ident(v) ident(flag) :=
  match goal with
  | H : convertible ?str = true |- context [strToDouble ?str ?result ?abort] =>
    let E := fresh "E" in
    destruct (strToDouble_returns str result abort H) as [[v flag] E];
    rewrite E; cbn [bind]
  end.





(** The value the function returns on a file that has lines, from the loop. *)
Lemma extractContoursFromCsvFile_result (simplifyContours : bool) (line : string)
    (rest : list string) (loc0 : locals) (geo : geometry) :
  let r := readSlices simplifyContours (line :: rest) loc0 geo in
  extractContoursFromCsvFile (Some (line :: rest)) simplifyContours loc0 geo
  = (match fst r with
     | returned abort =>
       returned (negb (if (length (contours (snd r)) <? 2)%nat then true else abort))
     | thrown => thrown
     end, snd r).
Proof.
  unfold extractContoursFromCsvFile.
  destruct (readSlices simplifyContours (line :: rest) loc0 geo) as [[abort|] geo'];
    reflexivity.
Qed.


(** A number out of range in the first field of a slice the loop reaches,
    when the second line of the slice has a field: the exception leaves the
    function, which returns nothing, and the vectors hold the slices stored
    before. *)
Theorem out_of_range_leaves_the_import (lines : list string) (simplifyContours : bool)
    (loc0 : locals) (lineX lineY : string) (rest : list string) (loc : locals)
    (geo : geometry) (coordX : string) (fieldsX : list string)
    (Hreach : Reaches simplifyContours lines loc0 noGeometry (lineX :: lineY :: rest) loc geo)
    (Hfield : fields lineX = coordX :: fieldsX)
    (Hfields : fields lineY <> [])
    (Hrange : stod coordX = out_of_range) :
  extractContoursFromCsvFile (Some lines) simplifyContours loc0 noGeometry = (thrown, geo).
Proof.
  destruct lines as [|l0 ls].
  { inversion Hreach. }
  rewrite extractContoursFromCsvFile_result. cbv zeta.
  rewrite (readSlices_Reaches _ _ _ _ _ _ _ Hreach).
  cbn [readSlices]. unfold parseSlice, parseRaw. rewrite Hfield.
  destruct (fields lineY) as [|coordY fieldsY]; [contradiction|].
  assert (E : forall (result : Q) (abort : bool), strToDouble coordX result abort = thrown).
  { intros result abort. unfold strToDouble. rewrite Hrange. reflexivity. }
  rewrite !E. reflexivity.
Qed.

(** *** The points of the transfer functions

    [Acoustic3dSimulation::setTFPointsFromCsvFile]: one point for each line
    of the file, from its first three numbers. *)

Definition Point_3 : Type := (Q * Q * Q)%type.

(** [coord[cnt] = v] for [cnt] below 3 *)
Definition setCoord (coord : Point_3) (cnt : nat) (v : Q) : Point_3 :=
  match coord, cnt with
  | (_, b, c), 0%nat => (v, b, c)
  | (a, _, c), 1%nat => (a, v, c)
  | (a, b, _), _ => (a, b, v)
  end.

(** [while (getline(coordLine, coordStr, separator) && (cnt < 3))], on the
    fields left in the line: the array [coord] and the count [cnt] when the
    loop is left.  The message of a failed conversion goes to the log; the
    handler catches [std::invalid_argument] only. *)
Fixpoint readCoordinates (fieldsLeft : list string) (coord : Point_3) (cnt : nat)
    : outcome (Point_3 * nat) :=
  match fieldsLeft with
  | [] => returned (coord, cnt)
  | coordStr :: rest =>
    if (cnt <? 3)%nat then
      if (0 <? String.length coordStr)%nat then
        match stod coordStr with
        | converted v => readCoordinates rest (setCoord coord cnt v) (S cnt)
        | invalid_argument => readCoordinates rest coord cnt
        | out_of_range => thrown
        end
      else readCoordinates rest coord cnt
    else returned (coord, cnt)
  end.

(** [while (getline(inputFile, line))]: [coord] keeps its values from one
    line to the next.  It gives [thrown] when an exception leaves the
    loop, and the points pushed so far. *)
Fixpoint readPoints (lines : list string) (coord : Point_3) (tfPoint : list Point_3)
    : outcome unit * list Point_3 :=
  match lines with
  | [] => (returned tt, tfPoint)
  | line :: rest =>
    match readCoordinates (fields line) coord 0 with
    | thrown => (thrown, tfPoint)
    | returned (coord', cnt) =>
      if (cnt <? 3)%nat then readPoints rest coord' tfPoint
      else readPoints rest coord' (tfPoint ++ [coord'])
    end
  end.

(** The function: [inputFile] is [None] when the file cannot be opened and
    has no line when it is empty; [coord] is the array of the function, not
    initialised; [tfPoint] is [m_simuParams.tfPoint] on entry.  It gives
    the value returned, or [thrown], and [m_simuParams.tfPoint]. *)
Definition setTFPointsFromCsvFile (inputFile : option (list string)) (coord : Point_3)
    (tfPoint : list Point_3) : outcome bool * list Point_3 :=
  match inputFile with
  | None => (returned false, tfPoint)
  | Some [] => (returned false, tfPoint)
  | Some lines =>
    match readPoints lines coord [] with
    | (thrown, points) => (thrown, points)
    | (returned _, points) => (returned (0 <? length points)%nat, points)
    end
  end.

(** The numbers of a line: its fields that are not empty and that [stod]
    converts, in order. *)
Definition numbersOf (fieldsOfLine : list string) : list Q :=
  flat_map (fun coordStr =>
              if (0 <? String.length coordStr)%nat then
                match stod coordStr with
                | converted v => [v]
                | _ => []
                end
              else [])
           fieldsOfLine.

(** The point of a line, when the line has three numbers. *)
Definition pointOf (line : string) : list Point_3 :=
  match numbersOf (fields line) with
  | a :: b :: c :: _ => [(a, b, c)]
  | _ => []
  end.

(** [coord] after the numbers [ns] are stored from the position [cnt] on. *)
Fixpoint fillFrom (coord : Point_3) (cnt : nat) (ns : list Q) : Point_3 :=
  match ns with
  | [] => coord
  | v :: ns' => if (cnt <? 3)%nat then fillFrom (setCoord coord cnt v) (S cnt) ns' else coord
  end.

Lemma readCoordinates_numbers (fieldsLeft : list string) :
  forall (coord : Point_3) (cnt : nat),
    forallb convertible fieldsLeft = true ->
    readCoordinates fieldsLeft coord cnt
    = returned (fillFrom coord cnt (numbersOf fieldsLeft),
                if (cnt <? 3)%nat then Nat.min 3 (cnt + length (numbersOf fieldsLeft))
                else cnt).
Proof.
  induction fieldsLeft as [|coordStr rest IH]; intros coord cnt Hrange.
  - cbn [readCoordinates numbersOf flat_map fillFrom length].
    destruct (cnt <? 3)%nat eqn:E; [|reflexivity].
    apply Nat.ltb_lt in E. rewrite Nat.add_0_r, Nat.min_r by lia. reflexivity.
  - cbn [forallb] in Hrange. apply andb_prop in Hrange. destruct Hrange as [Hfield Hrange].
    cbn [readCoordinates]. unfold numbersOf. cbn [flat_map]. fold (numbersOf rest).
    unfold convertible in Hfield.
    destruct (cnt <? 3)%nat eqn:E.
    + apply Nat.ltb_lt in E.
      destruct (0 <? String.length coordStr)%nat.
      * destruct (stod coordStr) as [v| |]; [| |discriminate Hfield].
        -- rewrite (IH _ _ Hrange). cbn [app fillFrom length].
           replace (cnt <? 3)%nat with true by (symmetry; apply Nat.ltb_lt; exact E).
           f_equal. f_equal. destruct (S cnt <? 3)%nat eqn:E'.
           ++ f_equal. lia.
           ++ apply Nat.ltb_ge in E'. rewrite Nat.min_l by lia. lia.
        -- rewrite (IH _ _ Hrange). cbn [app].
           replace (cnt <? 3)%nat with true by (symmetry; apply Nat.ltb_lt; exact E).
           reflexivity.
      * rewrite (IH _ _ Hrange). cbn [app].
        replace (cnt <? 3)%nat with true by (symmetry; apply Nat.ltb_lt; exact E).
        reflexivity.
    + destruct (_ ++ _); cbn [fillFrom]; rewrite ?E; reflexivity.
Qed.

Lemma readPoints_pointOf (lines : list string) :
  forall (coord : Point_3) (tfPoint : list Point_3),
    inRange lines = true ->
    readPoints lines coord tfPoint = (returned tt, tfPoint ++ flat_map pointOf lines).
Proof.
  induction lines as [|line rest IH]; intros coord tfPoint Hrange;
    cbn [readPoints flat_map].
  - rewrite app_nil_r. reflexivity.
  - unfold inRange in Hrange. cbn [forallb] in Hrange.
    apply andb_prop in Hrange. destruct Hrange as [Hline Hrange].
    rewrite (readCoordinates_numbers _ _ _ Hline). cbn [Nat.ltb Nat.leb Nat.add].
    unfold pointOf at 1.
    destruct (numbersOf (fields line)) as [|a [|b [|c ns]]]; cbn [length Nat.min Nat.ltb Nat.leb];
      try (rewrite (IH _ _ Hrange); reflexivity).
    rewrite (IH _ _ Hrange), <- app_assoc. cbn [app fillFrom Nat.ltb Nat.leb].
    destruct coord as [[x0 y0] z0]. destruct ns; reflexivity.
Qed.

(** When the file cannot be opened or is empty the result is [false] and
    the points of the simulation are kept.  On a file without a number
    out of range the function returns, and the points are replaced, also
    when the result is [false]: each line that has at least three numbers
    (fields that are not empty and that [stod] converts) gives one point,
    made of its first three numbers; the other lines and the other fields
    are skipped, and nothing is carried from one line to the next; the
    result is [true] exactly when there is at least one point.  On a file
    whose first field is a number out of range, the exception leaves the
    function, after it has cleared the points of the simulation. *)
Theorem tf_points_are_the_three_number_lines (coord : Point_3) (tfPoint : list Point_3)
    (line : string) (rest : list string)
    (Hrange : inRange (line :: rest) = true) :
  setTFPointsFromCsvFile None coord tfPoint = (returned false, tfPoint) /\
  setTFPointsFromCsvFile (Some []) coord tfPoint = (returned false, tfPoint) /\
  setTFPointsFromCsvFile (Some (line :: rest)) coord tfPoint
  = (returned (0 <? length (flat_map pointOf (line :: rest)))%nat,
     flat_map pointOf (line :: rest)) /\
  (forall (line' coordStr : string) (others rest' : list string),
      fields line' = coordStr :: others ->
      (0 < String.length coordStr)%nat ->
      stod coordStr = out_of_range ->
      setTFPointsFromCsvFile (Some (line' :: rest')) coord tfPoint = (thrown, [])).
Proof.
  split; [reflexivity|]. split; [reflexivity|]. split.
  - unfold setTFPointsFromCsvFile. rewrite (readPoints_pointOf _ _ _ Hrange). reflexivity.
  - intros line' coordStr others rest' Hfields Hlength Hout.
    unfold setTFPointsFromCsvFile. cbn [readPoints]. rewrite Hfields.
    cbn [readCoordinates]. rewrite Hout.
    destruct (String.length coordStr); [lia | reflexivity].
Qed.

(** *** The geometry written by exportGeoInCsv, read back

    [Acoustic3dSimulation::exportGeoInCsv] writes two lines for each
    section that is not a junction section. *)

(** [stream << v]: the characters written for a double. *)
Variable show : Q -> string.

(** What the export reads of a cross-section. *)
Record exportedSection : Type := mkExported {
  isJunction : bool;
  ctrLinePt : Point2D;
  normal : Point2D;
  ctrLinePtOut : Point2D;
  normalOut : Point2D;
  scaleIn : Q;
  scaleOut : Q;
  m_contour : Polygon_2
}.

(** [str << v << separator] for each value in turn *)
Fixpoint written (values : list Q) : string :=
  match values with
  | [] => EmptyString
  | v :: rest => String.append (show v) (String ";"%char (written rest))
  end.

(** [Pt] and [N]: taken at the exit for the last segment. *)
Definition exportedPoint (isLast : bool) (sec : exportedSection) : Point2D :=
  if isLast then ctrLinePtOut sec else ctrLinePt sec.
Definition exportedNormal (isLast : bool) (sec : exportedSection) : Point2D :=
  if isLast then normalOut sec else normal sec.

(** The contour as it is written, scaled by [scaleIn]. *)
Definition scaledContour (sec : exportedSection) : Polygon_2 :=
  map (fun pt => (scaleIn sec * fst pt, scaleIn sec * snd pt)) (m_contour sec).

Definition valuesX (isLast : bool) (sec : exportedSection) : list Q :=
  px (exportedPoint isLast sec) :: px (exportedNormal isLast sec) :: scaleIn sec
  :: map fst (scaledContour sec).
Definition valuesY (isLast : bool) (sec : exportedSection) : list Q :=
  py (exportedPoint isLast sec) :: py (exportedNormal isLast sec) :: scaleOut sec
  :: map snd (scaledContour sec).

(** The lines of the file, for the sections from [i] on. *)
Fixpoint exportedLines (m_crossSections : list exportedSection) : list string :=
  match m_crossSections with
  | [] => []
  | sec :: rest =>
    let isLast := match rest with [] => true | _ :: _ => false end in
    if isJunction sec then exportedLines rest
    else written (valuesX isLast sec) :: written (valuesY isLast sec) :: exportedLines rest
  end.

(** [exportGeoInCsv]: its result and the lines written, [None] when the
    file cannot be opened. *)
Definition exportGeoInCsv (opened : bool) (m_crossSections : list exportedSection)
    : bool * option (list string) :=
  if opened then (true, Some (exportedLines m_crossSections)) else (false, None).

(** What the import is expected to find for the sections written. *)
Fixpoint exportedSlices (m_crossSections : list exportedSection)
    : list (Point2D * Point2D * (Q * Q) * Polygon_2) :=
  match m_crossSections with
  | [] => []
  | sec :: rest =>
    let isLast := match rest with [] => true | _ :: _ => false end in
    if isJunction sec then exportedSlices rest
    else (exportedPoint isLast sec, exportedNormal isLast sec,
          (scaleIn sec, scaleOut sec), scaledContour sec) :: exportedSlices rest
  end.

(** All the numbers the export writes. *)
Fixpoint writtenValues (m_crossSections : list exportedSection) : list Q :=
  match m_crossSections with
  | [] => []
  | sec :: rest =>
    let isLast := match rest with [] => true | _ :: _ => false end in
    if isJunction sec then writtenValues rest
    else (valuesX isLast sec ++ valuesY isLast sec ++ writtenValues rest)%list
  end.

(** No character of the string is the separator. *)
Fixpoint separatorFree (s : string) : bool :=
  match s with
  | EmptyString => true
  | String c rest => negb (Ascii.eqb c ";"%char) && separatorFree rest
  end.

(** A number that is written and read back as itself: its characters hold
    no separator, there is at least one, and [stod] converts them to the
    number. *)
Definition readable (v : Q) : Prop :=
  stod (show v) = converted v /\ separatorFree (show v) = true
  /\ (0 < String.length (show v))%nat.

Lemma fields_append (s rest : string) :
  separatorFree s = true ->
  fields (String.append s (String ";"%char rest)) = s :: fields rest.
Proof.
  induction s as [|c s IH]; intro H; cbn [String.append fields].
  - reflexivity.
  - cbn [separatorFree] in H. apply andb_prop in H. destruct H as [Hc Hs].
    apply negb_true_iff in Hc. rewrite Hc, (IH Hs). reflexivity.
Qed.

Lemma fields_written (values : list Q) :
  (forall v : Q, In v values -> readable v) ->
  fields (written values) = map show values.
Proof.
  induction values as [|v rest IH]; intro H; cbn [written map]; [reflexivity|].
  rewrite fields_append by (apply (H v); left; reflexivity).
  rewrite IH by (intros w Hw; apply H; right; exact Hw). reflexivity.
Qed.

Lemma strToDouble_readable (v result : Q) (abort : bool) :
  readable v -> strToDouble (show v) result abort = returned (v, abort).
Proof. intros [H _]. unfold strToDouble. rewrite H. reflexivity. Qed.

Lemma readContour_written (pts : Polygon_2) :
  forall (x y : Q) (acc : Polygon_2),
    (forall p : Point, In p pts -> readable (fst p) /\ readable (snd p)) ->
    exists x' y' : Q,
      readContour (map show (map fst pts)) (map show (map snd pts)) x y false acc
      = returned (x', y', false, (acc ++ pts)%list).
Proof.
  induction pts as [|p pts IH]; intros x y acc H; cbn [map readContour].
  - exists x, y. rewrite app_nil_r. reflexivity.
  - destruct (H p (or_introl eq_refl)) as [Hx Hy].
    replace (String.length (show (fst p)) =? 0)%nat with false
      by (symmetry; apply Nat.eqb_neq; destruct Hx as [_ [_ Hl]]; lia).
    rewrite (strToDouble_readable _ _ _ Hx). cbn [bind].
    rewrite (strToDouble_readable _ _ _ Hy). cbn [bind].
    destruct (IH (fst p) (snd p) (acc ++ [(fst p, snd p)])%list) as [x' [y' E]].
    { intros q Hq. apply H. right. exact Hq. }
    exists x', y'. rewrite E. rewrite <- app_assoc. cbn [app].
    destruct p as [a b]. reflexivity.
Qed.

(** The two lines of a section, read by one turn of the import. *)
Lemma parseSlice_written (isLast : bool) (sec : exportedSection) (loc : locals) :
  (forall v : Q, In v (valuesX isLast sec ++ valuesY isLast sec)%list -> readable v) ->
  (3 <= length (m_contour sec))%nat ->
  exists loc' : locals,
    parseSlice loc (written (valuesX isLast sec)) (written (valuesY isLast sec))
    = returned (Some (loc', scaledContour sec)) /\
    ctlPt loc' = mkPoint2D (px (exportedPoint isLast sec)) (py (exportedPoint isLast sec)) /\
    normalVec loc'
    = normalize (mkPoint2D (px (exportedNormal isLast sec)) (py (exportedNormal isLast sec))) /\
    scalings loc' = (scaleIn sec, scaleOut sec).
Proof.
  intros Hread Hsize.
  assert (HX : forall v, In v (valuesX isLast sec) -> readable v)
    by (intros v Hv; apply Hread, in_or_app; left; exact Hv).
  assert (HY : forall v, In v (valuesY isLast sec) -> readable v)
    by (intros v Hv; apply Hread, in_or_app; right; exact Hv).
  unfold parseSlice, parseRaw.
  rewrite (fields_written _ HX), (fields_written _ HY).
  unfold valuesX, valuesY in *. cbn [map].
  rewrite (strToDouble_readable _ _ _ (HX _ (or_introl eq_refl))). cbn [bind].
  rewrite (strToDouble_readable _ _ _ (HY _ (or_introl eq_refl))). cbn [bind].
  rewrite (strToDouble_readable _ _ _ (HX _ (or_intror (or_introl eq_refl)))). cbn [bind].
  rewrite (strToDouble_readable _ _ _ (HY _ (or_intror (or_introl eq_refl)))). cbn [bind].
  rewrite (strToDouble_readable _ _ _ (HX _ (or_intror (or_intror (or_introl eq_refl))))).
  cbn [bind].
  rewrite (strToDouble_readable _ _ _ (HY _ (or_intror (or_intror (or_introl eq_refl))))).
  cbn [bind].
  destruct (readContour_written (scaledContour sec) (x loc) (y loc) []) as [x' [y' E]].
  { intros p Hp. split.
    - apply HX. right. right. right. apply in_map. exact Hp.
    - apply HY. right. right. right. apply in_map. exact Hp. }
  rewrite E. cbn [app bind].
  replace (length (scaledContour sec) <? 3)%nat with false
    by (symmetry; apply Nat.ltb_ge; unfold scaledContour; rewrite length_map; exact Hsize).
  eexists. split; [reflexivity|]. cbn [ctlPt normalVec scalings]. repeat split.
Qed.

(** The vectors of the import after the slices [slices] are stored. *)
Definition withSlices (geo : geometry)
    (slices : list (Point2D * Point2D * (Q * Q) * Polygon_2)) : geometry :=
  mkGeometry
    (contours geo ++ map (fun r => [dropRepeatedFirst (snd r)]) slices)%list
    (surfaceIdx geo
     ++ map (fun r => [repeat 0%Z (length (dropRepeatedFirst (snd r)))]) slices)%list
    (centerLine geo ++ map (fun r => fst (fst (fst r))) slices)%list
    (normals geo ++ map (fun r => normalize (snd (fst (fst r)))) slices)%list
    (scalingFactors geo ++ map (fun r => snd (fst r)) slices)%list.

Lemma Point2D_eta (p : Point2D) : mkPoint2D (px p) (py p) = p.
Proof. destruct p. reflexivity. Qed.

Lemma readSlices_exported (m_crossSections : list exportedSection) :
  forall (loc : locals) (geo : geometry),
    (forall v : Q, In v (writtenValues m_crossSections) -> readable v) ->
    (forall sec : exportedSection,
        In sec m_crossSections -> isJunction sec = false ->
        (3 <= length (m_contour sec))%nat) ->
    readSlices false (exportedLines m_crossSections) loc geo
    = (returned false, withSlices geo (exportedSlices m_crossSections)).
Proof.
  induction m_crossSections as [|sec rest IH]; intros loc geo Hread Hsize.
  - unfold withSlices. cbn [exportedLines exportedSlices readSlices map].
    rewrite !app_nil_r. destruct geo. reflexivity.
  - cbn [exportedLines exportedSlices writtenValues] in *.
    set (isLast := match rest with [] => true | _ :: _ => false end) in *.
    destruct (isJunction sec) eqn:Ej.
    + apply IH; [exact Hread|]. intros s Hs. apply Hsize. right. exact Hs.
    + cbn [readSlices].
      destruct (parseSlice_written isLast sec loc) as [loc' [Hp [Hc [Hn Hs]]]].
      { intros v Hv. apply Hread. rewrite app_assoc. apply in_or_app. left. exact Hv. }
      { apply Hsize; [left; reflexivity | exact Ej]. }
      rewrite Hp. rewrite IH.
      * unfold withSlices, store, storedContour, simplified.
        cbn [andb contours surfaceIdx centerLine normals scalingFactors map fst snd].
        rewrite Hc, Hn, Hs, !Point2D_eta, <- !app_assoc. reflexivity.
      * intros v Hv. apply Hread. apply in_or_app. right. apply in_or_app. right. exact Hv.
      * intros s Hin. apply Hsize. right. exact Hin.
Qed.

(** What [exportGeoInCsv] writes, [extractContoursFromCsvFile] reads back
    (without the simplification of the contours): when every number written
    is readable, every section that is not a junction has at least three
    contour points and there are at least two such sections, the import
    succeeds and finds, for each of these sections in order, its
    centerline point (the exit point for the last section), its normal
    normalised, its two scaling factors, and its contour scaled by
    [scaleIn], minus its last point if that repeats the first one.  The
    junction sections are not written. *)
Theorem csv_export_is_read_back (m_crossSections : list exportedSection) (loc : locals)
    (Hread : forall v : Q, In v (writtenValues m_crossSections) -> readable v)
    (Hsize : forall sec : exportedSection,
        In sec m_crossSections -> isJunction sec = false ->
        (3 <= length (m_contour sec))%nat)
    (Htwo : (2 <= length (exportedSlices m_crossSections))%nat) :
  exists lines : list string,
    exportGeoInCsv true m_crossSections = (true, Some lines) /\
    extractContoursFromCsvFile (Some lines) false loc noGeometry
    = (returned true, withSlices noGeometry (exportedSlices m_crossSections)).
Proof.
  exists (exportedLines m_crossSections). split; [reflexivity|].
  unfold extractContoursFromCsvFile.
  rewrite (readSlices_exported m_crossSections loc noGeometry Hread Hsize).
  assert (Hlen : length (contours (withSlices noGeometry (exportedSlices m_crossSections)))
                 = length (exportedSlices m_crossSections)).
  { unfold withSlices. cbn [contours noGeometry app]. apply length_map. }
  destruct (exportedLines m_crossSections) as [|l0 ls] eqn:El.
  - exfalso.
    assert (Hnil : exportedSlices m_crossSections = []).
    { clear -El. induction m_crossSections as [|sec rest IH]; [reflexivity|].
      cbn [exportedLines exportedSlices] in *.
      destruct (isJunction sec); [apply IH, El | discriminate]. }
    rewrite Hnil in Htwo. simpl in Htwo. lia.
  - rewrite Hlen.
    replace (length (exportedSlices m_crossSections) <? 2)%nat with false
      by (symmetry; apply Nat.ltb_ge; exact Htwo).
    reflexivity.
Qed.

End Reading.

(** *** A file of two slices

    A [stod] for the strings of the files below: the integers written in
    decimal are converted, 1e999 lies beyond the largest double, and the
    other strings do not start with a number.  The normals are already of
    unit length and nothing is simplified. *)

Fixpoint digitsValue (s : string) (acc : Z) : option Z :=
  match s with
  | EmptyString => Some acc
  | String c rest =>
    let n := nat_of_ascii c in
    if ((48 <=? n) && (n <=? 57))%nat
    then digitsValue rest (10 * acc + Z.of_nat (n - 48))%Z
    else None
  end.

Definition integerStod (s : string) : option Q :=
  match s with
  | EmptyString => None
  | String c rest =>
    if Ascii.eqb c "-"%char
    then match rest with
         | EmptyString => None
         | _ => option_map (fun v => inject_Z (- v)) (digitsValue rest 0)
         end
    else option_map inject_Z (digitsValue s 0)
  end.

Definition fileStod (s : string) : conversion :=
  if String.eqb s "1e999" then out_of_range
  else match integerStod s with
       | Some v => converted v
       | None => invalid_argument
       end.

Definition unitSquareFile : list string :=
  [ "0;0;1;0;1;1;0;0"%string; "0;1;1;0;0;1;1;0"%string;
    "2;0;1;0;1;1;0"%string;   "0;1;1;0;0;1;1"%string ].

Definition startLocals : locals := mkLocals (mkPoint2D 0 0) (mkPoint2D 0 0) (0, 0) 0 0.

(** The first slice repeats its first point at the end and is stored
    without it; the second does not. *)
Lemma unitSquareFile_import :
  fields "0;0;1;0;1;1;0;0"%string
    = ["0"; "0"; "1"; "0"; "1"; "1"; "0"; "0"]%string /\
  parseRaw fileStod (fun p => p) startLocals
    "0;0;1;0;1;1;0;0"%string "0;1;1;0;0;1;1;0"%string
    = returned (Some (mkLocals (mkPoint2D 0 0) (mkPoint2D 0 1) (1, 1) 0 0,
                      [(0, 0); (1, 0); (1, 1); (0, 1); (0, 0)])) /\
  fst (extractContoursFromCsvFile fileStod (fun p => p) (fun c => c)
         (Some unitSquareFile) true startLocals noGeometry) = returned true /\
  contours (snd (extractContoursFromCsvFile fileStod (fun p => p) (fun c => c)
                   (Some unitSquareFile) true startLocals noGeometry))
    = [ [[(0, 0); (1, 0); (1, 1); (0, 1)]]; [[(0, 0); (1, 0); (1, 1); (0, 1)]] ].
Proof. repeat split; reflexivity. Qed.

(** A slice with two points makes the import fail, also after a slice that
    was stored. *)
Lemma short_contour_import :
  fst (extractContoursFromCsvFile fileStod (fun p => p) (fun c => c)
         (Some [ "0;0;1;0;1;1;0;0"%string; "0;1;1;0;0;1;1;0"%string;
                 "2;0;1;0;1"%string;       "0;1;1;0;0"%string;
                 "4;0;1;0;1;1;0"%string;   "0;1;1;0;0;1;1"%string ])
         true startLocals noGeometry) = returned false.
Proof. reflexivity. Qed.


(** *** A number out of range

    The first field of the file is 1e999, which [stod] refuses with
    [std::out_of_range]. *)



(** A second slice that starts with 1e999, after a slice that is stored:
    the exception leaves the function with the first slice in the
    vectors. *)
Definition lateOutOfRangeFile : list string :=
  [ "0;0;1;0;1;1;0;0"%string; "0;1;1;0;0;1;1;0"%string;
    "1e999;0;1;0;1;1;0"%string; "0;1;1;0;0;1;1"%string ].

Lemma out_of_range_leaves_the_import_witness :
  fileStod "1e999" = out_of_range /\
  fst (extractContoursFromCsvFile fileStod (fun p => p) (fun c => c)
         (Some lateOutOfRangeFile) true startLocals noGeometry) = thrown /\
  contours (snd (extractContoursFromCsvFile fileStod (fun p => p) (fun c => c)
                   (Some lateOutOfRangeFile) true startLocals noGeometry))
  = [ [[(0, 0); (1, 0); (1, 1); (0, 1)]] ].
Proof.
  assert (Hreach :
    Reaches fileStod (fun p => p) (fun c => c) true lateOutOfRangeFile startLocals noGeometry
      [ "1e999;0;1;0;1;1;0"%string; "0;1;1;0;0;1;1"%string ]
      (mkLocals (mkPoint2D 0 0) (mkPoint2D 0 1) (1, 1) 0 0)
      (store (fun c => c) true noGeometry
         (mkLocals (mkPoint2D 0 0) (mkPoint2D 0 1) (1, 1) 0 0)
         [(0, 0); (1, 0); (1, 1); (0, 1); (0, 0)])).
  { eapply Reaches_turn; [reflexivity | apply Reaches_head]. }
  rewrite (out_of_range_leaves_the_import fileStod (fun p => p) (fun c => c)
             lateOutOfRangeFile true startLocals
             "1e999;0;1;0;1;1;0"%string "0;1;1;0;0;1;1"%string [] _ _
             "1e999"%string ["0"; "1"; "0"; "1"; "1"; "0"]%string
             Hreach eq_refl ltac:(discriminate) eq_refl).
  split; [reflexivity|]. split; reflexivity.
Defined.

(** *** A file of transfer function points

    Three lines: the second has two numbers only and gives no point, the
    fourth number of the third is not read. *)

Definition pointsFile : list string :=
  [ "1;2;3"%string; "4;5"%string; "7;8;9;10"%string ].

Lemma tf_points_are_the_three_number_lines_witness :
  inRange fileStod pointsFile = true /\
  setTFPointsFromCsvFile fileStod (Some pointsFile) (0, 0, 0) [(5, 5, 5)]
  = (returned true, [(1, 2, 3); (7, 8, 9)]) /\
  setTFPointsFromCsvFile fileStod (Some ["1e999;2;3"%string]) (0, 0, 0) [(5, 5, 5)]
  = (thrown, []).
Proof.
  assert (Hrange : inRange fileStod pointsFile = true) by reflexivity.
  destruct (tf_points_are_the_three_number_lines fileStod (0, 0, 0) [(5, 5, 5)]
              "1;2;3"%string [ "4;5"%string; "7;8;9;10"%string ] Hrange)
    as [_ [_ [Hpoints Hthrown]]].
  split; [exact Hrange|]. split; [exact Hpoints|].
  apply (Hthrown "1e999;2;3"%string "1e999"%string ["2"; "3"]%string []).
  - reflexivity.
  - cbn. lia.
  - reflexivity.
Defined.

(** *** Two sections written and read back

    A printer of the integers from 0 to 9, which is all the sections below
    hold; a junction between them is not written. *)

Definition showDigit (v : Q) : string :=
  String (ascii_of_nat (48 + Z.to_nat (Qnum v))) EmptyString.

Definition triangleSection (junction : bool) (x : Q) : exportedSection :=
  mkExported junction (mkPoint2D x 0) (mkPoint2D 1 0) (mkPoint2D (x + 1) 0) (mkPoint2D 1 0)
    1 2 [(0, 0); (2, 0); (1, 3); (0, 0)].

Definition threeSections : list exportedSection :=
  [triangleSection false 0; triangleSection true 1; triangleSection false 2].

Lemma csv_export_is_read_back_witness :
  exists lines : list string,
    exportGeoInCsv showDigit true threeSections = (true, Some lines) /\
    extractContoursFromCsvFile fileStod (fun p => p) (fun c => c)
      (Some lines) false startLocals noGeometry
    = (returned true, withSlices (fun p => p) noGeometry (exportedSlices threeSections)).
Proof.
  apply (csv_export_is_read_back fileStod (fun p => p) (fun c => c) showDigit
           threeSections startLocals).
  - intros v Hv. vm_compute in Hv.
    repeat (destruct Hv as [Hv | Hv];
            [subst v; vm_compute; repeat split; constructor |]).
    destruct Hv.
  - intros sec Hsec _. vm_compute in Hsec.
    repeat (destruct Hsec as [Hsec | Hsec]; [subst sec; vm_compute; lia |]).
    destruct Hsec.
  - vm_compute. lia.
Defined.

End CsvImport.

(** ** Helper functions on contours and meshes

    [similarContours], [Acoustic3dSimulation::removeDuplicatedPoints] and
    [gaussPointsFromMesh] of Acoustic3dSimulation.cpp, on polygons given by
    the list of their vertices and meshes given by the list of their
    faces. *)

Module Polygons.

Definition Point : Type := (Q * Q)%type.
Definition Polygon_2 : Type := list Point.

(** *** similarContours *)

(** [(abs(cont1[i].x() - cont2[i].x()) > minDist)
     || (abs(cont1[i].y() - cont2[i].y()) > minDist)] *)
Definition apart (p1 p2 : Point) (minDist : Q) : bool :=
  Qgtb (Qabs (fst p1 - fst p2)) minDist || Qgtb (Qabs (snd p1 - snd p2)) minDist.

(** The loop over the points, which stops at the first pair of points that
    are apart. *)
Fixpoint closePoints (cont1 cont2 : Polygon_2) (minDist : Q) : bool :=
  match cont1, cont2 with
  | p1 :: rest1, p2 :: rest2 =>
    if apart p1 p2 minDist then false else closePoints rest1 rest2 minDist
  | _, _ => true
  end.

Definition similarContours (cont1 cont2 : Polygon_2) (minDist : Q) : bool :=
  if (length cont1 =? length cont2)%nat then closePoints cont1 cont2 minDist else false.

(** *** removeDuplicatedPoints *)

Definition TOLERANCE : Q := 0.0001.

(** [max(abs(it->x() - (it + 1)->x()), abs(it->y() - (it + 1)->y()))] *)
Definition maxDistance (p q : Point) : Q :=
  Qmax (Qabs (fst p - fst q)) (Qabs (snd p - snd q)).

(** The loop, with [it] on the point [p] and [rest] the points after it:
    the next point is erased when it is closer than the tolerance, and
    [it] moves to it otherwise. *)
Fixpoint removeAfter (p : Point) (rest : Polygon_2) : Polygon_2 :=
  match rest with
  | [] => [p]
  | q :: rest' =>
    if Qltb (maxDistance p q) TOLERANCE then removeAfter p rest'
    else p :: removeAfter q rest'
  end.

(** The contour after the call; [None] for a contour without vertices,
    where [vertices_end() - 1] is not an iterator of the contour. *)
Definition removeDuplicatedPoints (contour : Polygon_2) : option Polygon_2 :=
  match contour with
  | [] => None
  | p :: rest => Some (removeAfter p rest)
  end.

(** [sub] is made of points of [l], in the order of [l]. *)
Inductive Subsequence : Polygon_2 -> Polygon_2 -> Prop :=
| sub_nil : Subsequence [] []
| sub_skip (p : Point) (sub l : Polygon_2) : Subsequence sub l -> Subsequence sub (p :: l)
| sub_keep (p : Point) (sub l : Polygon_2) : Subsequence sub l -> Subsequence (p :: sub) (p :: l).

(** *** gaussPointsFromMesh *)

(** A face of the triangulation, by its three vertices. *)
Definition Face : Type := (Point * Point * Point)%type.

Definition vertex0 (f : Face) : Point := fst (fst f).
Definition vertex1 (f : Face) : Point := snd (fst f).
Definition vertex2 (f : Face) : Point := snd f.

Definition quadPtCoord : list (Q * Q) := [(1 # 6, 1 # 6); (2 # 3, 1 # 6); (1 # 6, 2 # 3)].

(** "compute the area of the face" *)
Definition faceArea (f : Face) : Q :=
  Qabs (fst (vertex0 f) * (snd (vertex1 f) - snd (vertex2 f))
        + fst (vertex1 f) * (snd (vertex2 f) - snd (vertex0 f))
        + fst (vertex2 f) * (snd (vertex0 f) - snd (vertex1 f))) / 2.

(** One Gauss integration point of a face. *)
Definition gaussPoint (f : Face) (g : Q * Q) : Point :=
  ((1 - fst g - snd g) * fst (vertex0 f) + fst g * fst (vertex1 f) + snd g * fst (vertex2 f),
   (1 - fst g - snd g) * snd (vertex0 f) + fst g * snd (vertex1 f) + snd g * snd (vertex2 f)).

(** [pts] and [areaFaces] after the call, for the finite faces of the
    triangulation in the order of the iteration. *)
Definition gaussPointsFromMesh (faces : list Face) : list Point * list Q :=
  (flat_map (fun f => map (gaussPoint f) quadPtCoord) faces, map faceArea faces).

(** The value at a point of the affine function [a x + b y + c]. *)
Definition affine (a b c : Q) (p : Point) : Q := a * fst p + b * snd p + c.

(** *** Similar contours *)

Definition near (minDist : Q) (p1 p2 : Point) : Prop :=
  Qabs (fst p1 - fst p2) <= minDist /\ Qabs (snd p1 - snd p2) <= minDist.

Lemma apart_near (p1 p2 : Point) (minDist : Q) :
  apart p1 p2 minDist = false <-> near minDist p1 p2.
Proof.
  unfold apart, near. rewrite orb_false_iff, !Qgtb_le. reflexivity.
Qed.

Lemma similarContours_Forall2 (cont1 cont2 : Polygon_2) (minDist : Q) :
  similarContours cont1 cont2 minDist = true <-> Forall2 (near minDist) cont1 cont2.
Proof.
  unfold similarContours. split.
  - destruct (length cont1 =? length cont2)%nat eqn:E; [|discriminate].
    apply Nat.eqb_eq in E. revert cont2 E.
    induction cont1 as [|p1 rest1 IH]; intros [|p2 rest2] E H; try discriminate; [constructor|].
    cbn [closePoints] in H. destruct (apart p1 p2 minDist) eqn:Ea; [discriminate|].
    constructor; [apply apart_near, Ea | apply IH; [simpl in E; lia | exact H]].
  - intro H. replace (length cont1 =? length cont2)%nat with true
      by (symmetry; apply Nat.eqb_eq; eapply Forall2_length; exact H).
    induction H as [|p1 p2 rest1 rest2 Hn _ IH]; [reflexivity|].
    cbn [closePoints]. apply apart_near in Hn. rewrite Hn. exact IH.
Qed.

Lemma near_sym (minDist : Q) (p1 p2 : Point) : near minDist p1 p2 -> near minDist p2 p1.
Proof.
  unfold near. intros [H1 H2].
  setoid_replace (fst p2 - fst p1) with (- (fst p1 - fst p2)) by ring.
  setoid_replace (snd p2 - snd p1) with (- (snd p1 - snd p2)) by ring.
  rewrite !Qabs_opp. split; assumption.
Qed.

Lemma Forall2_near_sym (minDist : Q) (cont1 cont2 : Polygon_2) :
  Forall2 (near minDist) cont1 cont2 -> Forall2 (near minDist) cont2 cont1.
Proof.
  intro H. induction H as [|p1 p2 rest1 rest2 Hn _ IH]; constructor;
    [apply near_sym; exact Hn | exact IH].
Qed.

Lemma near_trans (d1 d2 : Q) (p1 p2 p3 : Point) :
  near d1 p1 p2 -> near d2 p2 p3 -> near (d1 + d2) p1 p3.
Proof.
  unfold near. intros [H1 H2] [H3 H4]. split.
  - setoid_replace (fst p1 - fst p3) with ((fst p1 - fst p2) + (fst p2 - fst p3)) by ring.
    eapply Qle_trans; [apply Qabs_triangle|]. apply Qplus_le_compat; assumption.
  - setoid_replace (snd p1 - snd p3) with ((snd p1 - snd p2) + (snd p2 - snd p3)) by ring.
    eapply Qle_trans; [apply Qabs_triangle|]. apply Qplus_le_compat; assumption.
Qed.

(** Two contours are similar exactly when they have the same number of
    points and each point is within the distance of the point of the same
    rank, in x and in y.  The test does not depend on the order of its two
    contours; a contour is similar to itself for any distance that is not
    negative; and the distances add up along a chain of similar contours
    (with one distance the relation is not transitive). *)
Theorem similar_contours_are_pointwise_near (cont1 cont2 cont3 : Polygon_2) (d1 d2 : Q) :
  (similarContours cont1 cont2 d1 = true <->
   length cont1 = length cont2 /\
   forall i : nat, (i < length cont1)%nat ->
     near d1 (nth i cont1 (0, 0)) (nth i cont2 (0, 0))) /\
  similarContours cont1 cont2 d1 = similarContours cont2 cont1 d1 /\
  (0 <= d1 -> similarContours cont1 cont1 d1 = true) /\
  (similarContours cont1 cont2 d1 = true -> similarContours cont2 cont3 d2 = true ->
   similarContours cont1 cont3 (d1 + d2) = true).
Proof.
  split; [|split; [|split]].
  - rewrite similarContours_Forall2. split.
    + intro H. split; [eapply Forall2_length; exact H|].
      induction H as [|p1 p2 rest1 rest2 Hn _ IH]; intros i Hi; [simpl in Hi; lia|].
      destruct i as [|i]; [exact Hn | apply IH; simpl in Hi; lia].
    + intros [Hlen H]. revert cont2 Hlen H.
      induction cont1 as [|p1 rest1 IH]; intros [|p2 rest2] Hlen H; try discriminate;
        constructor.
      * apply (H 0%nat). simpl. lia.
      * apply IH; [simpl in Hlen; lia|]. intros i Hi. apply (H (S i)). simpl. lia.
  - destruct (similarContours cont1 cont2 d1) eqn:E1.
    + symmetry. apply similarContours_Forall2, Forall2_near_sym.
      apply similarContours_Forall2, E1.
    + destruct (similarContours cont2 cont1 d1) eqn:E2; [|reflexivity].
      assert (E : similarContours cont1 cont2 d1 = true)
        by (apply similarContours_Forall2, Forall2_near_sym, similarContours_Forall2, E2).
      congruence.
  - intro Hd. apply similarContours_Forall2.
    induction cont1 as [|p rest IH]; constructor; [|exact IH].
    unfold near. setoid_replace (fst p - fst p) with 0 by ring.
    setoid_replace (snd p - snd p) with 0 by ring. split; exact Hd.
  - rewrite !similarContours_Forall2. intros H12. revert cont3.
    induction H12 as [|p1 p2 rest1 rest2 Hn _ IH]; intros cont3 H23;
      inversion H23; subst; constructor.
    + eapply near_trans; eassumption.
    + apply IH. assumption.
Qed.


(** *** Duplicated points *)

(** No point of the contour is closer than the tolerance to the point
    that follows it. *)
Fixpoint Spaced (contour : Polygon_2) : Prop :=
  match contour with
  | [] => True
  | p :: rest =>
    match rest with
    | [] => True
    | q :: _ => TOLERANCE <= maxDistance p q /\ Spaced rest
    end
  end.

Lemma removeAfter_kept (rest : Polygon_2) :
  forall p : Point,
    exists tail : Polygon_2,
      removeAfter p rest = p :: tail /\ Subsequence tail rest /\ Spaced (p :: tail).
Proof.
  induction rest as [|q rest IH]; intro p; cbn [removeAfter].
  - exists []. repeat split. constructor.
  - destruct (Qltb (maxDistance p q) TOLERANCE) eqn:E.
    + destruct (IH p) as [tail [H1 [H2 H3]]].
      exists tail. split; [exact H1|]. split; [constructor; exact H2 | exact H3].
    + destruct (IH q) as [tail [H1 [H2 H3]]].
      exists (q :: tail). rewrite H1. split; [reflexivity|].
      split; [constructor; exact H2|].
      cbn [Spaced]. split; [apply Qltb_le, E | exact H3].
Qed.

Lemma removeAfter_spaced (tail : Polygon_2) :
  forall p : Point, Spaced (p :: tail) -> removeAfter p tail = p :: tail.
Proof.
  induction tail as [|q tail IH]; intros p H; cbn [removeAfter]; [reflexivity|].
  cbn [Spaced] in H. destruct H as [Hfar Hrest].
  replace (Qltb (maxDistance p q) TOLERANCE) with false
    by (symmetry; apply Qltb_le, Hfar).
  rewrite IH by exact Hrest. reflexivity.
Qed.

(** On a contour that has a first point, the call keeps that point and a
    part of the other points, in their order; in the result no point is
    closer than 1e-4 (in x and in y) to the point that follows it; and a
    second call changes nothing.  A contour without points is outside the
    domain of the function. *)
Theorem removeDuplicatedPoints_spaces_the_contour (p : Point) (rest : Polygon_2) :
  removeDuplicatedPoints [] = None /\
  exists tail : Polygon_2,
    removeDuplicatedPoints (p :: rest) = Some (p :: tail) /\
    Subsequence tail rest /\
    Spaced (p :: tail) /\
    removeDuplicatedPoints (p :: tail) = Some (p :: tail).
Proof.
  split; [reflexivity|]. cbn [removeDuplicatedPoints].
  destruct (removeAfter_kept rest p) as [tail [H1 [H2 H3]]].
  exists tail. rewrite H1. split; [reflexivity|]. split; [exact H2|]. split; [exact H3|].
  rewrite removeAfter_spaced by exact H3. reflexivity.
Qed.

(** *** Gauss points *)

Lemma gaussPoints_lengths (faces : list Face) :
  length (fst (gaussPointsFromMesh faces)) = (3 * length faces)%nat /\
  length (snd (gaussPointsFromMesh faces)) = length faces.
Proof.
  unfold gaussPointsFromMesh. cbn [fst snd]. rewrite length_map. split; [|reflexivity].
  induction faces as [|f faces IH]; [reflexivity|].
  cbn [flat_map]. rewrite length_app, IH. cbn [length map quadPtCoord]. lia.
Qed.

Definition origin : Point := (0, 0).
Definition noFace : Face := (origin, origin, origin).

Lemma gaussPoints_nth (faces : list Face) :
  forall (i j : nat), (i < length faces)%nat -> (j < 3)%nat ->
    nth (3 * i + j) (fst (gaussPointsFromMesh faces)) origin
    = gaussPoint (nth i faces noFace) (nth j quadPtCoord (0, 0)).
Proof.
  unfold gaussPointsFromMesh. cbn [fst].
  induction faces as [|f faces IH]; intros i j Hi Hj; [simpl in Hi; lia|].
  cbn [flat_map]. destruct i as [|i].
  - rewrite app_nth1 by (cbn; lia). cbn [Nat.mul Nat.add nth].
    destruct j as [|[|[|j]]]; [reflexivity | reflexivity | reflexivity | lia].
  - rewrite app_nth2 by (cbn; lia). cbn [length map quadPtCoord].
    replace (3 * S i + j - 3)%nat with (3 * i + j)%nat by lia.
    cbn [nth]. apply IH; [simpl in Hi; lia | exact Hj].
Qed.

(** The mesh gives three integration points and one area for each face;
    no area is negative, and the area of a face does not depend on the
    orientation of its vertices; and the three points of a face integrate
    every affine function as its three vertices do: the sum of the values
    of the function at the points is the sum of its values at the
    vertices. *)
Theorem gauss_points_of_a_mesh (faces : list Face) (a b c : Q) (i : nat) :
  let pts := fst (gaussPointsFromMesh faces) in
  let areaFaces := snd (gaussPointsFromMesh faces) in
  length pts = (3 * length faces)%nat /\
  length areaFaces = length faces /\
  Forall (fun area => 0 <= area) areaFaces /\
  (forall v0 v1 v2 : Point, faceArea (v0, v1, v2) == faceArea (v0, v2, v1)) /\
  ((i < length faces)%nat ->
   let f := nth i faces noFace in
   affine a b c (nth (3 * i) pts origin) + affine a b c (nth (3 * i + 1) pts origin)
   + affine a b c (nth (3 * i + 2) pts origin)
   == affine a b c (vertex0 f) + affine a b c (vertex1 f) + affine a b c (vertex2 f)).
Proof.
  intros pts areaFaces.
  destruct (gaussPoints_lengths faces) as [L1 L2].
  split; [exact L1|]. split; [exact L2|]. split; [|split].
  - subst areaFaces. unfold gaussPointsFromMesh. cbn [snd].
    apply Forall_forall. intros area Hin. apply in_map_iff in Hin.
    destruct Hin as [f [<- _]]. unfold faceArea.
    apply Qle_shift_div_l; [reflexivity|]. rewrite Qmult_0_l. apply Qabs_nonneg.
  - intros v0 v1 v2. unfold faceArea, vertex0, vertex1, vertex2. cbn [fst snd].
    apply Qmult_comp; [|reflexivity].
    rewrite <- Qabs_opp. apply Qabs_wd. ring.
  - intros Hi f. subst pts.
    replace (3 * i)%nat with (3 * i + 0)%nat at 1 by lia.
    rewrite !(gaussPoints_nth faces) by lia.
    subst f. unfold affine, gaussPoint. cbn [nth quadPtCoord fst snd]. ring.
Qed.


End Polygons.

(** ** The sagittal plane: bounding box and acoustic field

    [Acoustic3dSimulation::updateBoundingBox] and
    [Acoustic3dSimulation::interpolateAcousticField(Point)]. *)

Module SagittalPlane.
Import Cplx.

Definition Point : Type := (Q * Q)%type.
Definition Vector : Type := (Q * Q)%type.

(** *** updateBoundingBox *)

(** What the function reads of a cross-section: its contour, its two
    scaling factors, and the centerline point and the normal at its
    entrance and at its exit. *)
Record CrossSection2d : Type := mkSection {
  contour : RadiationSection.Polygon_2;
  scaleIn : Q;
  scaleOut : Q;
  ctrLinePtIn : Point;
  normalIn : Vector;
  ctrLinePtOut : Point;
  normalOut : Vector
}.

(** [bboxXZ]: [first] and [second]. *)
Definition box : Type := (Point * Point)%type.

(** The lambda [updateBbox], for the point [pt]. *)
Definition updateBbox (bboxXZ : box) (pt : Point) : box :=
  ((Qmin (fst (fst bboxXZ)) (fst pt), Qmin (snd (fst bboxXZ)) (snd pt)),
   (Qmax (fst (snd bboxXZ)) (fst pt), Qmax (snd (snd bboxXZ)) (snd pt))).

(** [Transformation(CGAL::TRANSLATION, s * n)(ctl)] *)
Definition translated (ctl : Point) (s : Q) (n : Vector) : Point :=
  (fst ctl + s * fst n, snd ctl + s * snd n).

(** The four points of a section that enter the box: "pt in min",
    "pt in max", "pt out min" and "pt out max". *)
Definition extremePoints (sec : CrossSection2d) : list Point :=
  let bbox := RadiationSection.bbox (contour sec) in
  [translated (ctrLinePtIn sec) (scaleIn sec * RadiationSection.ymin bbox) (normalIn sec);
   translated (ctrLinePtIn sec) (scaleIn sec * RadiationSection.ymax bbox) (normalIn sec);
   translated (ctrLinePtOut sec) (scaleOut sec * RadiationSection.ymin bbox) (normalOut sec);
   translated (ctrLinePtOut sec) (scaleOut sec * RadiationSection.ymax bbox) (normalOut sec)].

(** One turn of the loop over the sections. *)
Definition addSection (bboxXZ : box) (sec : CrossSection2d) : box :=
  if (0 <? length (contour sec))%nat
  then fold_left updateBbox (extremePoints sec) bboxXZ
  else bboxXZ.

(** [m_simuParams.bbox] after the call. *)
Definition updateBoundingBox (m_crossSections : list CrossSection2d) : box :=
  fold_left addSection m_crossSections ((0, 0), (0, 0)).

(** The point lies in the box, sides included. *)
Definition inBox (b : box) (pt : Point) : Prop :=
  fst (fst b) <= fst pt <= fst (snd b) /\ snd (fst b) <= snd pt <= snd (snd b).

(** *** interpolateAcousticField *)

Record simulationParameters : Type := mkParams {
  bbox : box;
  fieldResolution : Z
}.

(** [m_field]: an Eigen matrix, by its dimensions and its coefficient
    accessor, which does not check its indices. *)
Record Field : Type := mkField {
  rows : Z;
  cols : Z;
  coeff : Z -> Z -> complex
}.

(** "check if the point is inside the bounding box" *)
Definition insideBox (simuParams : simulationParameters) (querryPt : Point) : bool :=
  Qgtb (fst querryPt) (fst (fst (bbox simuParams)))
  && Qltb (fst querryPt) (fst (snd (bbox simuParams)))
  && Qgtb (snd querryPt) (snd (fst (bbox simuParams)))
  && Qltb (snd querryPt) (snd (snd (bbox simuParams))).

(** [iMin], [iMax], [jMin] and [jMax] of "find the neighboring points". *)
Record neighbours : Type := mkNeighbours { iMin : Z; iMax : Z; jMin : Z; jMax : Z }.

Definition neighbouringPoints (simuParams : simulationParameters) (m_field : Field)
    (querryPt : Point) : neighbours :=
  let dx := 1 / inject_Z (fieldResolution simuParams) in
  let y := (snd querryPt - snd (fst (bbox simuParams))) / dx in
  let x := (fst querryPt - fst (fst (bbox simuParams))) / dx in
  mkNeighbours (Z.min (rows m_field - 2) (Qfloor y)) (Z.min (rows m_field - 1) (Qceiling y))
               (Z.min (cols m_field - 2) (Qfloor x)) (Z.min (cols m_field - 1) (Qceiling x)).

Section Amplitude.

(** [abs] of a complex number *)
Variable cabs : complex -> Q.

Definition interpolateAcousticField (simuParams : simulationParameters) (m_field : Field)
    (querryPt : Point) : Q :=
  if insideBox simuParams querryPt then
    let n := neighbouringPoints simuParams m_field querryPt in
    cabs (Cscale (Cadd (Cadd (Cadd (coeff m_field (iMin n) (jMin n))
                                   (coeff m_field (iMin n) (jMax n)))
                             (coeff m_field (iMax n) (jMin n)))
                       (coeff m_field (iMax n) (jMax n)))
                 (1 / 4))
  else -1.

End Amplitude.

(** The four entries read are entries of the field. *)
Definition readsInField (m_field : Field) (n : neighbours) : Prop :=
  (0 <= iMin n < rows m_field)%Z /\ (0 <= iMax n < rows m_field)%Z /\
  (0 <= jMin n < cols m_field)%Z /\ (0 <= jMax n < cols m_field)%Z.

(** *** The box of the sections *)

Lemma updateBbox_keeps (b : box) (pt q : Point) : inBox b q -> inBox (updateBbox b pt) q.
Proof.
  unfold inBox, updateBbox. cbn [fst snd]. intros [[H1 H2] [H3 H4]].
  repeat split.
  - eapply Qle_trans; [apply Q.le_min_l | exact H1].
  - eapply Qle_trans; [exact H2 | apply Q.le_max_l].
  - eapply Qle_trans; [apply Q.le_min_l | exact H3].
  - eapply Qle_trans; [exact H4 | apply Q.le_max_l].
Qed.

Lemma updateBbox_adds (b : box) (pt : Point) : inBox (updateBbox b pt) pt.
Proof.
  unfold inBox, updateBbox. cbn [fst snd].
  repeat split; first [apply Q.le_min_r | apply Q.le_max_r].
Qed.

Lemma fold_updateBbox (pts : list Point) :
  forall (b : box) (q : Point),
    inBox b q \/ In q pts -> inBox (fold_left updateBbox pts b) q.
Proof.
  induction pts as [|pt pts IH]; intros b q H; cbn [fold_left].
  - destruct H as [H | []]. exact H.
  - apply IH. destruct H as [H | [-> | H]].
    + left. apply updateBbox_keeps, H.
    + left. apply updateBbox_adds.
    + right. exact H.
Qed.

Lemma addSection_keeps (b : box) (sec : CrossSection2d) (q : Point) :
  inBox b q -> inBox (addSection b sec) q.
Proof.
  intro H. unfold addSection. destruct (0 <? length (contour sec))%nat; [|exact H].
  apply fold_updateBbox. left. exact H.
Qed.

Lemma fold_addSection_keeps (secs : list CrossSection2d) :
  forall (b : box) (q : Point), inBox b q -> inBox (fold_left addSection secs b) q.
Proof.
  induction secs as [|sec secs IH]; intros b q H; cbn [fold_left]; [exact H|].
  apply IH, addSection_keeps, H.
Qed.

(** The box computed for the sagittal plane always holds the origin; it
    holds the four extreme points of every section whose contour has at
    least one vertex; and the sections without contour do not count: when
    no section has a contour the box is reduced to the origin. *)
Theorem bounding_box_holds_origin_and_sections (m_crossSections : list CrossSection2d) :
  inBox (updateBoundingBox m_crossSections) (0, 0) /\
  (forall (sec : CrossSection2d) (pt : Point),
     In sec m_crossSections -> contour sec <> [] -> In pt (extremePoints sec) ->
     inBox (updateBoundingBox m_crossSections) pt) /\
  ((forall sec : CrossSection2d, In sec m_crossSections -> contour sec = []) ->
   updateBoundingBox m_crossSections = ((0, 0), (0, 0))).
Proof.
  unfold updateBoundingBox. split; [|split].
  - apply fold_addSection_keeps. unfold inBox. cbn [fst snd].
    repeat split; apply Qle_refl.
  - generalize ((0, 0), (0, 0)) as b.
    induction m_crossSections as [|s secs IH]; intros b sec pt Hin Hne Hpt; [destruct Hin|].
    cbn [fold_left]. destruct Hin as [-> | Hin].
    + apply fold_addSection_keeps. unfold addSection.
      replace (0 <? length (contour sec))%nat with true
        by (symmetry; apply Nat.ltb_lt; destruct (contour sec); [congruence | simpl; lia]).
      apply fold_updateBbox. right. exact Hpt.
    + apply IH with sec; assumption.
  - generalize ((0, 0), (0, 0)) as b.
    induction m_crossSections as [|s secs IH]; intros b H; [reflexivity|].
    cbn [fold_left]. unfold addSection at 2. rewrite (H s) by (left; reflexivity).
    cbn [length Nat.ltb Nat.leb]. apply IH. intros sec Hin. apply H. right. exact Hin.
Qed.


(** *** The neighbours of a point of the field *)

Lemma floor_ceiling_positive (x : Q) :
  0 < x -> (0 <= Qfloor x /\ 1 <= Qceiling x /\ Qfloor x <= Qceiling x <= Qfloor x + 1)%Z.
Proof.
  intro Hx.
  assert (H0 : (0 <= Qfloor x)%Z).
  { change 0%Z with (Qfloor (inject_Z 0)). apply Qfloor_resp_le. apply Qlt_le_weak, Hx. }
  assert (H1 : (1 <= Qceiling x)%Z).
  { pose proof (Qle_ceiling x) as Hc.
    assert (Hpos : inject_Z 0 < inject_Z (Qceiling x)) by (apply Qlt_le_trans with x; assumption).
    rewrite <- Zlt_Qlt in Hpos. lia. }
  assert (H2 : (Qfloor x <= Qceiling x)%Z).
  { rewrite Zle_Qle. apply Qle_floor_ceiling. }
  assert (H3 : (Qceiling x <= Qfloor x + 1)%Z).
  { pose proof (Qceiling_lt x) as Hc. pose proof (Qlt_floor x) as Hf.
    assert (Hlt : inject_Z (Qceiling x - 1) < inject_Z (Qfloor x + 1))
      by (apply Qlt_trans with x; assumption).
    rewrite <- Zlt_Qlt in Hlt. lia. }
  lia.
Qed.

Lemma grid_coordinate_positive (q b0 : Q) (resolution : Z) :
  b0 < q -> (0 < resolution)%Z -> 0 < (q - b0) / (1 / inject_Z resolution).
Proof.
  intros Hq Hres.
  assert (Hr : 0 < inject_Z resolution) by (change 0 with (inject_Z 0); rewrite <- Zlt_Qlt; exact Hres).
  assert (Hdx : 0 < 1 / inject_Z resolution).
  { apply Qlt_shift_div_l; [exact Hr | rewrite Qmult_0_l; reflexivity]. }
  apply Qlt_shift_div_l; [exact Hdx | rewrite Qmult_0_l; lra].
Qed.

(** Outside the bounding box, sides included, the interpolation returns -1
    and reads nothing.  For a point inside the box and a positive
    resolution, the two rows read are the same row or two rows that follow
    each other, and so are the two columns; the four entries read are
    entries of the field exactly when the field has at least two rows and
    two columns. *)
Theorem acoustic_field_reads_its_neighbours (simuParams : simulationParameters)
    (m_field : Field) (querryPt : Point)
    (Hinside : insideBox simuParams querryPt = true)
    (Hres : (0 < fieldResolution simuParams)%Z) :
  let n := neighbouringPoints simuParams m_field querryPt in
  (iMin n <= iMax n <= iMin n + 1)%Z /\
  (jMin n <= jMax n <= jMin n + 1)%Z /\
  (readsInField m_field n <-> (2 <= rows m_field)%Z /\ (2 <= cols m_field)%Z) /\
  (forall (cabs : complex -> Q) (pt : Point),
     insideBox simuParams pt = false ->
     interpolateAcousticField cabs simuParams m_field pt = -1).
Proof.
  intro n. unfold insideBox in Hinside.
  apply andb_prop in Hinside. destruct Hinside as [Hinside Hy1].
  apply andb_prop in Hinside. destruct Hinside as [Hinside Hy0].
  apply andb_prop in Hinside. destruct Hinside as [Hx0 Hx1].
  apply Qgtb_lt in Hx0. apply Qgtb_lt in Hy0.
  destruct (floor_ceiling_positive _
              (grid_coordinate_positive _ _ _ Hy0 Hres)) as [Hi0 [Hi1 Hi2]].
  destruct (floor_ceiling_positive _
              (grid_coordinate_positive _ _ _ Hx0 Hres)) as [Hj0 [Hj1 Hj2]].
  subst n. unfold neighbouringPoints, readsInField. cbn [iMin iMax jMin jMax].
  split; [lia|]. split; [lia|]. split; [split; lia|].
  intros cabs pt Hout. unfold interpolateAcousticField. rewrite Hout. reflexivity.
Qed.

(** A field of 3 rows and 3 columns on the box from (0, 0) to (2, 2), with
    one point per unit of length. *)
Definition unitGrid : simulationParameters := mkParams ((0, 0), (2, 2)) 1.
Definition flatField : Field := mkField 3 3 (fun _ _ => mkC 1 0).

Lemma acoustic_field_reads_its_neighbours_witness :
  insideBox unitGrid (1 # 2, 3 # 2) = true /\
  readsInField flatField (neighbouringPoints unitGrid flatField (1 # 2, 3 # 2)).
Proof.
  split; [reflexivity|].
  destruct (acoustic_field_reads_its_neighbours unitGrid flatField (1 # 2, 3 # 2)
              eq_refl ltac:(reflexivity)) as [_ [_ [H _]]].
  apply H. cbn. lia.
Defined.


End SagittalPlane.

(** ** The slices of the geometry

    [Acoustic3dSimulation::importGeometry], and the first loop of
    [Acoustic3dSimulation::createCrossSections]: the areas and the
    bounding boxes of the slices, and the recentering of the centerline for
    curved geometries. *)

Module Slices.

Definition Point : Type := (Q * Q)%type.

(** *** importGeometry *)

(** [m_reloadGeometry], and the number of calls of [createCrossSections]
    made so far. *)
Record importState : Type := mkImportState {
  m_reloadGeometry : bool;
  creations : nat
}.

(** The function, given what [createCrossSections(tract, false)] returns
    when it is called: the result and the state after the call. *)
Definition importGeometry (createCrossSections : bool) (st : importState)
    : bool * importState :=
  if m_reloadGeometry st then
    if createCrossSections
    then (true, mkImportState false (S (creations st)))
    else (false, mkImportState false (S (creations st)))
  else (true, st).

(** *** The first loop of createCrossSections *)

(** A slice: its contours, its centerline point and its normal. *)
Record slice : Type := mkSlice {
  contours : list RadiationSection.Polygon_2;
  centerLine : Point;
  normal : Point
}.

(** [bboxes.back()]: xmin, xmax, ymin, ymax. *)
Record sliceBox : Type := mkBox { b0 : Q; b1 : Q; b2 : Q; b3 : Q }.

(** The body of [for (auto cont : contours[i])], for the box. *)
Definition growBox (b : sliceBox) (cont : RadiationSection.Polygon_2) : sliceBox :=
  let cb := RadiationSection.bbox cont in
  mkBox (Qmin (b0 b) (RadiationSection.xmin cb)) (Qmax (b1 b) (RadiationSection.xmax cb))
        (Qmin (b2 b) (RadiationSection.ymin cb)) (Qmax (b3 b) (RadiationSection.ymax cb)).

(** The box of a slice, which starts from [arrayZeros]. *)
Definition boxOf (conts : list RadiationSection.Polygon_2) : sliceBox :=
  fold_left growBox conts (mkBox 0 0 0 0).

(** [transform(translate, contour)] for a translation along y *)
Definition shiftContour (shiftY : Q) (cont : RadiationSection.Polygon_2)
    : RadiationSection.Polygon_2 :=
  map (fun p => (fst p + 0, snd p + shiftY)) cont.

(** "recenter the centerline for curved geometries": the slice and its
    box after the turn of the loop. *)
Definition recenter (curved : bool) (s : slice) : slice * sliceBox :=
  let b := boxOf (contours s) in
  if curved then
    let shiftY := - (b2 b + b3 b) / 2 in
    (mkSlice (map (shiftContour shiftY) (contours s))
       (fst (centerLine s) - shiftY * fst (normal s),
        snd (centerLine s) - shiftY * snd (normal s))
       (normal s),
     mkBox (b0 b) (b1 b) (b2 b + shiftY) (b3 b + shiftY))
  else (s, b).

(** The place in the sagittal plane of a point of a contour of a slice:
    the point of ordinate [y] lies at [y] times the normal from the
    centerline point. *)
Definition sagittalPlace (s : slice) (p : Point) : Point :=
  (fst (centerLine s) + snd p * fst (normal s), snd (centerLine s) + snd p * snd (normal s)).

(** A call after a call never creates the cross-sections again, and it
    returns [true]: also when the first call failed, since the first call
    clears [m_reloadGeometry] in both cases. *)
Theorem importGeometry_is_not_retried (first second : bool) (st : importState) :
  let after1 := snd (importGeometry first st) in
  let after2 := snd (importGeometry second after1) in
  m_reloadGeometry after1 = false /\
  fst (importGeometry second after1) = true /\
  after2 = after1 /\
  (fst (importGeometry first st) = false <-> m_reloadGeometry st = true /\ first = false).
Proof.
  unfold importGeometry.
  destruct (m_reloadGeometry st) eqn:E; destruct first; cbn [fst snd m_reloadGeometry];
    rewrite ?E; cbn [fst snd]; repeat split; try reflexivity; try discriminate;
    try (intros [? ?]; discriminate); try (intro; discriminate).
Qed.

Lemma boxOf_straddles (conts : list RadiationSection.Polygon_2) :
  forall b : sliceBox,
    b2 b <= 0 -> 0 <= b3 b ->
    b2 (fold_left growBox conts b) <= 0 /\ 0 <= b3 (fold_left growBox conts b).
Proof.
  induction conts as [|cont conts IH]; intros b H2 H3; cbn [fold_left]; [auto|].
  apply IH; unfold growBox; cbn [b2 b3].
  - eapply Qle_trans; [apply Q.le_min_l | exact H2].
  - eapply Qle_trans; [exact H3 | apply Q.le_max_l].
Qed.

(** In a curved geometry the recentering of a slice shifts its contours by
    minus the middle of its box in y, and the centerline point by the
    opposite along the normal: every point of every contour keeps its place
    in the sagittal plane, the box keeps its sides in x and its height, and
    it becomes symmetric in y.  The box of a slice always holds the
    ordinate 0, whatever the contours, since it starts from zeros.  In a
    geometry that is not curved nothing moves. *)
Theorem recentering_keeps_the_sagittal_places (s : slice) :
  let b := boxOf (contours s) in
  let s' := fst (recenter true s) in
  let b' := snd (recenter true s) in
  (b2 b <= 0 /\ 0 <= b3 b) /\
  b2 b' == - b3 b' /\
  b3 b' - b2 b' == b3 b - b2 b /\
  (b0 b' = b0 b /\ b1 b' = b1 b) /\
  length (contours s') = length (contours s) /\
  (forall (i j : nat),
     let p := nth j (nth i (contours s) []) (0, 0) in
     let p' := nth j (nth i (contours s') []) (0, 0) in
     (i < length (contours s))%nat -> (j < length (nth i (contours s) []))%nat ->
     fst p' == fst p /\
     fst (sagittalPlace s' p') == fst (sagittalPlace s p) /\
     snd (sagittalPlace s' p') == snd (sagittalPlace s p)) /\
  recenter false s = (s, b).
Proof.
  intros b s' b'. subst s' b'. unfold recenter. fold b. cbn [fst snd].
  split; [apply boxOf_straddles; apply Qle_refl|].
  cbn [b0 b1 b2 b3 contours].
  split; [field|]. split; [field|]. split; [auto|].
  split; [apply length_map|]. split; [|reflexivity].
  intros i j Hi Hj.
  set (shiftY := - (b2 b + b3 b) / 2).
  assert (E : nth j (nth i (map (shiftContour shiftY) (contours s)) []) (0, 0)
              = (fst (nth j (nth i (contours s) []) (0, 0)) + 0,
                 snd (nth j (nth i (contours s) []) (0, 0)) + shiftY)).
  { rewrite (nth_indep _ [] (shiftContour shiftY [])) by (rewrite length_map; exact Hi).
    rewrite (map_nth (shiftContour shiftY)). unfold shiftContour.
    rewrite (nth_indep _ (0, 0)
               ((fun p : Q * Q => (fst p + 0, snd p + shiftY)) (0, 0)))
      by (rewrite length_map; exact Hj).
    rewrite (map_nth (fun p : Q * Q => (fst p + 0, snd p + shiftY))). reflexivity. }
  rewrite E. unfold sagittalPlace. cbn [fst snd centerLine normal].
  repeat split; ring.
Qed.

End Slices.

(** ** The scaling of a cross-section along its axis

    [CrossSection2dFEM::scaling], [CrossSection2dFEM::scalingDerivative],
    [CrossSection2dFEM::length] and [CrossSection2dFEM::curvature]. *)

Module AreaProfile.

Inductive areaVariationProfile : Type := LINEAR | GAUSSIAN | ELEPHANT.

Record CrossSection2dFEM : Type := mkSection {
  m_areaProfile : areaVariationProfile;
  m_scalingFactors : Q * Q;
  m_circleArcAngle : Q;
  m_curvatureRadius : Q;
  m_length : Q
}.

Section Profile.

(** [exp] of <cmath>, and the constant [MINIMAL_DISTANCE] of the headers. *)
Variable exp : Q -> Q.
Variable MINIMAL_DISTANCE : Q.

Definition scaling (sec : CrossSection2dFEM) (tau : Q) : Q :=
  match m_areaProfile sec with
  | LINEAR =>
    (snd (m_scalingFactors sec) - fst (m_scalingFactors sec)) * tau + fst (m_scalingFactors sec)
  | GAUSSIAN => 1 + 0.75 * exp (- (0.3 * (tau - 0.5)) ^ 2 / 2 / 0.04 ^ 2)
  | ELEPHANT => 0.25 * (1 + 9 * tau ^ 2 - 6 * tau ^ 3)
  end.

Definition length (sec : CrossSection2dFEM) : Q :=
  if Qltb (Qabs (m_circleArcAngle sec)) MINIMAL_DISTANCE then m_length sec
  else Qabs (m_circleArcAngle sec) * Qabs (m_curvatureRadius sec).

Definition scalingDerivative (sec : CrossSection2dFEM) (tau : Q) : Q :=
  let al :=
    if Qltb (Qabs (m_circleArcAngle sec)) MINIMAL_DISTANCE then m_length sec
    else Qabs (m_circleArcAngle sec) * Qabs (m_curvatureRadius sec) in
  match m_areaProfile sec with
  | LINEAR => (snd (m_scalingFactors sec) - fst (m_scalingFactors sec)) / al
  | GAUSSIAN =>
    - 0.75 * 0.09 * (tau - 0.5) * exp (- (0.3 * (tau - 0.5)) ^ 2 / 2 / 0.04 ^ 2)
    / 0.04 ^ 2 / 30
  | ELEPHANT => 9 * tau * (1 - tau) / 16.95 / 2
  end.

Definition curvature (sec : CrossSection2dFEM) (curved : bool) : Q :=
  if curved then 1 / m_curvatureRadius sec else 0.

(** With the linear profile the scaling goes from the first scaling factor
    at the entrance ([tau = 0]) to the second at the exit ([tau = 1]) and
    stays between the two in between; its derivative is the slope along the
    axis: times the length of the section it gives the difference of the
    two factors.  With the profile ELEPHANT the scaling goes from 0.25 to 1
    whatever the scaling factors of the section are, it stays between
    these two values, and its derivative is not negative.  The length of a
    section whose arc angle is not below the minimal distance is the
    product of the absolute values of the angle and of the radius, which is
    not negative. *)
Theorem scaling_profiles (sec : CrossSection2dFEM) (tau : Q) :
  (m_areaProfile sec = LINEAR ->
     scaling sec 0 == fst (m_scalingFactors sec) /\
     scaling sec 1 == snd (m_scalingFactors sec) /\
     (0 <= tau <= 1 ->
        Qmin (fst (m_scalingFactors sec)) (snd (m_scalingFactors sec)) <= scaling sec tau
        /\ scaling sec tau <= Qmax (fst (m_scalingFactors sec)) (snd (m_scalingFactors sec))) /\
     (~ length sec == 0 ->
        scalingDerivative sec tau * length sec == scaling sec 1 - scaling sec 0)) /\
  (m_areaProfile sec = ELEPHANT ->
     scaling sec 0 == 0.25 /\ scaling sec 1 == 1 /\
     (0 <= tau <= 1 ->
        0.25 <= scaling sec tau <= 1 /\ 0 <= scalingDerivative sec tau)) /\
  (MINIMAL_DISTANCE <= Qabs (m_circleArcAngle sec) ->
     length sec == Qabs (m_circleArcAngle sec) * Qabs (m_curvatureRadius sec) /\
     0 <= length sec).
Proof.
  split; [|split].
  - intro Hp. unfold scaling, scalingDerivative, length. rewrite Hp.
    set (s0 := fst (m_scalingFactors sec)). set (s1 := snd (m_scalingFactors sec)).
    split; [ring|]. split; [ring|]. split.
    + intros [H0 H1]. destruct (Qlt_le_dec s0 s1) as [Hlt | Hge].
      * rewrite (Q.min_l s0 s1) by lra. rewrite (Q.max_r s0 s1) by lra. split; nra.
      * rewrite (Q.min_r s0 s1) by lra. rewrite (Q.max_l s0 s1) by lra. split; nra.
    + intro Hal. field. exact Hal.
  - intro Hp. unfold scaling, scalingDerivative. rewrite Hp.
    split; [reflexivity|]. split; [reflexivity|].
    intros [H0 H1].
    assert (Hsq : 0 <= tau * tau) by nra.
    assert (Hc : 0 <= (1 - tau) * (1 - tau)) by nra.
    split; [split|].
    + assert (0 <= tau * tau * (9 - 6 * tau)) by (apply Qmult_le_0_compat; lra).
      lra.
    + assert (0 <= (1 - tau) * (1 - tau) * (1 + 2 * tau))
        by (apply Qmult_le_0_compat; lra).
      lra.
    + assert (Hprod : 0 <= tau * (1 - tau)) by (apply Qmult_le_0_compat; lra).
      setoid_replace (9 * tau * (1 - tau) / 16.95 / 2)
        with (9 / 16.95 / 2 * (tau * (1 - tau))) by field.
      apply Qmult_le_0_compat; [discriminate | exact Hprod].
  - intro Hang. unfold length.
    replace (Qltb (Qabs (m_circleArcAngle sec)) MINIMAL_DISTANCE) with false
      by (symmetry; apply Qltb_le, Hang).
    split; [reflexivity|].
    apply Qmult_le_0_compat; apply Qabs_nonneg.
Qed.

End Profile.

End AreaProfile.

(** ** Characteristic impedance and admittance of a section

    [CrossSection2dFEM::characteristicImpedance] and
    [CrossSection2dFEM::characteristicAdmittance]: two diagonal matrices. *)

Module Characteristic.
Import Cplx.

Record simulationParameters : Type := mkParams {
  propMethod : Junction.propagationMethod;
  sndSpeed : Q;
  volumicMass : Q
}.

Record CrossSection2dFEM : Type := mkSection {
  m_modesNumber : nat;
  m_eigenFreqs : list Q;
  m_area : Q
}.

Section Sqrt.

(** [sqrt] of a [complex<double>] *)
Variable csqrt : complex -> complex.

(** [complex<double>(x)], [x / z] and [z / x] for a double [x]. *)
Definition ofReal (x : Q) : complex := mkC x 0.
Definition realOver (x : Q) (z : complex) : complex := Cscale (Cinv z) x.
Definition overReal (z : complex) (x : Q) : complex := mkC (re z / x) (im z / x).

(** [pow(2 * M_PI * m_eigenFreqs[i] / simuParams.sndSpeed, 2)] *)
Definition modeWaveNumber2 (simuParams : simulationParameters) (sec : CrossSection2dFEM)
    (i : nat) : Q :=
  (2 * M_PI * nth i (m_eigenFreqs sec) 0 / sndSpeed simuParams) ^ 2.

(** [k], and the square root each of the two functions takes for mode [i]. *)
Definition waveNumber (simuParams : simulationParameters) (freq : Q) : Q :=
  2 * M_PI * freq / sndSpeed simuParams.

Definition modeRoot (simuParams : simulationParameters) (sec : CrossSection2dFEM)
    (freq : Q) (i : nat) : complex :=
  match propMethod simuParams with
  | Junction.MAGNUS =>
    csqrt (ofReal (modeWaveNumber2 simuParams sec i - waveNumber simuParams freq ^ 2))
  | Junction.STRAIGHT_TUBES =>
    csqrt (ofReal (waveNumber simuParams freq ^ 2 - modeWaveNumber2 simuParams sec i))
  end.

(** The value [diag] of the loop over the modes. *)
Definition impedanceDiag (simuParams : simulationParameters) (sec : CrossSection2dFEM)
    (freq : Q) (i : nat) : complex :=
  match propMethod simuParams with
  | Junction.MAGNUS => realOver 1 (modeRoot simuParams sec freq i)
  | Junction.STRAIGHT_TUBES =>
    overReal (realOver (volumicMass simuParams * 2 * M_PI * freq)
                (modeRoot simuParams sec freq i))
             (m_area sec)
  end.

Definition admittanceDiag (simuParams : simulationParameters) (sec : CrossSection2dFEM)
    (freq : Q) (i : nat) : complex :=
  match propMethod simuParams with
  | Junction.MAGNUS => modeRoot simuParams sec freq i
  | Junction.STRAIGHT_TUBES =>
    overReal (Cscale (modeRoot simuParams sec freq i) (m_area sec))
             (volumicMass simuParams * 2 * M_PI * freq)
  end.

(** The matrices, zero outside the diagonal of the modes. *)
Definition characteristicImpedance (simuParams : simulationParameters)
    (sec : CrossSection2dFEM) (freq : Q) : nat -> nat -> complex :=
  fun i j =>
    if ((i =? j) && (i <? m_modesNumber sec))%nat
    then impedanceDiag simuParams sec freq i else C0.

Definition characteristicAdmittance (simuParams : simulationParameters)
    (sec : CrossSection2dFEM) (freq : Q) : nat -> nat -> complex :=
  fun i j =>
    if ((i =? j) && (i <? m_modesNumber sec))%nat
    then admittanceDiag simuParams sec freq i else C0.

Definition nonzero (z : complex) : Prop := ~ re z * re z + im z * im z == 0.

(** The two matrices are diagonal, and for each mode their diagonal
    entries are the inverse of each other: their product is 1, for a mode
    that is not at its cut-on frequency (its square root is not zero) and,
    with the straight tubes, for an area, a density and a frequency that
    are not zero. *)
Theorem characteristic_admittance_inverts_impedance (simuParams : simulationParameters)
    (sec : CrossSection2dFEM) (freq : Q) (i j : nat) :
  let Zc := characteristicImpedance simuParams sec freq in
  let Yc := characteristicAdmittance simuParams sec freq in
  (i <> j -> Zc i j = C0 /\ Yc i j = C0) /\
  ((i < m_modesNumber sec)%nat -> nonzero (modeRoot simuParams sec freq i) ->
   (propMethod simuParams = Junction.MAGNUS
    \/ (~ m_area sec == 0 /\ ~ volumicMass simuParams * 2 * M_PI * freq == 0)) ->
   ceq (Cmul (Zc i i) (Yc i i)) (mkC 1 0)).
Proof.
  intros Zc Yc. subst Zc Yc. unfold characteristicImpedance, characteristicAdmittance.
  split.
  - intro Hne. replace (i =? j)%nat with false by (symmetry; apply Nat.eqb_neq; exact Hne).
    split; reflexivity.
  - intros Hi Hroot Hcase.
    rewrite Nat.eqb_refl.
    replace (i <? m_modesNumber sec)%nat with true by (symmetry; apply Nat.ltb_lt; exact Hi).
    cbn [andb]. unfold impedanceDiag, admittanceDiag, nonzero in *.
    set (s := modeRoot simuParams sec freq i) in *.
    destruct (propMethod simuParams).
    + unfold ceq, Cmul, realOver, Cscale, Cinv. cbn [re im]. split; field; exact Hroot.
    + destruct Hcase as [Hm | [Harea Hrho]]; [discriminate|].
      unfold ceq, Cmul, overReal, realOver, Cscale, Cinv. cbn [re im].
      assert (Hf : ~ freq == 0) by (intro E; apply Hrho; rewrite E; ring).
      assert (Hv : ~ volumicMass simuParams == 0) by (intro E; apply Hrho; rewrite E; ring).
      assert (Hpi : ~ M_PI == 0) by (intro E; discriminate E).
      split; field; repeat split; assumption.
Qed.

End Sqrt.

End Characteristic.

(** ** The exit of a section

    [ctrLinePtOut] ([CrossSection2dFEM::ctrLinePtOut] and
    [Acoustic3dSimulation::ctrLinePtOut], the same code on the members or
    on the arguments) and [CrossSection2dFEM::normalOut], on real numbers,
    with [M_PI] taken as pi. *)

Module Centerline.
Import Reals Lra.
Local Open Scope R_scope.

Definition Point : Type := (R * R)%type.
Definition Vector : Type := (R * R)%type.

(** [Transformation(CGAL::ROTATION, sine, cosine)] applied to a vector,
    [Transformation(CGAL::TRANSLATION, t)] applied to a point, and the
    product of a vector by a number. *)
Definition rotate (sine cosine : R) (v : Vector) : Vector :=
  (cosine * fst v - sine * snd v, sine * fst v + cosine * snd v).
Definition translate (t : Vector) (p : Point) : Point := (fst p + fst t, snd p + snd t).
Definition times (s : R) (v : Vector) : Vector := (s * fst v, s * snd v).
Definition opposite (v : Vector) : Vector := (- fst v, - snd v).

(** [signbit], on a number that is not a negative zero. *)
Definition signbit (x : R) : bool := if Rlt_dec x 0 then true else false.

Definition norm2 (v : Vector) : R := fst v * fst v + snd v * snd v.
Definition between (p q : Point) : Vector := (fst q - fst p, snd q - snd p).

Section Exit.

(** The constant [MINIMAL_DISTANCE] of the headers. *)
Variable MINIMAL_DISTANCE : R.

Definition ctrLinePtOut (ctrLinePtIn : Point) (normalIn : Vector)
    (circleArcAngle curvatureRadius length : R) : Point :=
  if Rlt_dec 0 length then
    if Rlt_dec (Rabs circleArcAngle) MINIMAL_DISTANCE then
      let theta := - PI / 2 in
      translate (times length (rotate (sin theta) (cos theta) normalIn)) ctrLinePtIn
    else
      let theta := Rabs circleArcAngle / 2 in
      if (signbit curvatureRadius && negb (signbit (curvatureRadius * circleArcAngle)))
         || (negb (signbit curvatureRadius) && signbit (curvatureRadius * circleArcAngle))
      then
        translate (times (-2 * curvatureRadius * sin theta)
                     (rotate (sin (PI / 2 - theta)) (cos (theta - PI / 2))
                        (opposite normalIn)))
                  ctrLinePtIn
      else
        translate (times (2 * curvatureRadius * sin theta)
                     (rotate (sin (theta - PI / 2)) (cos (theta - PI / 2)) normalIn))
                  ctrLinePtIn
  else ctrLinePtIn.

Definition normalOut (normalIn : Vector) (circleArcAngle length : R) : Vector :=
  if Rlt_dec 0 length then rotate (sin circleArcAngle) (cos circleArcAngle) normalIn
  else normalIn.

Lemma rotate_norm2 (sine cosine : R) (v : Vector) :
  sine * sine + cosine * cosine = 1 -> norm2 (rotate sine cosine v) = norm2 v.
Proof.
  intro H. unfold norm2, rotate. cbn [fst snd].
  replace ((cosine * fst v - sine * snd v) * (cosine * fst v - sine * snd v)
           + (sine * fst v + cosine * snd v) * (sine * fst v + cosine * snd v))
    with ((sine * sine + cosine * cosine) * (fst v * fst v + snd v * snd v)) by ring.
  rewrite H. ring.
Qed.

Lemma sin_cos_1 (x : R) : sin x * sin x + cos x * cos x = 1.
Proof. pose proof (sin2_cos2 x) as H. unfold Rsqr in H. exact H. Qed.

Lemma translate_between (t : Vector) (p : Point) : between p (translate t p) = t.
Proof.
  unfold between, translate. cbn [fst snd]. destruct t as [tx ty]. cbn [fst snd].
  f_equal; ring.
Qed.

Lemma times_norm2 (s : R) (v : Vector) : norm2 (times s v) = s * s * norm2 v.
Proof. unfold norm2, times. cbn [fst snd]. ring. Qed.

(** A section without length has its exit at its entrance, with the same
    normal.  The exit of a straight section (arc angle below the minimal
    distance) is the entrance moved by the length along the normal turned
    by a quarter of a turn clockwise.  The exit of a curved section lies at
    the distance of the chord, [2 |R| sin(|angle| / 2)] for a normal of
    norm 1, from the entrance, in both orientations of the bend.  The
    normal at the exit has the norm of the normal at the entrance. *)
Theorem exit_of_a_section (ctrLinePtIn : Point) (normalIn : Vector)
    (circleArcAngle curvatureRadius length : R) :
  let out := ctrLinePtOut ctrLinePtIn normalIn circleArcAngle curvatureRadius length in
  (length <= 0 ->
     out = ctrLinePtIn /\ normalOut normalIn circleArcAngle length = normalIn) /\
  (0 < length -> Rabs circleArcAngle < MINIMAL_DISTANCE ->
     out = (fst ctrLinePtIn + length * snd normalIn,
            snd ctrLinePtIn - length * fst normalIn)) /\
  (0 < length -> MINIMAL_DISTANCE <= Rabs circleArcAngle ->
     norm2 (between ctrLinePtIn out)
     = (2 * curvatureRadius * sin (Rabs circleArcAngle / 2))
       * (2 * curvatureRadius * sin (Rabs circleArcAngle / 2)) * norm2 normalIn) /\
  norm2 (normalOut normalIn circleArcAngle length) = norm2 normalIn.
Proof.
  intro out. subst out. unfold ctrLinePtOut, normalOut.
  split; [|split; [|split]].
  - intro Hl. destruct (Rlt_dec 0 length) as [H | _]; [lra|]. split; reflexivity.
  - intros Hl Ha. destruct (Rlt_dec 0 length) as [_ | H]; [|contradiction].
    destruct (Rlt_dec _ MINIMAL_DISTANCE) as [_ | H]; [|contradiction].
    replace (- PI / 2) with (- (PI / 2)) by lra.
    rewrite sin_neg, cos_neg, sin_PI2, cos_PI2.
    unfold translate, times, rotate. cbn [fst snd]. f_equal; ring.
  - intros Hl Ha. destruct (Rlt_dec 0 length) as [_ | H]; [|contradiction].
    destruct (Rlt_dec _ MINIMAL_DISTANCE) as [H | _]; [lra|].
    set (theta := Rabs circleArcAngle / 2).
    assert (Hc : cos (theta - PI / 2) = sin theta).
    { replace (theta - PI / 2) with (- (PI / 2 - theta)) by lra.
      rewrite cos_neg. apply cos_shift. }
    assert (Hs : sin (theta - PI / 2) = - cos theta).
    { replace (theta - PI / 2) with (- (PI / 2 - theta)) by lra.
      rewrite sin_neg, sin_shift. reflexivity. }
    pose proof (sin_cos_1 theta) as H1.
    destruct (_ || _).
    + rewrite translate_between, times_norm2, rotate_norm2.
      * unfold norm2, opposite. cbn [fst snd]. ring.
      * rewrite sin_shift, Hc. lra.
    + rewrite translate_between, times_norm2, rotate_norm2.
      * ring.
      * rewrite Hs, Hc. lra.
  - destruct (Rlt_dec 0 length); [|reflexivity].
    apply rotate_norm2, sin_cos_1.
Qed.

End Exit.

End Centerline.
